(** * Instance-segmentation utilities of [local.py]: [evaluate],
      [compute_affinities], [train] and the colour images of the plots

    A shallow embedding of the two array functions of [local.py], of the loop
    of [train] and of the conversion that [plot_two], [plot_three] and
    [plot_four] apply to a stack of four planes, with the properties stated
    about them.

    Modelling conventions.
    - A label image is given by its rows ([list (list Z)]); [flatten] is
      row-major concatenation.
    - Python exceptions are the constructors of [exn]; a computation that can
      raise returns a [result].
    - A floating-point number is modelled by the rational it denotes ([Q]),
      and a floating-point operation of [evaluate] by the exact operation
      followed by rounding to nearest, ties to even: [f32] rounds to
      [np.float32] and [f64] to [np.float64].  The IoU is a float64 quotient
      stored in a float32 table; the table is compared with the threshold in
      float32, the Python float being converted to the type of the array (as
      numpy 2 does); the costs are float64.  Subnormal numbers are modelled,
      infinities are not: the pixel counts are taken to be below [2 ^ 53], so
      that they convert to float64 exactly, and a threshold beyond the range
      of float32 compares with the entries of the table, which lie in
      [[0, 1]], as an infinity does.  The three ratios that [evaluate]
      returns are quotients of Python integers; they are kept exact.
    - [np.unique], [np.max], [np.min], [relabel_sequential] (scikit-image) and
      [linear_sum_assignment] (scipy) are library functions; they are modelled
      after their documentation.  The assignment solver is a parameter of
      [evaluate], constrained by [lsa_contract]; [lsa_exhaustive] is an
      executable instance.
    - In [train] the model, the optimizer and the loss are arguments; they
      are modelled by a state, a step function on it and the outcome of the
      shape assertion.  What the function prints and sends to the logger is
      kept as a list of events, and the state reached is kept also when an
      exception ends the loop. *)

From Stdlib Require Import List ZArith QArith Qround Qpower Lia Lqa Bool.
From Stdlib Require Import Permutation Sorted.
Import ListNotations.
Open Scope Z_scope.

(** ** Exceptions *)

Inductive exn : Type :=
| ValueError | KeyError | IndexError | ZeroDivisionError | AssertionError.

Inductive result (A : Type) : Type :=
| Ok (a : A)
| Raise (e : exn).
Arguments Ok {A} a.
Arguments Raise {A} e.

Definition bind {A B : Type} (r : result A) (k : A -> result B) : result B :=
  match r with
  | Ok a => k a
  | Raise e => Raise e
  end.

Notation "x <- r ;; k" := (bind r (fun x => k))
  (at level 61, r at next level, right associativity).

(** ** numpy helpers *)

Definition Qltb (x y : Q) : bool := (Qnum x * QDen y <? Qnum y * QDen x)%Z.

(** ** Floating-point numbers

    [round_float prec emin] rounds a rational to the nearest floating-point
    number with [prec] significant bits whose smallest positive value is
    [2 ^ emin]; a tie goes to the number with an even significand. *)

Definition pow2 (e : Z) : Q := (2 ^ e)%Q.

(** The integer nearest to [x]; a tie goes to the even one. *)
Definition round_half_even (x : Q) : Z :=
  let f := Qfloor x in
  match (x - inject_Z f ?= 1 # 2)%Q with
  | Lt => f
  | Gt => f + 1
  | Eq => if Z.even f then f else f + 1
  end.

(** The exponent [e] with [2 ^ e <= x < 2 ^ (e + 1)], for positive [x]. *)
Definition floor_log2 (x : Q) : Z :=
  let e := Z.log2 (Qnum x) - Z.log2 (Zpos (Qden x)) in
  if Qle_bool (pow2 e) x then e else e - 1.

(** Rounding of a positive number: to a multiple of the quantum [2 ^ q] of
    its binade. *)
Definition round_pos (prec emin : Z) (x : Q) : Q :=
  let q := Z.max (floor_log2 x - (prec - 1)) emin in
  (inject_Z (round_half_even (x / pow2 q)) * pow2 q)%Q.

Definition round_float (prec emin : Z) (x : Q) : Q :=
  let x := Qred x in
  match Qnum x with
  | Z0 => 0%Q
  | Zpos _ => Qred (round_pos prec emin x)
  | Zneg _ => Qred (- round_pos prec emin (- x))
  end.

(** [np.float32] and [np.float64] *)
Definition f32 : Q -> Q := round_float 24 (-149).
Definition f64 : Q -> Q := round_float 53 (-1074).

Definition flatten (a : list (list Z)) : list Z := concat a.

(** [a.shape] of a two-dimensional array given by its rows. *)
Definition shape (a : list (list Z)) : nat * nat :=
  (length a, length (hd [] a)).

Definition np_max (l : list Z) : result Z :=
  match l with
  | [] => Raise ValueError
  | x :: l' => Ok (fold_left Z.max l' x)
  end.

Definition np_min (l : list Z) : result Z :=
  match l with
  | [] => Raise ValueError
  | x :: l' => Ok (fold_left Z.min l' x)
  end.

Definition Qmax' (x y : Q) : Q := if Qltb x y then y else x.

Definition np_maxQ (l : list Q) : result Q :=
  match l with
  | [] => Raise ValueError
  | x :: l' => Ok (fold_left Qmax' l' x)
  end.

(** [np.unique]: the sorted distinct values.  Sorting is by insertion with
    respect to a comparison; equal elements are kept once. *)
Section Unique.
Context {A : Type} (cmp : A -> A -> comparison).

Fixpoint insert_unique (x : A) (l : list A) : list A :=
  match l with
  | [] => [x]
  | y :: l' =>
      match cmp x y with
      | Lt => x :: y :: l'
      | Eq => y :: l'
      | Gt => y :: insert_unique x l'
      end
  end.

Definition unique_by (l : list A) : list A := fold_right insert_unique [] l.
End Unique.

Definition np_unique (l : list Z) : list Z := unique_by Z.compare l.

(** Lexicographic order on the columns [(u, v)] of a two-row array, as used by
    [np.unique(..., axis=1)]. *)
Definition col_compare (a b : Z * Z) : comparison :=
  match fst a ?= fst b with
  | Eq => snd a ?= snd b
  | c => c
  end.

Definition np_unique_cols (l : list (Z * Z)) : list (Z * Z) :=
  unique_by col_compare l.

Definition Z_eq_dec2 (a b : Z * Z) : {a = b} + {a <> b}.
Proof. decide equality; apply Z.eq_dec. Defined.

(** The [return_counts=True] part of [np.unique]. *)
Definition counts_of (l vals : list Z) : list Z :=
  map (fun v => Z.of_nat (count_occ Z.eq_dec l v)) vals.

Definition col_counts_of (l vals : list (Z * Z)) : list Z :=
  map (fun v => Z.of_nat (count_occ Z_eq_dec2 l v)) vals.

(** [np.array([a, b])] of two flat arrays: the list of its columns.  Rows of
    different lengths cannot be stacked. *)
Definition np_stack2 (a b : list Z) : result (list (Z * Z)) :=
  if (length a =? length b)%nat then Ok (combine a b) else Raise ValueError.

(** [np.arange(a, b)] *)
Definition arange (a b : Z) : list Z :=
  map (fun i => a + Z.of_nat i) (seq 0 (Z.to_nat (b - a))).

(** ** [relabel_sequential] (scikit-image), with the default [offset=1] *)

Fixpoint lookup_default (x : Z) (kv : list (Z * Z)) (d : Z) : Z :=
  match kv with
  | [] => d
  | (k, v) :: kv' => if x =? k then v else lookup_default x kv' d
  end.

Definition map_array (input in_vals out_vals : list Z) : list Z :=
  map (fun x => lookup_default x (combine in_vals out_vals) 0) input.

Definition relabel_sequential (label_field : list Z) : result (list Z) :=
  m <- np_min label_field ;;
  if m <? 0 then Raise ValueError
  else
    let in_vals := np_unique label_field in
    let n := Z.of_nat (length in_vals) in
    let out_vals :=
      if hd 1 in_vals =? 0 then 0 :: arange 1 n else arange 1 (1 + n) in
    Ok (map_array label_field in_vals out_vals).

(** The forward map that [relabel_sequential] applies to every pixel. *)
Definition relabel_offset (label_field : list Z) : Z :=
  if hd 1 (np_unique label_field) =? 0 then 0 else 1.

Definition forward_map (label_field : list Z) (x : Z) : Z :=
  let in_vals := np_unique label_field in
  let n := Z.of_nat (length in_vals) in
  let out_vals :=
    if hd 1 in_vals =? 0 then 0 :: arange 1 n else arange 1 (1 + n) in
  lookup_default x (combine in_vals out_vals) 0.

(** ** Python containers used by [evaluate] *)

(** A dict filled by [d[l] = c]: the latest binding of a key is found first. *)
Definition dict : Type := list (Z * Z).

Definition dict_set (d : dict) (k v : Z) : dict := (k, v) :: d.

Fixpoint dict_get (d : dict) (k : Z) : result Z :=
  match d with
  | [] => Raise KeyError
  | (k', v) :: d' => if k =? k' then Ok v else dict_get d' k
  end.

Definition dict_of_zip (keys vals : list Z) : dict :=
  fold_left (fun d lc => dict_set d (fst lc) (snd lc)) (combine keys vals) [].

(** An index into an axis of length [n]; negative indices count from the end. *)
Definition py_index (i : Z) (n : nat) : result nat :=
  if (0 <=? i) && (i <? Z.of_nat n) then Ok (Z.to_nat i)
  else if (- Z.of_nat n <=? i) && (i <? 0) then Ok (Z.to_nat (i + Z.of_nat n))
  else Raise IndexError.

Fixpoint list_set {A : Type} (i : nat) (x : A) (l : list A) : list A :=
  match l, i with
  | [], _ => []
  | _ :: l', O => x :: l'
  | y :: l', S i' => y :: list_set i' x l'
  end.

Definition matrix : Type := list (list Q).

Definition np_zeros (n m : nat) : matrix := repeat (repeat 0%Q m) n.

(** [mat[i, j] = x] *)
Definition setitem2 (mat : matrix) (i j : Z) (x : Q) : result matrix :=
  r <- py_index i (length mat) ;;
  c <- py_index j (length (nth r mat [])) ;;
  Ok (list_set r (list_set c x (nth r mat [])) mat).

Definition getitem2 (mat : matrix) (i j : nat) : result Q :=
  match nth_error mat i with
  | None => Raise IndexError
  | Some row =>
      match nth_error row j with
      | None => Raise IndexError
      | Some x => Ok x
      end
  end.

(** [mat[rows, cols]] with two index arrays of the same length. *)
Fixpoint fancy_index (mat : matrix) (ij : list (nat * nat)) : result (list Q) :=
  match ij with
  | [] => Ok []
  | (i, j) :: ij' =>
      x <- getitem2 mat i j ;;
      xs <- fancy_index mat ij' ;;
      Ok (x :: xs)
  end.

Definition count_nonzero (l : list bool) : Z :=
  Z.of_nat (length (filter (fun b => b) l)).

(** ** [evaluate] *)

(** The loop [for (u, v), c in zip(overlay_labels, overlay_labels_counts)]:
    the quotient of two counts is a float64, which the assignment to the
    float32 table rounds once more. *)
Fixpoint fill_iou (entries : list ((Z * Z) * Z))
    (gt_labels_count_dict pred_labels_count_dict : dict) (iouMat : matrix)
  : result matrix :=
  match entries with
  | [] => Ok iouMat
  | ((u, v), c) :: rest =>
      gc <- dict_get gt_labels_count_dict v ;;
      pc <- dict_get pred_labels_count_dict u ;;
      let iou := f64 (inject_Z c / inject_Z (gc + pc - c)) in
      iouMat' <- setitem2 iouMat v u (f32 iou) ;;
      fill_iou rest gt_labels_count_dict pred_labels_count_dict iouMat'
  end.

(** The cost matrix of the assignment branch,
    [-(iouMat > th).astype(float) - iouMat / (2 * num_matches)]: the
    comparison and the division are float32 operations (the threshold and
    the integer are converted to float32), the subtraction is a float64
    operation. *)
Definition cost_entry (th : Q) (num_matches : Z) (x : Q) : Q :=
  f64 (- (if Qltb (f32 th) x then 1 else 0)
       - f32 (x / f32 (inject_Z (2 * num_matches))))%Q.

Definition cost_matrix (th : Q) (num_matches : Z) (iouMat : matrix) : matrix :=
  map (map (cost_entry th num_matches)) iouMat.

(** [evaluate] is embedded in four steps, in the order of the source:
    [iou_table] (relabelling, overlay, count dictionaries, label counts and
    IoU table, up to [iouMat = iouMat[1:, 1:]]), [true_positives] (the
    [if num_matches > 0 and np.max(iouMat) > th] statement), [match_counts]
    ([fp] and [fn]) and [evaluate] (the three ratios and the returned tuple).

    [iou_table]: what is computed before the threshold is used, the label
    counts and the IoU table without its background row and column. *)
Definition iou_table (gt_labels pred_labels : list (list Z))
  : result (Z * Z * matrix) :=
  pred_labels_rel <- relabel_sequential (flatten pred_labels) ;;
  gt_labels_rel <- relabel_sequential (flatten gt_labels) ;;
  overlay <- np_stack2 pred_labels_rel gt_labels_rel ;;
  let overlay_labels := np_unique_cols overlay in
  let overlay_labels_counts := col_counts_of overlay overlay_labels in
  let gt_labels_list := np_unique gt_labels_rel in
  let gt_counts := counts_of gt_labels_rel gt_labels_list in
  let gt_labels_count_dict := dict_of_zip gt_labels_list gt_counts in
  let pred_labels_list := np_unique pred_labels_rel in
  let pred_counts := counts_of pred_labels_rel pred_labels_list in
  let pred_labels_count_dict := dict_of_zip pred_labels_list pred_counts in
  num_pred_labels <- np_max pred_labels_rel ;;
  num_gt_labels <- np_max gt_labels_rel ;;
  let iouMat :=
    np_zeros (Z.to_nat (num_gt_labels + 1)) (Z.to_nat (num_pred_labels + 1)) in
  iouMat <- fill_iou (combine overlay_labels overlay_labels_counts)
              gt_labels_count_dict pred_labels_count_dict iouMat ;;
  let iouMat := map (skipn 1) (skipn 1 iouMat) in
  Ok (num_gt_labels, num_pred_labels, iouMat).

Section Evaluate.
(** [scipy.optimize.linear_sum_assignment], returning [(row_ind, col_ind)]. *)
Variable linear_sum_assignment : matrix -> list nat * list nat.

(** The number of true positives, [tp], for a given IoU table.  [and] does
    not evaluate [np.max(iouMat)] when [num_matches] is 0.  The comparisons
    with [th] are float32 comparisons. *)
Definition true_positives (num_gt_labels num_pred_labels : Z)
    (iouMat : matrix) (th : Q) : result Z :=
  let num_matches := Z.min num_gt_labels num_pred_labels in
  if 0 <? num_matches then
    mx <- np_maxQ (concat iouMat) ;;
    if Qltb (f32 th) mx then
      let costs := cost_matrix th num_matches iouMat in
      let (gt_ind, pred_ind) := linear_sum_assignment costs in
      if (num_matches =? Z.of_nat (length gt_ind))
         && (length gt_ind =? length pred_ind)%nat
      then
        vals <- fancy_index iouMat (combine gt_ind pred_ind) ;;
        let match_ok := map (Qltb (f32 th)) vals in
        Ok (count_nonzero match_ok)
      else Raise AssertionError
    else Ok 0
  else Ok 0.

(** [(tp, fp, fn)] as computed by [evaluate]. *)
Definition match_counts (gt_labels pred_labels : list (list Z)) (th : Q)
  : result (Z * Z * Z) :=
  t <- iou_table gt_labels pred_labels ;;
  let '(num_gt_labels, num_pred_labels, iouMat) := t in
  tp <- true_positives num_gt_labels num_pred_labels iouMat th ;;
  let fp := num_pred_labels - tp in
  let fn := num_gt_labels - tp in
  Ok (tp, fp, fn).

(** [a / b] on Python integers. *)
Definition py_truediv (a b : Z) : result Q :=
  if b =? 0 then Raise ZeroDivisionError else Ok (inject_Z a / inject_Z b)%Q.

Definition precision_of (tp fp : Z) : result Q :=
  py_truediv tp (Z.max 1 (tp + fp)).

Definition recall_of (tp fn : Z) : result Q :=
  py_truediv tp (Z.max 1 (tp + fn)).

Definition accuracy_of (tp fp fn : Z) : result Q :=
  py_truediv tp (tp + fp + fn).

Definition evaluate (gt_labels pred_labels : list (list Z)) (th : Q)
  : result (Q * Q * Q) :=
  c <- match_counts gt_labels pred_labels th ;;
  let '(tp, fp, fn) := c in
  precision <- precision_of tp fp ;;
  recall <- recall_of tp fn ;;
  accuracy <- accuracy_of tp fp fn ;;
  Ok (precision, recall, accuracy).
End Evaluate.

(** ** The contract of [linear_sum_assignment] and an exhaustive solver *)

Definition is_matrix (n m : nat) (costs : matrix) : Prop :=
  length costs = n /\ Forall (fun row => length row = m) costs.

Definition entry (mat : matrix) (i j : nat) : Q := nth j (nth i mat []) 0%Q.

(** [cost_matrix[row_ind, col_ind].sum()] *)
Definition assignment_cost (costs : matrix) (a : list (nat * nat)) : Q :=
  fold_right (fun ij acc => (entry costs (fst ij) (snd ij) + acc)%Q) 0%Q a.

(** A full assignment of an [n] by [m] problem: [min n m] index pairs, no row
    and no column used twice. *)
Definition assignment (n m : nat) (a : list (nat * nat)) : Prop :=
  length a = Nat.min n m /\
  NoDup (map fst a) /\ NoDup (map snd a) /\
  Forall (fun ij => (fst ij < n)%nat /\ (snd ij < m)%nat) a.

Definition optimal_assignment (n m : nat) (costs : matrix)
    (sol : list nat * list nat) : Prop :=
  length (fst sol) = length (snd sol) /\
  assignment n m (combine (fst sol) (snd sol)) /\
  forall a, assignment n m a ->
    (assignment_cost costs (combine (fst sol) (snd sol))
       <= assignment_cost costs a)%Q.

Definition lsa_contract (lsa : matrix -> list nat * list nat) : Prop :=
  forall n m costs, is_matrix n m costs -> optimal_assignment n m costs (lsa costs).

(** All lists of [k] index pairs with distinct rows from [rs] and distinct
    columns from [cs]. *)
Fixpoint enum_assignments (k : nat) (rs cs : list nat)
  : list (list (nat * nat)) :=
  match k with
  | O => [[]]
  | S k' =>
      flat_map (fun r =>
        flat_map (fun c =>
          map (cons (r, c))
            (enum_assignments k' (remove Nat.eq_dec r rs)
               (remove Nat.eq_dec c cs)))
          cs)
        rs
  end.

Fixpoint argmin {X : Type} (cost : X -> Q) (best : X) (l : list X) : X :=
  match l with
  | [] => best
  | x :: l' => argmin cost (if Qltb (cost x) (cost best) then x else best) l'
  end.

Definition lsa_exhaustive (costs : matrix) : list nat * list nat :=
  let n := length costs in
  let m := length (hd [] costs) in
  match enum_assignments (Nat.min n m) (seq 0 n) (seq 0 m) with
  | [] => ([], [])
  | a :: l => List.split (argmin (assignment_cost costs) a l)
  end.

(** ** [compute_affinities] *)

(** A two-dimensional array view with its shape. *)
Record ndarray : Type := mk_ndarray { nd_shape : nat * nat; nd_rows : list (list Z) }.

(** Normalisation of a slice bound on an axis of length [n]. *)
Definition slice_bound (i n : Z) : Z :=
  if i <? 0 then Z.max 0 (i + n) else Z.min i n.

(** The slice [start:stop] on an axis of length [n]: first index and length. *)
Definition py_slice (start stop : Z) (n : nat) : nat * nat :=
  let lo := slice_bound start (Z.of_nat n) in
  let hi := slice_bound stop (Z.of_nat n) in
  (Z.to_nat lo, Z.to_nat (hi - lo)).

Definition take_slice {A : Type} (s : nat * nat) (l : list A) : list A :=
  firstn (snd s) (skipn (fst s) l).

(** [seg[s0, s1]] *)
Definition getslice2 (seg : list (list Z)) (s0 s1 : nat * nat) : ndarray :=
  mk_ndarray (snd s0, snd s1) (map (take_slice s1) (take_slice s0 seg)).

Definition broadcast_dim (a b : nat) : result nat :=
  if (a =? b)%nat then Ok a
  else if (a =? 1)%nat then Ok b
  else if (b =? 1)%nat then Ok a
  else Raise ValueError.

(** Element [(i, j)] of an array broadcast to a larger shape. *)
Definition bget (a : ndarray) (i j : nat) : Z :=
  nth (if (snd (nd_shape a) =? 1)%nat then O else j)
    (nth (if (fst (nd_shape a) =? 1)%nat then O else i) (nd_rows a) []) 0.

Definition tabulate2 (r c : nat) (f : nat -> nat -> Z) : list (list Z) :=
  map (fun i => map (fun j => f i j) (seq 0 c)) (seq 0 r).

(** An elementwise binary operation, with numpy broadcasting: two lengths of
    an axis are compatible when they are equal or one of them is 1; otherwise
    the operation raises [ValueError]. *)
Definition broadcast2 (f : Z -> Z -> Z) (a b : ndarray) : result ndarray :=
  r <- broadcast_dim (fst (nd_shape a)) (fst (nd_shape b)) ;;
  c <- broadcast_dim (snd (nd_shape a)) (snd (nd_shape b)) ;;
  Ok (mk_ndarray (r, c) (tabulate2 r c (fun i j => f (bget a i j) (bget b i j)))).

Definition nd_map (f : Z -> Z) (a : ndarray) : ndarray :=
  mk_ndarray (nd_shape a) (map (map f) (nd_rows a)).

Definition Z_of_bool (b : bool) : Z := if b then 1 else 0.
Definition np_equal (x y : Z) : Z := Z_of_bool (x =? y).
Definition np_positive (x : Z) : Z := Z_of_bool (0 <? x).

Definition in_slice (s : nat * nat) (i : nat) : bool :=
  (fst s <=? i)%nat && (i <? fst s + snd s)%nat.

(** [plane[s0, s1] = value] on a plane of shape [(h, w)]: the value is
    broadcast to the shape of the target slice. *)
Definition setslice2 (h w : nat) (plane : list (list Z)) (s0 s1 : nat * nat)
    (value : ndarray) : result (list (list Z)) :=
  let ok d t := ((d =? t)%nat || (d =? 1)%nat) in
  if ok (fst (nd_shape value)) (snd s0) && ok (snd (nd_shape value)) (snd s1)
  then
    Ok (tabulate2 h w (fun i j =>
          if in_slice s0 i && in_slice s1 j
          then bget value (i - fst s0) (j - fst s1)
          else nth j (nth i plane []) 0))
  else Raise ValueError.

(** The body of the loop over the edges [e], for the offset
    [off = (nhood[e, 0], nhood[e, 1])]: [t0], [t1] are the slices of the
    assignment target and of the first operand, [u0], [u1] those of the shifted
    operand. *)
Definition affinity_plane (seg : list (list Z)) (off : Z * Z)
  : result (list (list Z)) :=
  let (h, w) := shape seg in
  let sh0 := Z.of_nat h in
  let sh1 := Z.of_nat w in
  let t0 := py_slice (Z.max 0 (- fst off)) (Z.min sh0 (sh0 - fst off)) h in
  let t1 := py_slice (Z.max 0 (- snd off)) (Z.min sh1 (sh1 - snd off)) w in
  let u0 := py_slice (Z.max 0 (fst off)) (Z.min sh0 (sh0 + fst off)) h in
  let u1 := py_slice (Z.max 0 (snd off)) (Z.min sh1 (sh1 + snd off)) w in
  let a := getslice2 seg t0 t1 in
  let b := getslice2 seg u0 u1 in
  e <- broadcast2 np_equal a b ;;
  e1 <- broadcast2 Z.mul e (nd_map np_positive a) ;;
  e2 <- broadcast2 Z.mul e1 (nd_map np_positive b) ;;
  setslice2 h w (tabulate2 h w (fun _ _ => 0)) t0 t1 e2.

Fixpoint for_each {A B : Type} (f : A -> result B) (l : list A)
  : result (list B) :=
  match l with
  | [] => Ok []
  | x :: l' => y <- f x ;; ys <- for_each f l' ;; Ok (y :: ys)
  end.

(** [nhood] is a list of two-dimensional offsets; [np.array([])] has the
    one-dimensional shape [(0,)], for which [nhood.shape[1]] fails. *)
Definition compute_affinities (seg : list (list Z)) (nhood : list (Z * Z))
  : result (list (list (list Z))) :=
  match nhood with
  | [] => Raise IndexError
  | _ => for_each (affinity_plane seg) nhood
  end.

(** ** Specification-side notions *)

(** A flattened label image: not empty, no negative value. *)
Definition label_image (l : list Z) : Prop :=
  l <> [] /\ Forall (fun x => 0 <= x) l.

(** The distinct non-zero labels of an image, and their number. *)
Definition instances (l : list Z) : list Z :=
  nodup Z.eq_dec (filter (fun x => negb (x =? 0)) l).

Definition num_instances (l : list Z) : nat := length (instances l).

(** Pixel counts on the unrelabelled images [G] (ground truth) and [P]
    (prediction): size of an instance, overlap of two instances, IoU. *)
Definition size_of (G : list Z) (a : Z) : Z :=
  Z.of_nat (count_occ Z.eq_dec G a).

Definition overlap (G P : list Z) (a b : Z) : Z :=
  Z.of_nat (count_occ Z_eq_dec2 (combine P G) (b, a)).

Definition iou (G P : list Z) (a b : Z) : Q :=
  (inject_Z (overlap G P a b)
   / inject_Z (size_of G a + size_of P b - overlap G P a b))%Q.

(** What is needed of a relabelling [f] of the image [l]: it is one-to-one on
    the labels of [l], keeps exactly the background at 0, and its non-zero
    values are the consecutive ids from 1 to the number of instances. *)
Record relabel_props (l : list Z) (f : Z -> Z) : Prop := {
  rp_inj : forall x y, In x l -> In y l -> f x = f y -> x = y;
  rp_zero : forall x, In x l -> (f x = 0 <-> x = 0);
  rp_range : forall x, In x l -> 0 <= f x <= Z.of_nat (num_instances l);
  rp_surj : forall j, 1 <= j <= Z.of_nat (num_instances l) ->
            exists x, In x l /\ f x = j
}.

(** One-to-one matchings of a bipartite graph given by its edge relation, and
    the maximum cardinality of a matching. *)
Section Matching.
Context {A B : Type} (E : A -> B -> Prop).

Definition matching (M : list (A * B)) : Prop :=
  NoDup (map fst M) /\ NoDup (map snd M) /\
  Forall (fun ab => E (fst ab) (snd ab)) M.

Definition max_matching (k : nat) : Prop :=
  (exists M, matching M /\ length M = k) /\
  (forall M, matching M -> (length M <= k)%nat).
End Matching.

(** Renaming the two sides of a list of pairs. *)
Definition pair_map {A B A' B' : Type} (phi : A -> A') (psi : B -> B')
    (ab : A * B) : A' * B' :=
  (phi (fst ab), psi (snd ab)).

(** The edges of the complete bipartite graph on [n] and [m] vertices. *)
Definition in_range (n m : nat) (g p : nat) : Prop := (g < n)%nat /\ (p < m)%nat.

(** [match_ok] for one index pair, and a natural number as a rational. *)
Definition qualifies (iouMat : matrix) (th : Q) (ij : nat * nat) : bool :=
  Qltb th (entry iouMat (fst ij) (snd ij)).

Definition Qnat (k : nat) : Q := inject_Z (Z.of_nat k).

(** Pairs of matrix indices whose IoU strictly exceeds the threshold. *)
Definition above (iouMat : matrix) (th : Q) (n m : nat) (g p : nat) : Prop :=
  (g < n)%nat /\ (p < m)%nat /\ (th < entry iouMat g p)%Q.

(** A bound on every tie-break term [iouMat / (2 * num_matches)] of the
    costs: the largest power of two that is at most [1 / num_matches],
    halved. *)
Definition tie_bound (num_matches : Z) : Q :=
  pow2 (- (Z.log2 num_matches + 1)).

(** The IoU of two instances as the table of [evaluate] holds it. *)
Definition stored_iou (G P : list Z) (a b : Z) : Q := f32 (f64 (iou G P a b)).

(** Pairs of instances whose IoU strictly exceeds the threshold, as
    [evaluate] compares them: the stored IoU with the threshold rounded to
    float32. *)
Definition label_edge (G P : list Z) (th : Q) (a b : Z) : Prop :=
  In a G /\ a <> 0 /\ In b P /\ b <> 0 /\ (f32 th < stored_iou G P a b)%Q.

(** The same pairs when the IoU is the exact ratio of the pixel counts. *)
Definition exact_edge (G P : list Z) (th : Q) (a b : Z) : Prop :=
  In a G /\ a <> 0 /\ In b P /\ b <> 0 /\ (th < iou G P a b)%Q.

(** Exchanging two label values. *)
Definition swap_labels (a b x : Z) : Z :=
  if x =? a then b else if x =? b then a else x.

(** The end-to-end scenario of the specification. *)
Definition example_gt : list (list Z) := [[1; 1; 0]; [0; 2; 2]; [0; 2; 2]].
Definition example_pred : list (list Z) := [[1; 1; 0]; [0; 0; 2]; [0; 2; 2]].

(** Two images with an instance of IoU 1/3, and the Python float
    0.33333333: the float64 number nearest to this decimal. *)
Definition rounding_gt : list (list Z) := [[1; 1; 1; 2; 2]].
Definition rounding_pred : list (list Z) := [[1; 0; 0; 2; 2]].
Definition rounding_th : Q := f64 (33333333 # 100000000).

(** A remapping of the label values of the image [l] that keeps the
    background and sends distinct instances to distinct instances. *)
Definition relabeling (l : list Z) (f : Z -> Z) : Prop :=
  f 0 = 0 /\
  (forall x, In x l -> 0 < x -> 0 < f x) /\
  (forall x y, In x l -> In y l -> 0 < x -> 0 < y -> f x = f y -> x = y).

Definition relabel_image (f : Z -> Z) (a : list (list Z)) : list (list Z) :=
  map (map f) a.

(** The pixel [(i, j)] of an image, and the affinity of the specification:
    1 exactly when the pixel at [p + offset] is inside the image and both
    pixels carry the same non-zero label. *)
Definition pixel (seg : list (list Z)) (i j : nat) : Z := nth j (nth i seg []) 0.

Definition affinity_spec (seg : list (list Z)) (off : Z * Z) (i j : nat) : Z :=
  let i' := Z.of_nat i + fst off in
  let j' := Z.of_nat j + snd off in
  if (0 <=? i') && (i' <? Z.of_nat (fst (shape seg)))
     && (0 <=? j') && (j' <? Z.of_nat (snd (shape seg)))
  then Z_of_bool ((pixel seg i j =? pixel seg (Z.to_nat i') (Z.to_nat j'))
                  && (0 <? pixel seg i j)
                  && (0 <? pixel seg (Z.to_nat i') (Z.to_nat j')))
  else 0.

(** An array view of shape [(r, c)] whose elements are given by [F]. *)
Definition represents (a : ndarray) (r c : nat) (F : nat -> nat -> Z) : Prop :=
  nd_shape a = (r, c) /\
  forall i j, (i < r)%nat -> (j < c)%nat -> bget a i j = F i j.

(** The perfect-match property as the specification words it, for an image
    compared with itself at the default threshold. *)
Definition perfect_match (lsa : matrix -> list nat * list nat)
    (L : list (list Z)) : Prop :=
  match_counts lsa L L (1 # 2)
  = Ok (Z.of_nat (num_instances (flatten L)), 0, 0) /\
  exists precision recall accuracy,
    evaluate lsa L L (1 # 2) = Ok (precision, recall, accuracy) /\
    (precision == 1)%Q /\ (recall == 1)%Q /\ (accuracy == 1)%Q.

(** ** Notions used by the further properties *)

(** The inputs that [evaluate] accepts: two label images (not empty, no
    negative label) with the same number of pixels. *)
Definition well_formed (gt_labels pred_labels : list (list Z)) : Prop :=
  label_image (flatten gt_labels) /\ label_image (flatten pred_labels) /\
  length (flatten gt_labels) = length (flatten pred_labels).

(** The result of [evaluate] with precision and recall exchanged. *)
Definition swap_result (r : result (Q * Q * Q)) : result (Q * Q * Q) :=
  match r with
  | Ok (precision, recall, accuracy) => Ok (recall, precision, accuracy)
  | Raise e => Raise e
  end.

(** A pair with its components exchanged. *)
Definition flip {A B : Type} (ab : A * B) : B * A := (snd ab, fst ab).

(** The exhaustive solver with its answer listed in the opposite order. *)
Definition lsa_reversed (costs : matrix) : list nat * list nat :=
  (rev (fst (lsa_exhaustive costs)), rev (snd (lsa_exhaustive costs))).

(** The pairs of instances whose IoU exceeds the threshold, as [evaluate]
    compares them. *)
Definition pairs_above (G P : list Z) (th : Q) : list (Z * Z) :=
  filter (fun ab => Qltb (f32 th) (stored_iou G P (fst ab) (snd ab)))
    (list_prod (instances G) (instances P)).

(** An offset component for which the two slices of [compute_affinities] on
    an axis of length [n] have the same length: it does not exceed the axis,
    or it is at least twice as long. *)
Definition aligned (n : nat) (o : Z) : Prop :=
  Z.abs o <= Z.of_nat n \/ 2 * Z.of_nat n <= Z.abs o.

(** The offset components for which a plane is computed: the aligned ones,
    and [1 - 2 n], for which an empty slice meets a slice of length one. *)
Definition harmless (n : nat) (o : Z) : Prop :=
  aligned n o \/ o = 1 - 2 * Z.of_nat n.

(** An offset component for which the two slices have different lengths that
    cannot be broadcast. *)
Definition harmful (n : nat) (o : Z) : Prop :=
  Z.of_nat n < o < 2 * Z.of_nat n \/
  1 - 2 * Z.of_nat n < o < - Z.of_nat n.

(** The length of the target slice on an axis of length [n], for the offset
    component [o]. *)
Definition target_length (n : nat) (o : Z) : nat :=
  snd (py_slice (Z.max 0 (- o)) (Z.min (Z.of_nat n) (Z.of_nat n - o)) n).

(** The length of the slice of the shifted operand on the same axis. *)
Definition source_length (n : nat) (o : Z) : nat :=
  snd (py_slice (Z.max 0 o) (Z.min (Z.of_nat n) (Z.of_nat n + o)) n).

(** ** [train] *)

(** What [train] leaves behind: lines on the console and calls of the
    tensorboard logger.  [Printed batch_id] is the line of the training
    progress, [Scalar step] the call of [add_scalar], [Images tag step] a call
    of [add_images], [Stopping] the line "Stopping test early!". *)
Inductive image_tag : Type := Input | Target | Prediction.

Inductive event : Type :=
| Printed (batch_id : Z)
| Scalar (step : Z)
| Images (tag : image_tag) (step : Z)
| Stopping.

(** The arguments of [train] that steer the loop; [tb_logger] tells whether
    a logger is passed. *)
Record options : Type := mk_options {
  epoch : Z;
  log_interval : Z;
  log_image_interval : Z;
  tb_logger : bool;
  early_stop : bool
}.

(** [a % b] on Python integers. *)
Definition py_mod (a b : Z) : result Z :=
  if b =? 0 then Raise ZeroDivisionError else Ok (a mod b).

Section Train.

(** The values of the parameters of the model together with the internal
    state of the optimizer (the gradient buffers, which every iteration
    resets first, and the buffers that a forward pass updates are no part of
    it), and a batch of the loader, which is a [DataLoader].
    [shapes_agree s b] is the test [prediction.shape == y.shape] for the
    prediction of the model in state [s]; [optimizer_step s b] is the state
    after [zero_grad], the forward pass, the loss, [backward] and
    [optimizer.step()] on the batch. *)
Variable state : Type.
Variable batch : Type.
Variable shapes_agree : state -> batch -> bool.
Variable optimizer_step : state -> batch -> state.

(** The model and optimizer as they are mutated in place, and what has been
    written so far; both survive an exception. *)
Record world : Type := mk_world {
  params : state;
  log : list event
}.

Definition action (A : Type) : Type := world -> world * result A.

Definition ret {A : Type} (a : A) : action A := fun w => (w, Ok a).

Definition raise {A : Type} (e : exn) : action A := fun w => (w, Raise e).

Definition and_then {A B : Type} (c : action A) (k : A -> action B)
  : action B :=
  fun w =>
    match c w with
    | (w', Ok a) => k a w'
    | (w', Raise e) => (w', Raise e)
    end.

Definition lift {A : Type} (r : result A) : action A := fun w => (w, r).

Definition emit (e : event) : action unit :=
  fun w => (mk_world (params w) (log w ++ [e]), Ok tt).

Definition get_params : action state := fun w => (w, Ok (params w)).

Definition set_params (s : state) : action unit :=
  fun w => (mk_world s (log w), Ok tt).

Definition when (b : bool) (c : action unit) : action unit :=
  if b then c else ret tt.

Definition py_assert (b : bool) : action unit :=
  if b then ret tt else raise AssertionError.

(** The body of the loop for one batch; the result tells whether the loop is
    left by [break]. *)
Definition train_batch (o : options) (len_loader batch_id : Z) (b : batch)
  : action bool :=
  and_then get_params (fun s =>
  and_then (py_assert (shapes_agree s b)) (fun _ =>
  and_then (set_params (optimizer_step s b)) (fun _ =>
  and_then (lift (py_mod batch_id (log_interval o))) (fun m =>
  and_then (when (m =? 0) (emit (Printed batch_id))) (fun _ =>
  and_then
    (when (tb_logger o)
       (let step := epoch o * len_loader + batch_id in
        and_then (emit (Scalar step)) (fun _ =>
        and_then (lift (py_mod step (log_image_interval o))) (fun m' =>
        when (m' =? 0)
          (and_then (emit (Images Input step)) (fun _ =>
           and_then (emit (Images Target step)) (fun _ =>
           emit (Images Prediction step))))))))
    (fun _ =>
  if early_stop o && (5 <? batch_id)
  then and_then (emit Stopping) (fun _ => ret true)
  else ret false)))))).

Fixpoint train_loop (o : options) (len_loader batch_id : Z)
    (batches : list batch) : action unit :=
  match batches with
  | [] => ret tt
  | b :: batches' =>
      and_then (train_batch o len_loader batch_id b) (fun stop =>
      if stop then ret tt
      else train_loop o len_loader (batch_id + 1) batches')
  end.

(** [train]; [len(loader)] is the number of batches, as for a [DataLoader]
    over a dataset with a length. *)
Definition train (o : options) (batches : list batch) : action unit :=
  train_loop o (Z.of_nat (length batches)) 0 batches.

End Train.

Arguments mk_world {state} params log.
Arguments params {state} w.
Arguments log {state} w.
Arguments train {state batch} shapes_agree optimizer_step o batches w.
Arguments train_loop {state batch} shapes_agree optimizer_step o len_loader
  batch_id batches w.
Arguments train_batch {state batch} shapes_agree optimizer_step o len_loader
  batch_id b w.

(** The number of batches still processed by a loop with [early_stop] that
    is at [batch_id]. *)
Definition batches_left (batch_id : Z) : nat :=
  Z.to_nat (Z.max 1 (7 - batch_id)).

(** What one batch writes when no exception arises. *)
Definition batch_events (o : options) (len_loader batch_id : Z) : list event :=
  let step := epoch o * len_loader + batch_id in
  (if batch_id mod log_interval o =? 0 then [Printed batch_id] else [])
  ++ (if tb_logger o
      then Scalar step
           :: (if step mod log_image_interval o =? 0
               then [Images Input step; Images Target step;
                     Images Prediction step]
               else [])
      else [])
  ++ (if early_stop o && (5 <? batch_id) then [Stopping] else []).

(** ** The colour image that [plot_two], [plot_three] and [plot_four] show
    for four planes *)

(** Element [(c, i, j)] of a stack of planes. *)
Definition px (a : list (list (list Z))) (c i j : nat) : Z :=
  pixel (nth c a []) i j.

(** [np.array([(a[0] + a[2]) / 2, (a[1] + a[3]) / 2,
    a.sum(axis=0) > 0]).transpose((1, 2, 0))] for a stack [a] of four planes:
    an image with three components for every pixel. *)
Definition rgb_of_four (a : list (list (list Z))) : list (list (list Q)) :=
  let (h, w) := shape (hd [] a) in
  map (fun i =>
         map (fun j =>
                [ (inject_Z (px a 0 i j + px a 2 i j) / 2)%Q;
                  (inject_Z (px a 1 i j + px a 3 i j) / 2)%Q;
                  if 0 <? px a 0 i j + px a 1 i j + px a 2 i j + px a 3 i j
                  then 1%Q else 0%Q ])
           (seq 0 w))
    (seq 0 h).

(** The conversion of the argument [intermediate], a three-dimensional
    array: a stack of four planes is replaced by the colour image, any other
    stack is shown as it is. *)
Definition intermediate_image (a : list (list (list Z)))
  : list (list (list Z)) + list (list (list Q)) :=
  if (length a =? 4)%nat then inr (rgb_of_four a) else inl a.

(** * Properties *)

(** ** The definitions on small inputs *)

Example relabel_sequential_with_background :
  relabel_sequential [5; 0; 9; 5] = Ok [1; 0; 2; 1].
Proof. reflexivity. Qed.

Example relabel_sequential_without_background :
  relabel_sequential [5; 3; 9; 5] = Ok [2; 1; 3; 2].
Proof. reflexivity. Qed.

Example relabel_sequential_negative :
  relabel_sequential [5; -3] = Raise ValueError.
Proof. reflexivity. Qed.

Example iou_table_example :
  iou_table [[1; 1; 2; 2]] [[1; 0; 2; 2]]
  = Ok (2, 2, [[1 # 2; 0]; [0; 1]]%Q).
Proof. vm_compute. reflexivity. Qed.

(** An IoU of 1/3 is stored as the float32 number nearest to it, which is
    also the float32 number nearest to 0.33333333. *)
Example f32_one_third :
  f32 (f64 (1 # 3)) = (11184811 # 33554432)%Q /\
  f32 (33333333 # 100000000) = (11184811 # 33554432)%Q.
Proof. split; vm_compute; reflexivity. Qed.

Example f32_thresholds :
  f32 (1 # 2) = (1 # 2)%Q /\ f32 (99999999 # 100000000) = 1%Q /\
  f32 (- (1 # 10 ^ 50)) = 0%Q /\
  f64 (1 # 10) = (3602879701896397 # 36028797018963968)%Q.
Proof. repeat split; vm_compute; reflexivity. Qed.

(** The comparison with the threshold is strict: an IoU of exactly 1/2 does
    not count at threshold 1/2, and counts just below. *)
Example threshold_is_strict :
  match_counts lsa_exhaustive [[1; 1; 2; 2]] [[1; 0; 2; 2]] (1 # 2)
  = Ok (1, 1, 1) /\
  match_counts lsa_exhaustive [[1; 1; 2; 2]] [[1; 0; 2; 2]] (49 # 100)
  = Ok (2, 0, 0).
Proof. split; vm_compute; reflexivity. Qed.

(** The comparison is made in float32: an IoU of 1/3 does not count at the
    threshold 0.33333333 (the Python float nearest to it), which is
    smaller. *)
Example threshold_in_float32 :
  (f64 (33333333 # 100000000) < 1 # 3)%Q /\
  match_counts lsa_exhaustive [[1; 1; 1; 2; 2]] [[1; 0; 0; 2; 2]]
    (f64 (33333333 # 100000000))
  = Ok (1, 1, 1).
Proof. split; vm_compute; reflexivity. Qed.

Example no_overlap_example :
  match_counts lsa_exhaustive [[1; 1; 0; 0]] [[0; 0; 2; 2]] (1 # 2)
  = Ok (0, 1, 1).
Proof. vm_compute. reflexivity. Qed.

Example lsa_exhaustive_rectangular :
  lsa_exhaustive [[-1 # 1; 0]; [0; -1 # 1]; [-2 # 1; -2 # 1]]%Q
  = ([0; 2], [0; 1])%nat.
Proof. reflexivity. Qed.

Example compute_affinities_example :
  compute_affinities example_gt [(-1, 0); (0, -1)]
  = Ok [[[0; 0; 0]; [0; 0; 0]; [0; 1; 1]];
        [[0; 1; 0]; [0; 0; 1]; [0; 0; 1]]].
Proof. reflexivity. Qed.

(** ** Rounding *)

Lemma pow2_pos (e : Z) : (0 < pow2 e)%Q.
Proof. apply Qpower_0_lt. reflexivity. Qed.

Lemma pow2_add (a b : Z) : (pow2 (a + b) == pow2 a * pow2 b)%Q.
Proof. apply Qpower_plus. discriminate. Qed.

Lemma pow2_le (a b : Z) : a <= b -> (pow2 a <= pow2 b)%Q.
Proof. intros H. apply Qpower_le_compat_l; [exact H | discriminate]. Qed.

Lemma pow2_lt (a b : Z) : a < b -> (pow2 a < pow2 b)%Q.
Proof. intros H. apply Qpower_lt_compat_l; [exact H | reflexivity]. Qed.

Lemma pow2_int (e : Z) : 0 <= e -> (pow2 e == inject_Z (2 ^ e))%Q.
Proof.
  intros He. unfold pow2. destruct e as [|p|p]; [reflexivity| |lia].
  change 2%Q with (2 # 1). rewrite Qpower_decomp_pos.
  unfold Qeq, inject_Z. cbn [Qnum Qden].
  rewrite Pos2Z.inj_pow, Z.pow_1_l by lia. reflexivity.
Qed.

Lemma pow2_div (x : Q) (a b : Z) :
  (x * pow2 a / pow2 b == x * pow2 (a - b))%Q.
Proof.
  unfold Z.sub. rewrite pow2_add. unfold pow2 at 4. rewrite Qpower_opp.
  fold (pow2 b). unfold Qdiv. ring.
Qed.

Lemma round_half_even_compat (x y : Q) :
  (x == y)%Q -> round_half_even x = round_half_even y.
Proof.
  intros E. unfold round_half_even.
  assert (Qfloor y = Qfloor x) as ->
    by (apply Qfloor_comp; symmetry; exact E).
  assert ((x - inject_Z (Qfloor x) ?= 1 # 2)%Q
          = (y - inject_Z (Qfloor x) ?= 1 # 2)%Q) as ->
    by (apply Qcompare_comp; [|reflexivity];
        apply Qplus_comp; [exact E | reflexivity]).
  reflexivity.
Qed.

Lemma round_half_even_bounds (x : Q) :
  Qfloor x <= round_half_even x <= Qfloor x + 1.
Proof.
  unfold round_half_even.
  destruct (_ ?= _)%Q; [destruct (Z.even _)| |]; lia.
Qed.

Lemma round_half_even_int (k : Z) : round_half_even (inject_Z k) = k.
Proof.
  unfold round_half_even. rewrite Qfloor_Z.
  assert (inject_Z k - inject_Z k == 0)%Q as E by ring.
  rewrite (Qcompare_comp _ _ E (1 # 2) (1 # 2) (Qeq_refl _)).
  reflexivity.
Qed.

Lemma round_half_even_mono (x y : Q) :
  (x <= y)%Q -> round_half_even x <= round_half_even y.
Proof.
  intros Hxy. pose proof (Qfloor_resp_le x y Hxy) as Hf.
  destruct (Z.eq_dec (Qfloor x) (Qfloor y)) as [E|NE].
  - unfold round_half_even. rewrite <- E.
    destruct (Qcompare_spec (x - inject_Z (Qfloor x)) (1 # 2)) as [Cx|Cx|Cx];
      destruct (Qcompare_spec (y - inject_Z (Qfloor x)) (1 # 2)) as [Cy|Cy|Cy];
      try (destruct (Z.even (Qfloor x)); lia); try lia;
      exfalso; lra.
  - pose proof (round_half_even_bounds x). pose proof (round_half_even_bounds y).
    lia.
Qed.

(** An integer plus at most one half, with the integer even, rounds to the
    integer. *)
Lemma round_half_even_down (k : Z) (x : Q) :
  (inject_Z k <= x)%Q -> (x <= inject_Z k + (1 # 2))%Q -> Z.even k = true ->
  round_half_even x = k.
Proof.
  intros H1 H2 Hev.
  assert (Qfloor x = k) as Ef.
  { pose proof (Qfloor_le x) as Ha. pose proof (Qlt_floor x) as Hb.
    assert (inject_Z (Qfloor x) < inject_Z (k + 1))%Q as Hc.
    { rewrite inject_Z_plus. change (inject_Z 1) with 1%Q. lra. }
    assert (inject_Z k < inject_Z (Qfloor x + 1))%Q as Hd by lra.
    rewrite <- Zlt_Qlt in Hc, Hd. lia. }
  unfold round_half_even. rewrite Ef.
  destruct (Qcompare_spec (x - inject_Z k) (1 # 2)) as [C|C|C].
  - now rewrite Hev.
  - reflexivity.
  - exfalso. lra.
Qed.

Lemma floor_log2_spec (x : Q) :
  (0 < x)%Q ->
  (pow2 (floor_log2 x) <= x)%Q /\ (x < pow2 (floor_log2 x + 1))%Q.
Proof.
  intros Hx. destruct x as [n d].
  assert (0 < n) as Hn by (unfold Qlt in Hx; cbn in Hx; lia).
  unfold floor_log2. cbn [Qnum Qden].
  set (a := Z.log2 n). set (b := Z.log2 (Z.pos d)).
  destruct (Z.log2_spec n Hn) as [Ha1 Ha2]. fold a in Ha1, Ha2.
  destruct (Z.log2_spec (Z.pos d) (Pos2Z.is_pos d)) as [Hb1 Hb2].
  fold b in Hb1, Hb2. unfold Z.succ in Ha2, Hb2.
  assert (0 <= a) as Ha0 by apply Z.log2_nonneg.
  assert (0 <= b) as Hb0 by apply Z.log2_nonneg.
  assert (n # d == inject_Z n / inject_Z (Z.pos d))%Q as Eq
    by (rewrite Qmake_Qdiv; reflexivity).
  assert (0 < inject_Z (Z.pos d))%Q as Hd by reflexivity.
  assert (pow2 a <= inject_Z n)%Q as Qa1
    by (rewrite pow2_int by lia; now rewrite <- Zle_Qle).
  assert (inject_Z n < pow2 (a + 1))%Q as Qa2
    by (rewrite pow2_int by lia; now rewrite <- Zlt_Qlt).
  assert (pow2 b <= inject_Z (Z.pos d))%Q as Qb1
    by (rewrite pow2_int by lia; now rewrite <- Zle_Qle).
  assert (inject_Z (Z.pos d) < pow2 (b + 1))%Q as Qb2
    by (rewrite pow2_int by lia; now rewrite <- Zlt_Qlt).
  assert (pow2 (a - b - 1) <= n # d)%Q as Hlow.
  { rewrite Eq. apply Qle_shift_div_l; [exact Hd|].
    pose proof (pow2_pos (a - b - 1)) as Hp.
    assert (pow2 (a - b - 1) * pow2 (b + 1) == pow2 a)%Q as E
      by (rewrite <- pow2_add; replace (a - b - 1 + (b + 1)) with a by lia;
          reflexivity).
    assert (pow2 (a - b - 1) * inject_Z (Z.pos d)
            <= pow2 (a - b - 1) * pow2 (b + 1))%Q as H1
      by (apply Qmult_le_l; [exact Hp | lra]).
    lra. }
  assert (n # d < pow2 (a - b + 1))%Q as Hup.
  { rewrite Eq. apply Qlt_shift_div_r; [exact Hd|].
    pose proof (pow2_pos (a - b + 1)) as Hp.
    assert (pow2 (a - b + 1) * pow2 b == pow2 (a + 1))%Q as E
      by (rewrite <- pow2_add; replace (a - b + 1 + b) with (a + 1) by lia;
          reflexivity).
    assert (pow2 (a - b + 1) * pow2 b
            <= pow2 (a - b + 1) * inject_Z (Z.pos d))%Q as H1
      by (apply Qmult_le_l; [exact Hp | lra]).
    lra. }
  destruct (Qle_bool (pow2 (a - b)) (n # d)) eqn:C.
  - apply Qle_bool_iff in C. split; [exact C | exact Hup].
  - split; [exact Hlow|].
    replace (a - b - 1 + 1) with (a - b) by lia.
    apply Qnot_le_lt. intros Hle. apply Qle_bool_iff in Hle. congruence.
Qed.

Lemma floor_log2_unique (x : Q) (e : Z) :
  (pow2 e <= x)%Q -> (x < pow2 (e + 1))%Q -> floor_log2 x = e.
Proof.
  intros H1 H2.
  assert (0 < x)%Q as Hx by (pose proof (pow2_pos e); lra).
  destruct (floor_log2_spec x Hx) as [H3 H4].
  destruct (Z.lt_trichotomy (floor_log2 x) e) as [C|[C|C]]; [|exact C|].
  - exfalso. pose proof (pow2_le (floor_log2 x + 1) e ltac:(lia)). lra.
  - exfalso. pose proof (pow2_le (e + 1) (floor_log2 x) ltac:(lia)). lra.
Qed.

Lemma floor_log2_mono (x y : Q) :
  (0 < x)%Q -> (x <= y)%Q -> floor_log2 x <= floor_log2 y.
Proof.
  intros Hx Hxy.
  destruct (floor_log2_spec x Hx) as [H1 _].
  destruct (floor_log2_spec y ltac:(lra)) as [_ H2].
  destruct (Z_le_gt_dec (floor_log2 x) (floor_log2 y)) as [C|C]; [exact C|].
  exfalso. pose proof (pow2_le (floor_log2 y + 1) (floor_log2 x) ltac:(lia)).
  lra.
Qed.

(** The value of [round_pos]: an integer multiple of the quantum. *)
Lemma round_pos_compat (prec emin : Z) (x y : Q) :
  (0 < x)%Q -> (x == y)%Q ->
  (round_pos prec emin x == round_pos prec emin y)%Q.
Proof.
  intros Hx E. unfold round_pos.
  assert (floor_log2 y = floor_log2 x) as ->.
  { destruct (floor_log2_spec x Hx) as [H1 H2].
    apply floor_log2_unique; lra. }
  rewrite (round_half_even_compat (y / _) (x / pow2 (Z.max (floor_log2 x - (prec - 1)) emin))).
  - reflexivity.
  - apply Qmult_comp; [symmetry; exact E | reflexivity].
Qed.

Lemma round_pos_nonneg (prec emin : Z) (x : Q) :
  (0 < x)%Q -> (0 <= round_pos prec emin x)%Q.
Proof.
  intros Hx. unfold round_pos.
  set (q := Z.max _ emin). pose proof (pow2_pos q) as Hq.
  apply Qmult_le_0_compat; [|lra].
  assert (0 <= x / pow2 q)%Q as H.
  { apply Qle_shift_div_l; [exact Hq | lra]. }
  pose proof (round_half_even_mono 0 _ H) as Hm.
  change 0%Q with (inject_Z 0) in Hm at 1.
  rewrite round_half_even_int in Hm.
  change 0%Q with (inject_Z 0). now rewrite <- Zle_Qle.
Qed.

Lemma round_pos_mono (prec emin : Z) (x y : Q) :
  1 <= prec -> (0 < x)%Q -> (x <= y)%Q ->
  (round_pos prec emin x <= round_pos prec emin y)%Q.
Proof.
  intros Hp Hx Hxy.
  assert (0 < y)%Q as Hy by lra.
  pose proof (floor_log2_mono x y Hx Hxy) as He.
  destruct (floor_log2_spec x Hx) as [Hx1 Hx2].
  destruct (floor_log2_spec y Hy) as [Hy1 Hy2].
  unfold round_pos.
  set (ex := floor_log2 x) in *. set (ey := floor_log2 y) in *.
  set (qx := Z.max (ex - (prec - 1)) emin).
  set (qy := Z.max (ey - (prec - 1)) emin).
  pose proof (pow2_pos qx) as Hqx. pose proof (pow2_pos qy) as Hqy.
  destruct (Z.eq_dec qx qy) as [E|NE].
  - rewrite <- E. apply Qmult_le_compat_r; [|lra].
    rewrite <- Zle_Qle. apply round_half_even_mono.
    unfold Qdiv. apply Qmult_le_compat_r; [exact Hxy|].
    apply Qlt_le_weak, Qinv_lt_0_compat, Hqx.
  - assert (qx < qy) as Hq by lia.
    assert (qy = ey - (prec - 1)) as Eqy by lia.
    assert (ex + 1 <= ey) as Hex by lia.
    (* both values are compared with [2 ^ ey] *)
    apply Qle_trans with (pow2 ey).
    + assert (x / pow2 qx <= inject_Z (2 ^ (ey - qx)))%Q as H1.
      { rewrite <- pow2_int by lia.
        apply Qle_shift_div_r; [exact Hqx|].
        rewrite <- pow2_add. replace (ey - qx + qx) with ey by lia.
        pose proof (pow2_le (ex + 1) ey Hex). lra. }
      apply round_half_even_mono in H1. rewrite round_half_even_int in H1.
      rewrite Zle_Qle in H1. rewrite <- pow2_int in H1 by lia.
      assert (pow2 ey == pow2 (ey - qx) * pow2 qx)%Q as ->
        by (rewrite <- pow2_add; replace (ey - qx + qx) with ey by lia;
            reflexivity).
      apply Qmult_le_compat_r; [exact H1 | lra].
    + assert (inject_Z (2 ^ (ey - qy)) <= y / pow2 qy)%Q as H1.
      { rewrite <- pow2_int by lia.
        apply Qle_shift_div_l; [exact Hqy|].
        rewrite <- pow2_add. replace (ey - qy + qy) with ey by lia.
        exact Hy1. }
      apply round_half_even_mono in H1. rewrite round_half_even_int in H1.
      rewrite Zle_Qle in H1. rewrite <- pow2_int in H1 by lia.
      assert (pow2 ey == pow2 (ey - qy) * pow2 qy)%Q as ->
        by (rewrite <- pow2_add; replace (ey - qy + qy) with ey by lia;
            reflexivity).
      apply Qmult_le_compat_r; [exact H1 | lra].
Qed.

Lemma round_float_compat (prec emin : Z) (x y : Q) :
  (x == y)%Q -> round_float prec emin x = round_float prec emin y.
Proof.
  intros E. unfold round_float. now rewrite (Qred_complete x y E).
Qed.

Lemma round_float_cases (prec emin : Z) (x : Q) :
  ((x == 0)%Q /\ round_float prec emin x = 0%Q) \/
  ((0 < x)%Q /\ (round_float prec emin x == round_pos prec emin x)%Q) \/
  ((x < 0)%Q /\ (round_float prec emin x == - round_pos prec emin (- x))%Q).
Proof.
  unfold round_float. pose proof (Qred_correct x) as E.
  destruct (Qred x) as [n d] eqn:Ex. cbn [Qnum]. destruct n as [|p|p].
  - left. split; [|reflexivity]. rewrite <- E. reflexivity.
  - right. left.
    assert (0 < x)%Q as Hx by (rewrite <- E; reflexivity).
    split; [exact Hx|]. rewrite Qred_correct.
    apply round_pos_compat; [rewrite E; exact Hx | exact E].
  - right. right.
    assert (x < 0)%Q as Hx by (rewrite <- E; reflexivity).
    split; [exact Hx|]. rewrite Qred_correct.
    apply Qopp_comp.
    apply round_pos_compat; [rewrite E; lra | now rewrite E].
Qed.

Lemma round_float_nonneg (prec emin : Z) (x : Q) :
  (0 <= x)%Q -> (0 <= round_float prec emin x)%Q.
Proof.
  intros Hx.
  destruct (round_float_cases prec emin x) as [[_ ->]|[[H ->]|[H _]]].
  - lra.
  - now apply round_pos_nonneg.
  - lra.
Qed.

Lemma round_float_nonpos (prec emin : Z) (x : Q) :
  (x <= 0)%Q -> (round_float prec emin x <= 0)%Q.
Proof.
  intros Hx.
  destruct (round_float_cases prec emin x) as [[_ ->]|[[H _]|[H ->]]].
  - lra.
  - lra.
  - pose proof (round_pos_nonneg prec emin (- x) ltac:(lra)). lra.
Qed.

Lemma round_float_opp (prec emin : Z) (x : Q) :
  (round_float prec emin (- x) == - round_float prec emin x)%Q.
Proof.
  destruct (round_float_cases prec emin x) as [[E ->]|[[H ->]|[H ->]]].
  - rewrite (round_float_compat prec emin (- x) 0) by (rewrite E; reflexivity).
    reflexivity.
  - destruct (round_float_cases prec emin (- x)) as [[E _]|[[H' _]|[_ ->]]];
      [lra | lra |].
    apply Qopp_comp. apply round_pos_compat; [lra | ring].
  - destruct (round_float_cases prec emin (- x)) as [[E _]|[[_ ->]|[H' _]]];
      [lra | | lra].
    ring.
Qed.

Lemma round_float_mono (prec emin : Z) (x y : Q) :
  1 <= prec -> (x <= y)%Q ->
  (round_float prec emin x <= round_float prec emin y)%Q.
Proof.
  intros Hp Hxy.
  destruct (Qlt_le_dec 0 x) as [Hx|Hx].
  - destruct (round_float_cases prec emin x) as [[E _]|[[_ ->]|[H _]]];
      [lra | | lra].
    destruct (round_float_cases prec emin y) as [[E _]|[[_ ->]|[H _]]];
      [lra | | lra].
    now apply round_pos_mono.
  - destruct (Qlt_le_dec 0 y) as [Hy|Hy].
    + apply Qle_trans with 0%Q.
      * now apply round_float_nonpos.
      * apply round_float_nonneg. lra.
    + destruct (Qeq_dec y 0) as [Ey|Ny].
      * rewrite (round_float_compat prec emin y 0 Ey).
        now apply round_float_nonpos.
      * assert (y < 0)%Q as Hy' by (destruct (Qlt_le_dec y 0); [assumption|];
                                    exfalso; apply Ny; lra).
        destruct (round_float_cases prec emin x) as [[E _]|[[H _]|[_ ->]]];
          [lra | lra |].
        destruct (round_float_cases prec emin y) as [[E _]|[[H _]|[_ ->]]];
          [lra | lra |].
        apply Qopp_le_compat. apply round_pos_mono; [exact Hp | lra | lra].
Qed.

Lemma round_pos_pow2 (prec emin k : Z) :
  1 <= prec -> emin <= k ->
  (round_pos prec emin (pow2 k) == pow2 k)%Q.
Proof.
  intros Hp Hk. unfold round_pos.
  rewrite (floor_log2_unique (pow2 k) k);
    [|apply Qle_refl | apply pow2_lt; lia].
  set (q := Z.max (k - (prec - 1)) emin).
  assert (pow2 k / pow2 q == inject_Z (2 ^ (k - q)))%Q as E.
  { rewrite <- pow2_int by lia.
    rewrite <- (Qmult_1_l (pow2 k)) at 1. rewrite pow2_div. ring. }
  rewrite (round_half_even_compat _ _ E), round_half_even_int.
  rewrite <- pow2_int by lia. rewrite <- pow2_add.
  replace (k - q + q) with k by lia. reflexivity.
Qed.

Lemma round_float_pow2 (prec emin k : Z) :
  1 <= prec -> emin <= k ->
  (round_float prec emin (pow2 k) == pow2 k)%Q.
Proof.
  intros Hp Hk. pose proof (pow2_pos k) as H.
  destruct (round_float_cases prec emin (pow2 k)) as [[E _]|[[_ ->]|[H' _]]];
    [lra | | lra].
  now apply round_pos_pow2.
Qed.

(** A power of two below the smallest positive number rounds to zero. *)
Lemma round_float_pow2_le (prec emin k : Z) :
  1 <= prec ->
  (round_float prec emin (pow2 k) <= pow2 k)%Q.
Proof.
  intros Hp. destruct (Z_le_gt_dec emin k) as [Hk|Hk].
  - rewrite round_float_pow2 by assumption. apply Qle_refl.
  - pose proof (pow2_pos k) as H.
    destruct (round_float_cases prec emin (pow2 k)) as [[E _]|[[_ ->]|[H' _]]];
      [lra | | lra].
    unfold round_pos.
    rewrite (floor_log2_unique (pow2 k) k);
      [|apply Qle_refl | apply pow2_lt; lia].
    replace (Z.max (k - (prec - 1)) emin) with emin by lia.
    assert (pow2 k / pow2 emin == pow2 (k - emin))%Q as E
      by (rewrite <- (Qmult_1_l (pow2 k)) at 1; rewrite pow2_div; ring).
    rewrite (round_half_even_compat _ _ E).
    rewrite (round_half_even_down 0).
    + change (inject_Z 0) with 0%Q. lra.
    + change (inject_Z 0) with 0%Q. apply Qlt_le_weak, pow2_pos.
    + change (inject_Z 0 + (1 # 2))%Q with (pow2 (-1)).
      apply pow2_le. lia.
    + reflexivity.
Qed.

(** One plus a power of two is a floating-point number, or rounds to one. *)
Lemma round_float_one_plus (prec emin m : Z) :
  2 <= prec -> emin <= 1 - prec -> 1 <= m ->
  (round_float prec emin (1 + pow2 (- m)) <= 1 + pow2 (- m))%Q.
Proof.
  intros Hp He Hm.
  pose proof (pow2_pos (- m)) as Hpos.
  pose proof (pow2_le (- m) (-1) ltac:(lia)) as Hhalf.
  change (pow2 (-1)) with (1 # 2)%Q in Hhalf.
  destruct (round_float_cases prec emin (1 + pow2 (- m)))
    as [[E _]|[[_ ->]|[H' _]]]; [lra | | lra].
  unfold round_pos.
  rewrite (floor_log2_unique (1 + pow2 (- m)) 0);
    [|change (pow2 0) with 1%Q; lra | change (pow2 (0 + 1)) with 2%Q; lra].
  replace (Z.max (0 - (prec - 1)) emin) with (1 - prec) by lia.
  assert ((1 + pow2 (- m)) / pow2 (1 - prec)
          == inject_Z (2 ^ (prec - 1)) + pow2 (prec - 1 - m))%Q as E.
  { rewrite <- pow2_int by lia.
    assert (pow2 (prec - 1) == / pow2 (1 - prec))%Q as E1.
    { unfold pow2. rewrite <- Qpower_opp. now replace (- (1 - prec)) with (prec - 1) by lia. }
    assert (pow2 (prec - 1 - m) == pow2 (- m) * / pow2 (1 - prec))%Q as E2.
    { rewrite <- E1, <- pow2_add. now replace (- m + (prec - 1)) with (prec - 1 - m) by lia. }
    rewrite E1, E2. unfold Qdiv. ring. }
  rewrite (round_half_even_compat _ _ E).
  destruct (Z_le_gt_dec m (prec - 1)) as [Hsmall|Hbig].
  - assert (inject_Z (2 ^ (prec - 1)) + pow2 (prec - 1 - m)
            == inject_Z (2 ^ (prec - 1) + 2 ^ (prec - 1 - m)))%Q as E'
      by (rewrite inject_Z_plus, (pow2_int (prec - 1 - m)) by lia; reflexivity).
    rewrite (round_half_even_compat _ _ E'), round_half_even_int.
    rewrite <- E', <- E. apply Qle_lteq. right. field.
    pose proof (pow2_pos (1 - prec)). lra.
  - rewrite (round_half_even_down (2 ^ (prec - 1))).
    + rewrite <- pow2_int, <- pow2_add by lia.
      replace (prec - 1 + (1 - prec)) with 0 by lia.
      change (pow2 0) with 1%Q. lra.
    + pose proof (pow2_pos (prec - 1 - m)). lra.
    + pose proof (pow2_le (prec - 1 - m) (-1) ltac:(lia)) as H.
      change (pow2 (-1)) with (1 # 2)%Q in H. lra.
    + rewrite Z.even_pow by lia. reflexivity.
Qed.

Lemma f32_mono (x y : Q) : (x <= y)%Q -> (f32 x <= f32 y)%Q.
Proof. apply round_float_mono. lia. Qed.

Lemma f64_mono (x y : Q) : (x <= y)%Q -> (f64 x <= f64 y)%Q.
Proof. apply round_float_mono. lia. Qed.

Lemma f32_compat (x y : Q) : (x == y)%Q -> f32 x = f32 y.
Proof. apply round_float_compat. Qed.

Lemma f64_compat (x y : Q) : (x == y)%Q -> f64 x = f64 y.
Proof. apply round_float_compat. Qed.

(** A number of [[0, 1]] stays there when it is rounded. *)
Lemma f32_unit (x : Q) : (0 <= x <= 1)%Q -> (0 <= f32 x <= 1)%Q.
Proof.
  intros [H0 H1]. split.
  - now apply round_float_nonneg.
  - apply Qle_trans with (f32 1); [now apply f32_mono|].
    vm_compute. discriminate.
Qed.

Lemma f64_unit (x : Q) : (0 <= x <= 1)%Q -> (0 <= f64 x <= 1)%Q.
Proof.
  intros [H0 H1]. split.
  - now apply round_float_nonneg.
  - apply Qle_trans with (f64 1); [now apply f64_mono|].
    vm_compute. discriminate.
Qed.

(** ** Comparisons, minima and maxima *)

Lemma Qltb_lt (x y : Q) : Qltb x y = true <-> (x < y)%Q.
Proof. unfold Qltb, Qlt. apply Z.ltb_lt. Qed.

Lemma Qltb_ge (x y : Q) : Qltb x y = false <-> (y <= x)%Q.
Proof. unfold Qltb, Qle. apply Z.ltb_ge. Qed.

Lemma fold_min_In (l : list Z) (x : Z) : In (fold_left Z.min l x) (x :: l).
Proof.
  revert x. induction l as [|y l IH]; intros x; simpl.
  - now left.
  - destruct (IH (Z.min x y)) as [H|H].
    + rewrite <- H.
      destruct (Z.min_spec x y) as [[_ E]|[_ E]]; rewrite E; auto.
    + auto.
Qed.

Lemma fold_max_In (l : list Z) (x : Z) : In (fold_left Z.max l x) (x :: l).
Proof.
  revert x. induction l as [|y l IH]; intros x; simpl.
  - now left.
  - destruct (IH (Z.max x y)) as [H|H].
    + rewrite <- H.
      destruct (Z.max_spec x y) as [[_ E]|[_ E]]; rewrite E; auto.
    + auto.
Qed.

Lemma fold_max_ge (l : list Z) (x y : Z) :
  In y (x :: l) -> y <= fold_left Z.max l x.
Proof.
  revert x y. induction l as [|z l IH]; intros x y H; simpl.
  - destruct H as [->|[]]. lia.
  - pose proof (IH (Z.max x z) (Z.max x z) (or_introl eq_refl)) as H3.
    destruct H as [->|[->|H]]; [lia | lia | apply IH; now right].
Qed.

Lemma np_max_eq (l : list Z) (k : Z) :
  In k l -> (forall x, In x l -> x <= k) -> np_max l = Ok k.
Proof.
  intros Hin Hle. destruct l as [|x l]; [contradiction|].
  unfold np_max. f_equal. apply Z.le_antisymm.
  - apply Hle, fold_max_In.
  - now apply fold_max_ge.
Qed.

Lemma np_min_nonneg (l : list Z) :
  label_image l -> exists m, np_min l = Ok m /\ 0 <= m.
Proof.
  intros [Hne Hpos]. destruct l as [|x l]; [congruence|].
  eexists; split; [reflexivity|].
  rewrite Forall_forall in Hpos. apply Hpos, fold_min_In.
Qed.

Lemma fold_Qmax_In (l : list Q) (x : Q) : In (fold_left Qmax' l x) (x :: l).
Proof.
  revert x. induction l as [|y l IH]; intros x; simpl.
  - now left.
  - destruct (IH (Qmax' x y)) as [H|H]; auto.
    rewrite <- H. unfold Qmax'. destruct (Qltb x y); auto.
Qed.

Lemma Qmax'_ge (x y : Q) : (x <= Qmax' x y /\ y <= Qmax' x y)%Q.
Proof.
  unfold Qmax'. destruct (Qltb x y) eqn:E.
  - apply Qltb_lt in E. split; lra.
  - apply Qltb_ge in E. split; lra.
Qed.

Lemma fold_Qmax_ge (l : list Q) (x y : Q) :
  In y (x :: l) -> (y <= fold_left Qmax' l x)%Q.
Proof.
  revert x y. induction l as [|z l IH]; intros x y H; simpl.
  - destruct H as [->|[]]. lra.
  - destruct (Qmax'_ge x z) as [H1 H2].
    pose proof (IH (Qmax' x z) (Qmax' x z) (or_introl eq_refl)) as H3.
    destruct H as [->|[->|H]]; [lra | lra | apply IH; now right].
Qed.

(** ** [np.unique] *)

Section UniqueFacts.
Context {A : Type} (cmp : A -> A -> comparison).
Hypothesis cmp_eq : forall x y, cmp x y = Eq -> x = y.

Lemma insert_unique_In (x : A) (l : list A) (z : A) :
  In z (insert_unique cmp x l) <-> z = x \/ In z l.
Proof.
  induction l as [|y l IH]; simpl.
  - intuition.
  - destruct (cmp x y) eqn:E; simpl.
    + apply cmp_eq in E. subst. intuition.
    + intuition.
    + rewrite IH. intuition.
Qed.

Lemma unique_by_In (l : list A) (z : A) :
  In z (unique_by cmp l) <-> In z l.
Proof.
  induction l as [|y l IH]; simpl.
  - reflexivity.
  - rewrite insert_unique_In, IH. intuition.
Qed.
End UniqueFacts.

Lemma col_compare_eq (a b : Z * Z) : col_compare a b = Eq -> a = b.
Proof.
  destruct a as [a1 a2], b as [b1 b2]. unfold col_compare; simpl.
  destruct (Z.compare_spec a1 b1) as [E|E|E]; try discriminate.
  intros H. apply Z.compare_eq in H. congruence.
Qed.

Lemma np_unique_In (l : list Z) (z : Z) : In z (np_unique l) <-> In z l.
Proof. apply unique_by_In. exact Z.compare_eq. Qed.

Lemma np_unique_cols_In (l : list (Z * Z)) (z : Z * Z) :
  In z (np_unique_cols l) <-> In z l.
Proof. apply unique_by_In. exact col_compare_eq. Qed.

Lemma insert_unique_sorted (x : Z) (l : list Z) :
  StronglySorted Z.lt l -> StronglySorted Z.lt (insert_unique Z.compare x l).
Proof.
  induction 1 as [|y l Hs IH Hall]; simpl.
  - repeat constructor.
  - destruct (Z.compare_spec x y) as [->|Hlt|Hgt].
    + now constructor.
    + constructor; [now constructor|].
      constructor; [exact Hlt|].
      eapply Forall_impl; [|exact Hall]. intros; simpl in *; lia.
    + constructor; [exact IH|].
      apply Forall_forall. intros z Hz.
      apply (insert_unique_In _ Z.compare_eq) in Hz.
      destruct Hz as [->|Hz]; [exact Hgt|].
      rewrite Forall_forall in Hall. now apply Hall.
Qed.

Lemma np_unique_sorted (l : list Z) : StronglySorted Z.lt (np_unique l).
Proof.
  induction l as [|x l IH]; simpl.
  - constructor.
  - now apply insert_unique_sorted.
Qed.

Lemma sorted_lt_NoDup (l : list Z) : StronglySorted Z.lt l -> NoDup l.
Proof.
  induction 1 as [|y l Hs IH Hall]; constructor; auto.
  intros Hin. rewrite Forall_forall in Hall. specialize (Hall _ Hin). lia.
Qed.

Lemma np_unique_NoDup (l : list Z) : NoDup (np_unique l).
Proof. apply sorted_lt_NoDup, np_unique_sorted. Qed.

(** ** [relabel_sequential] *)

Lemma arange_length (a b : Z) : length (arange a b) = Z.to_nat (b - a).
Proof. unfold arange. now rewrite length_map, length_seq. Qed.

Lemma arange_nth (a b : Z) (i : nat) :
  (i < Z.to_nat (b - a))%nat -> nth i (arange a b) 0 = a + Z.of_nat i.
Proof.
  intros H. unfold arange.
  rewrite (nth_indep _ 0 (a + Z.of_nat 0)) by now rewrite length_map, length_seq.
  rewrite (map_nth (fun i => a + Z.of_nat i)), seq_nth by exact H.
  reflexivity.
Qed.

Lemma arange_cons (n : Z) : 1 <= n -> 0 :: arange 1 n = arange 0 n.
Proof.
  intros H. unfold arange.
  replace (Z.to_nat (n - 0)) with (S (Z.to_nat (n - 1))) by lia.
  cbn [seq map]. f_equal.
  rewrite <- seq_shift, map_map. apply map_ext. intros i. lia.
Qed.

Lemma out_vals_arange (l : list Z) :
  l <> [] ->
  let in_vals := np_unique l in
  let n := Z.of_nat (length in_vals) in
  (if hd 1 in_vals =? 0 then 0 :: arange 1 n else arange 1 (1 + n))
  = arange (relabel_offset l) (relabel_offset l + n).
Proof.
  intros Hne in_vals n. unfold relabel_offset. fold in_vals.
  assert (1 <= n) as Hn.
  { destruct l as [|x l]; [congruence|].
    assert (In x in_vals) as Hx by (apply np_unique_In; now left).
    subst n. destruct in_vals; [contradiction|]. simpl length. lia. }
  destruct (hd 1 in_vals =? 0).
  - now rewrite arange_cons.
  - reflexivity.
Qed.

Lemma lookup_combine_nth (ks vs : list Z) (i : nat) (d : Z) :
  NoDup ks -> length ks = length vs -> (i < length ks)%nat ->
  lookup_default (nth i ks 0) (combine ks vs) d = nth i vs 0.
Proof.
  intros Hnd. revert vs i.
  induction Hnd as [|k ks Hk Hnd IH]; intros vs i Hlen Hi; simpl in *.
  - lia.
  - destruct vs as [|v vs]; [discriminate|]. simpl.
    destruct i as [|i].
    + now rewrite Z.eqb_refl.
    + destruct (Z.eqb_spec (nth i ks 0) k) as [E|E].
      * exfalso. apply Hk. rewrite <- E. apply nth_In. lia.
      * apply IH; simpl in *; lia.
Qed.

Lemma forward_map_nth (l : list Z) (i : nat) :
  l <> [] -> (i < length (np_unique l))%nat ->
  forward_map l (nth i (np_unique l) 0) = relabel_offset l + Z.of_nat i.
Proof.
  intros Hne Hi. unfold forward_map.
  rewrite (out_vals_arange l Hne).
  rewrite lookup_combine_nth.
  - apply arange_nth. lia.
  - apply np_unique_NoDup.
  - rewrite arange_length. lia.
  - exact Hi.
Qed.

Lemma relabel_offset_zero (l : list Z) :
  label_image l -> (relabel_offset l = 0 <-> In 0 l).
Proof.
  intros [Hne Hpos]. unfold relabel_offset.
  pose proof (np_unique_sorted l) as Hs.
  pose proof (np_unique_In l) as Hin.
  rewrite Forall_forall in Hpos.
  destruct (np_unique l) as [|h t]; simpl.
  - split; [discriminate|]. intros H0. now apply Hin in H0.
  - destruct (Z.eqb_spec h 0) as [->|Hh]; split; intros H; try easy.
    + apply Hin. now left.
    + exfalso. apply Hin in H. destruct H as [H|H]; [congruence|].
      inversion Hs as [|? ? _ Hall]; subst.
      rewrite Forall_forall in Hall. specialize (Hall _ H).
      assert (0 <= h) by (apply Hpos, Hin; now left). lia.
Qed.

Lemma relabel_offset_01 (l : list Z) : relabel_offset l = 0 \/ relabel_offset l = 1.
Proof. unfold relabel_offset. destruct (_ =? _); auto. Qed.

Lemma instances_In (l : list Z) (x : Z) :
  In x (instances l) <-> In x l /\ x <> 0.
Proof.
  unfold instances. rewrite nodup_In, filter_In.
  destruct (Z.eqb_spec x 0); simpl; intuition congruence.
Qed.

Lemma instances_NoDup (l : list Z) : NoDup (instances l).
Proof. apply NoDup_nodup. Qed.

(** The number of distinct values is the number of instances, plus one when
    the background occurs. *)
Lemma np_unique_length (l : list Z) :
  label_image l ->
  Z.of_nat (length (np_unique l))
  = Z.of_nat (num_instances l) + 1 - relabel_offset l.
Proof.
  intros Hl. unfold num_instances.
  destruct (in_dec Z.eq_dec 0 l) as [H0|H0].
  - assert (relabel_offset l = 0) as -> by now apply relabel_offset_zero.
    assert (Permutation (np_unique l) (0 :: instances l)) as HP.
    { apply NoDup_Permutation.
      - apply np_unique_NoDup.
      - constructor; [|apply instances_NoDup].
        rewrite instances_In. tauto.
      - intros x. rewrite np_unique_In. simpl. rewrite instances_In.
        destruct (Z.eq_dec x 0) as [->|Hx]; [tauto|].
        split; [intros; right; tauto|]. intros [E|E]; [congruence|tauto]. }
    rewrite (Permutation_length HP). simpl length. lia.
  - assert (relabel_offset l = 1) as ->.
    { destruct (relabel_offset_01 l) as [E|E]; [|exact E].
      apply relabel_offset_zero in E; tauto. }
    assert (Permutation (np_unique l) (instances l)) as HP.
    { apply NoDup_Permutation.
      - apply np_unique_NoDup.
      - apply instances_NoDup.
      - intros x. rewrite np_unique_In, instances_In.
        split; [|tauto]. intros Hx. split; [exact Hx|]. congruence. }
    rewrite (Permutation_length HP). lia.
Qed.

Lemma In_np_unique_nth (l : list Z) (x : Z) :
  In x l -> exists i, (i < length (np_unique l))%nat /\ nth i (np_unique l) 0 = x.
Proof. intros H. apply In_nth. now apply np_unique_In. Qed.

Lemma forward_map_props (l : list Z) :
  label_image l -> relabel_props l (forward_map l).
Proof.
  intros Hl. pose proof Hl as [Hne Hpos].
  pose proof (np_unique_length l Hl) as Hlen.
  pose proof (relabel_offset_01 l) as Hoff.
  pose proof (relabel_offset_zero l Hl) as Hz.
  constructor.
  - intros x y Hx Hy E.
    destruct (In_np_unique_nth l x Hx) as (i & Hi & <-).
    destruct (In_np_unique_nth l y Hy) as (j & Hj & <-).
    rewrite !forward_map_nth in E by assumption.
    f_equal. lia.
  - intros x Hx.
    destruct (In_np_unique_nth l x Hx) as (i & Hi & <-).
    rewrite forward_map_nth by assumption.
    split.
    + intros E. assert (relabel_offset l = 0 /\ i = 0%nat) as [E0 ->] by lia.
      apply Hz in E0. destruct (In_np_unique_nth l 0 E0) as (j & Hj & Ej).
      assert (forward_map l (nth j (np_unique l) 0) = forward_map l 0) as E1
        by now rewrite Ej.
      rewrite forward_map_nth in E1 by assumption.
      assert (forward_map l 0 = 0) as E2.
      { unfold forward_map. unfold relabel_offset in *.
        destruct (np_unique l) as [|h t]; [reflexivity|]. simpl in *.
        destruct (Z.eqb_spec h 0) as [->|]; [|lia]. reflexivity. }
      assert (j = 0%nat) by lia. subst j. exact Ej.
    + intros E. rewrite E in *.
      assert (In 0 l) as H0 by (rewrite <- E; apply np_unique_In, nth_In; lia).
      apply Hz in H0.
      assert (i = 0%nat); [|lia].
      pose proof (np_unique_NoDup l) as Hnd.
      rewrite (NoDup_nth (np_unique l) 0) in Hnd.
      apply Hnd; [exact Hi|lia|].
      rewrite E. unfold relabel_offset in H0.
      destruct (np_unique l) as [|h t]; [simpl in *; lia|]. simpl in *.
      destruct (Z.eqb_spec h 0); [congruence|lia].
  - intros x Hx.
    destruct (In_np_unique_nth l x Hx) as (i & Hi & <-).
    rewrite forward_map_nth by assumption. lia.
  - intros j Hj.
    exists (nth (Z.to_nat (j - relabel_offset l)) (np_unique l) 0).
    assert (Z.to_nat (j - relabel_offset l) < length (np_unique l))%nat by lia.
    split.
    + apply np_unique_In, nth_In. assumption.
    + rewrite forward_map_nth by assumption. lia.
Qed.

Lemma relabel_sequential_ok (l : list Z) :
  label_image l -> relabel_sequential l = Ok (map (forward_map l) l).
Proof.
  intros Hl. unfold relabel_sequential.
  destruct (np_min_nonneg l Hl) as (m & -> & Hm). simpl.
  destruct (Z.ltb_spec m 0); [lia|]. reflexivity.
Qed.

Lemma relabel_props_max (l : list Z) (f : Z -> Z) :
  l <> [] -> relabel_props l f ->
  np_max (map f l) = Ok (Z.of_nat (num_instances l)).
Proof.
  intros Hne [_ _ Hrange Hsurj].
  apply np_max_eq.
  - destruct (num_instances l) as [|k] eqn:Ek.
    + destruct l as [|x l]; [congruence|].
      specialize (Hrange x (or_introl eq_refl)).
      simpl. left. lia.
    + destruct (Hsurj (Z.of_nat (S k))) as (x & Hx & E); [lia|].
      rewrite <- E. now apply in_map.
  - intros y Hy. apply in_map_iff in Hy. destruct Hy as (x & <- & Hx).
    now apply Hrange.
Qed.

(** ** Pixel counts and IoU *)

Lemma count_occ_map_inj {A B : Type}
    (dA : forall x y : A, {x = y} + {x <> y})
    (dB : forall x y : B, {x = y} + {x <> y})
    (h : A -> B) (L : list A) (z : A) :
  (forall x, In x L -> h x = h z -> x = z) ->
  count_occ dB (map h L) (h z) = count_occ dA L z.
Proof.
  induction L as [|x L IH]; intros H; simpl; [reflexivity|].
  assert (count_occ dB (map h L) (h z) = count_occ dA L z) as IH'
    by (apply IH; intros y Hy; apply H; now right).
  destruct (dB (h x) (h z)) as [E|E], (dA x z) as [E'|E'].
  - now f_equal.
  - exfalso. apply E', H; [now left | exact E].
  - exfalso. subst. congruence.
  - exact IH'.
Qed.

Lemma combine_map2 {A B C D : Type} (f : A -> C) (g : B -> D)
    (l : list A) (l' : list B) :
  combine (map f l) (map g l')
  = map (fun p => (f (fst p), g (snd p))) (combine l l').
Proof.
  revert l'. induction l as [|x l IH]; intros [|y l']; simpl; f_equal; auto.
Qed.

Lemma size_of_map (f : Z -> Z) (G : list Z) (a : Z) :
  (forall x, In x G -> f x = f a -> x = a) ->
  size_of (map f G) (f a) = size_of G a.
Proof. intros H. unfold size_of. f_equal. now apply count_occ_map_inj. Qed.

Lemma overlap_map (f g : Z -> Z) (G P : list Z) (a b : Z) :
  (forall x, In x G -> f x = f a -> x = a) ->
  (forall y, In y P -> g y = g b -> y = b) ->
  overlap (map f G) (map g P) (f a) (g b) = overlap G P a b.
Proof.
  intros Hf Hg. unfold overlap. f_equal. rewrite combine_map2.
  apply (count_occ_map_inj Z_eq_dec2 Z_eq_dec2
           (fun p => (g (fst p), f (snd p))) (combine P G) (b, a)).
  intros [y x] Hin E. simpl in E. injection E as E1 E2.
  f_equal.
  - apply Hg; [|exact E1]. eapply in_combine_l; eassumption.
  - apply Hf; [|exact E2]. eapply in_combine_r; eassumption.
Qed.

Lemma iou_map (f g : Z -> Z) (G P : list Z) (a b : Z) :
  (forall x, In x G -> f x = f a -> x = a) ->
  (forall y, In y P -> g y = g b -> y = b) ->
  iou (map f G) (map g P) (f a) (g b) = iou G P a b.
Proof.
  intros Hf Hg. unfold iou.
  now rewrite overlap_map, !size_of_map.
Qed.

Lemma overlap_le_size (G P : list Z) (a b : Z) :
  0 <= overlap G P a b /\
  overlap G P a b <= size_of G a /\ overlap G P a b <= size_of P b.
Proof.
  unfold overlap, size_of. split; [lia|].
  revert G.
  induction P as [|y P IH]; intros [|x G]; cbn [combine count_occ]; try lia.
  specialize (IH G).
  destruct (Z_eq_dec2 (y, x) (b, a)) as [E|E].
  - injection E as -> ->.
    destruct (Z.eq_dec a a); [|congruence].
    destruct (Z.eq_dec b b); [|congruence]. lia.
  - destruct (Z.eq_dec x a), (Z.eq_dec y b); lia.
Qed.

Lemma Qdiv_Z_bounds (c d : Z) :
  0 <= c <= d -> (0 <= inject_Z c / inject_Z d <= 1)%Q.
Proof.
  intros H. destruct (Z.eq_dec d 0) as [->|Hd].
  - assert (c = 0) as -> by lia. split; [apply Qle_refl | discriminate].
  - assert (0 < inject_Z d)%Q as Hd' by (unfold Qlt; simpl; lia).
    assert (0 <= inject_Z c)%Q as Hc by (unfold Qle; simpl; lia).
    assert (inject_Z c <= inject_Z d)%Q as Hcd by (rewrite <- Zle_Qle; lia).
    split.
    + apply Qle_shift_div_l; [exact Hd'|]. lra.
    + apply Qle_shift_div_r; [exact Hd'|]. lra.
Qed.

Lemma iou_bounds (G P : list Z) (a b : Z) : (0 <= iou G P a b <= 1)%Q.
Proof.
  unfold iou. apply Qdiv_Z_bounds.
  pose proof (overlap_le_size G P a b). lia.
Qed.

Lemma iou_no_overlap (G P : list Z) (a b : Z) :
  ~ In (b, a) (combine P G) -> (iou G P a b == 0)%Q.
Proof.
  intros H. unfold iou, overlap.
  apply (count_occ_not_In Z_eq_dec2) in H. rewrite H. simpl.
  unfold Qdiv. now rewrite Qmult_0_l.
Qed.

(** ** The IoU as the table holds it *)

Lemma stored_iou_bounds (G P : list Z) (a b : Z) :
  (0 <= stored_iou G P a b <= 1)%Q.
Proof. apply f32_unit, f64_unit, iou_bounds. Qed.

Lemma stored_iou_map (f g : Z -> Z) (G P : list Z) (a b : Z) :
  (forall x, In x G -> f x = f a -> x = a) ->
  (forall y, In y P -> g y = g b -> y = b) ->
  stored_iou (map f G) (map g P) (f a) (g b) = stored_iou G P a b.
Proof. intros Hf Hg. unfold stored_iou. now rewrite iou_map. Qed.

Lemma stored_iou_no_overlap (G P : list Z) (a b : Z) :
  ~ In (b, a) (combine P G) -> stored_iou G P a b = 0%Q.
Proof.
  intros H. unfold stored_iou.
  now rewrite (f64_compat _ 0 (iou_no_overlap G P a b H)).
Qed.

Lemma stored_iou_one (G P : list Z) (a b : Z) :
  (iou G P a b == 1)%Q -> stored_iou G P a b = 1%Q.
Proof. intros E. unfold stored_iou. now rewrite (f64_compat _ 1 E). Qed.

(** An exact IoU of at most [q] is stored as at most [q] rounded. *)
Lemma stored_iou_le (G P : list Z) (a b : Z) (q : Q) :
  (iou G P a b <= q)%Q -> (stored_iou G P a b <= f32 (f64 q))%Q.
Proof. intros H. now apply f32_mono, f64_mono. Qed.

(** ** The count dictionaries *)

Lemma dict_of_zip_rev (keys vals : list Z) :
  dict_of_zip keys vals = rev (combine keys vals).
Proof.
  unfold dict_of_zip. rewrite <- (app_nil_r (rev _)).
  generalize (@nil (Z * Z)) as d. generalize (combine keys vals) as l.
  induction l as [|[k v] l IH]; intros d; simpl; [reflexivity|].
  rewrite IH, <- app_assoc. reflexivity.
Qed.

Lemma dict_get_function (F : Z -> Z) (d : dict) (k : Z) :
  (forall k' v, In (k', v) d -> v = F k') ->
  In k (map fst d) -> dict_get d k = Ok (F k).
Proof.
  induction d as [|[k' v] d IH]; intros Hall Hin; simpl in *; [contradiction|].
  destruct (Z.eqb_spec k k') as [->|E].
  - f_equal. apply Hall. now left.
  - apply IH.
    + intros; apply Hall; now right.
    + destruct Hin as [Hin|Hin]; [congruence|exact Hin].
Qed.

Lemma combine_map_self {A B : Type} (F : A -> B) (l : list A) :
  combine l (map F l) = map (fun x => (x, F x)) l.
Proof. induction l; simpl; congruence. Qed.

Lemma count_dict_get (l : list Z) (k : Z) :
  In k l ->
  dict_get (dict_of_zip (np_unique l) (counts_of l (np_unique l))) k
  = Ok (size_of l k).
Proof.
  intros Hk. rewrite dict_of_zip_rev. unfold counts_of.
  rewrite combine_map_self.
  apply (dict_get_function (size_of l)).
  - intros k' v Hin. apply in_rev, in_map_iff in Hin.
    destruct Hin as (x & E & _). now injection E as <- <-.
  - rewrite <- map_rev, map_map. simpl. rewrite map_id.
    apply -> in_rev. now apply np_unique_In.
Qed.

(** ** Updating the IoU table *)

Lemma list_set_length {A : Type} (i : nat) (x : A) (l : list A) :
  length (list_set i x l) = length l.
Proof.
  revert i. induction l as [|y l IH]; intros [|i]; simpl; auto.
Qed.

Lemma list_set_nth_eq {A : Type} (i : nat) (x : A) (l : list A) (d : A) :
  (i < length l)%nat -> nth i (list_set i x l) d = x.
Proof.
  revert i. induction l as [|y l IH]; intros [|i] H; simpl in *; try lia.
  - reflexivity.
  - apply IH. lia.
Qed.

Lemma list_set_nth_neq {A : Type} (i j : nat) (x : A) (l : list A) (d : A) :
  i <> j -> nth j (list_set i x l) d = nth j l d.
Proof.
  revert i j. induction l as [|y l IH]; intros [|i] [|j] H; simpl; auto.
  - congruence.
Qed.

Lemma is_matrix_row (n m : nat) (mat : matrix) (i : nat) :
  is_matrix n m mat -> (i < n)%nat -> length (nth i mat []) = m.
Proof.
  intros [Hn Hrows] Hi. rewrite Forall_forall in Hrows.
  apply Hrows, nth_In. lia.
Qed.

Lemma py_index_nonneg (i : Z) (n : nat) :
  0 <= i < Z.of_nat n -> py_index i n = Ok (Z.to_nat i).
Proof.
  intros H. unfold py_index.
  destruct (Z.leb_spec 0 i), (Z.ltb_spec i (Z.of_nat n)); simpl; try lia.
  reflexivity.
Qed.

Lemma setitem2_spec (n m : nat) (mat : matrix) (i j : Z) (x : Q) :
  is_matrix n m mat -> 0 <= i < Z.of_nat n -> 0 <= j < Z.of_nat m ->
  exists mat',
    setitem2 mat i j x = Ok mat' /\ is_matrix n m mat' /\
    forall i' j',
      entry mat' i' j'
      = if ((i' =? Z.to_nat i) && (j' =? Z.to_nat j))%nat then x
        else entry mat i' j'.
Proof.
  intros Hm Hi Hj. pose proof Hm as [Hn Hrows].
  unfold setitem2.
  rewrite py_index_nonneg by lia. simpl.
  rewrite (is_matrix_row n m) by (assumption || lia).
  rewrite py_index_nonneg by lia. simpl.
  eexists; split; [reflexivity|]. split.
  - split.
    + now rewrite list_set_length.
    + apply Forall_forall. intros row Hrow.
      apply (In_nth _ _ []) in Hrow. destruct Hrow as (r & Hr & <-).
      rewrite list_set_length in Hr.
      destruct (Nat.eq_dec (Z.to_nat i) r) as [<-|E].
      * rewrite list_set_nth_eq by lia. rewrite list_set_length.
        apply (is_matrix_row n m); [assumption|lia].
      * rewrite list_set_nth_neq by assumption.
        apply (is_matrix_row n m); [assumption|lia].
  - intros i' j'. unfold entry.
    destruct (Nat.eqb_spec i' (Z.to_nat i)) as [->|E]; simpl.
    + rewrite list_set_nth_eq by lia.
      destruct (Nat.eqb_spec j' (Z.to_nat j)) as [->|E'].
      * apply list_set_nth_eq.
        rewrite (is_matrix_row n m) by (assumption || lia). lia.
      * apply list_set_nth_neq. congruence.
    + rewrite list_set_nth_neq by congruence. reflexivity.
Qed.

Lemma fill_iou_spec (n m : nat) (Gr Pr : list Z) (gd pd : dict) :
  (forall v, In v Gr -> dict_get gd v = Ok (size_of Gr v)) ->
  (forall u, In u Pr -> dict_get pd u = Ok (size_of Pr u)) ->
  forall entries mat,
    is_matrix n m mat ->
    (forall u v c, In ((u, v), c) entries ->
       In (u, v) (combine Pr Gr) /\ c = overlap Gr Pr v u /\
       0 <= v < Z.of_nat n /\ 0 <= u < Z.of_nat m) ->
    exists mat',
      fill_iou entries gd pd mat = Ok mat' /\ is_matrix n m mat' /\
      forall i j,
        (In (Z.of_nat j, Z.of_nat i) (map fst entries) ->
           entry mat' i j = stored_iou Gr Pr (Z.of_nat i) (Z.of_nat j)) /\
        (~ In (Z.of_nat j, Z.of_nat i) (map fst entries) ->
           entry mat' i j = entry mat i j).
Proof.
  intros Hgd Hpd.
  induction entries as [|[[u v] c] rest IH]; intros mat Hm Hall.
  - exists mat. repeat split; [apply Hm | apply Hm | contradiction].
  - destruct (Hall u v c (or_introl eq_refl)) as (Hin & Hc & Hv & Hu).
    cbn [fill_iou].
    rewrite Hgd by (eapply in_combine_r; eassumption).
    rewrite Hpd by (eapply in_combine_l; eassumption).
    cbn [bind].
    destruct (setitem2_spec n m mat v u
                (f32 (f64 (inject_Z c
                           / inject_Z (size_of Gr v + size_of Pr u - c))))
                Hm Hv Hu)
      as (mat1 & -> & Hm1 & Hset).
    cbn [bind].
    destruct (IH mat1 Hm1) as (mat' & Hfill & Hm' & Hent).
    { intros; apply Hall; now right. }
    exists mat'. split; [exact Hfill|]. split; [exact Hm'|].
    intros i j. destruct (Hent i j) as [H1 H2]. cbn [map fst In].
    destruct (in_dec Z_eq_dec2 (Z.of_nat j, Z.of_nat i) (map fst rest))
      as [Hr|Hr].
    + split; [intros _; now apply H1 | tauto].
    + rewrite (H2 Hr), Hset. split.
      * intros [E|E]; [|contradiction]. injection E as -> ->.
        rewrite !Nat2Z.id, !Nat.eqb_refl. cbn [andb].
        subst c. reflexivity.
      * intros Hn.
        destruct (Nat.eqb_spec i (Z.to_nat v)) as [->|E1]; [|reflexivity].
        destruct (Nat.eqb_spec j (Z.to_nat u)) as [->|E2]; [|reflexivity].
        exfalso. apply Hn. left. rewrite !Z2Nat.id by lia. reflexivity.
Qed.

Lemma entry_np_zeros (n m i j : nat) : entry (np_zeros n m) i j = 0%Q.
Proof.
  unfold entry, np_zeros.
  destruct (Nat.lt_ge_cases i n) as [Hi|Hi].
  - rewrite nth_repeat_lt by exact Hi.
    destruct (Nat.lt_ge_cases j m) as [Hj|Hj].
    + now rewrite nth_repeat_lt.
    + apply nth_overflow. now rewrite repeat_length.
  - rewrite (nth_overflow (repeat _ n)) by now rewrite repeat_length.
    now destruct j.
Qed.

Lemma np_zeros_matrix (n m : nat) : is_matrix n m (np_zeros n m).
Proof.
  unfold np_zeros. split.
  - apply repeat_length.
  - apply Forall_forall. intros row Hrow. apply repeat_spec in Hrow.
    subst. apply repeat_length.
Qed.

(** Dropping the background row and column, [iouMat[1:, 1:]]. *)
Lemma entry_drop_background (mat : matrix) (g p : nat) :
  entry (map (skipn 1) (skipn 1 mat)) g p = entry mat (S g) (S p).
Proof.
  unfold entry.
  change (@nil Q) with (skipn 1 (@nil Q)) at 1.
  rewrite (map_nth (skipn 1)), !nth_skipn. reflexivity.
Qed.

Lemma drop_background_matrix (n m : nat) (mat : matrix) :
  is_matrix (S n) (S m) mat -> is_matrix n m (map (skipn 1) (skipn 1 mat)).
Proof.
  intros [Hn Hrows]. split.
  - rewrite length_map, length_skipn. lia.
  - apply Forall_forall. intros row Hrow.
    apply in_map_iff in Hrow. destruct Hrow as (row' & <- & Hrow').
    rewrite length_skipn.
    rewrite Forall_forall in Hrows.
    rewrite (Hrows row'); [lia|].
    destruct mat; [contradiction|]. now right.
Qed.

(** ** The IoU table computed by [evaluate] *)

(** Index of an instance in the IoU table. *)
Lemma relabel_index (l : list Z) (f : Z -> Z) (a : Z) :
  relabel_props l f -> In a l -> a <> 0 ->
  (Z.to_nat (f a - 1) < num_instances l)%nat /\
  Z.of_nat (S (Z.to_nat (f a - 1))) = f a.
Proof.
  intros Hp Ha Hnz.
  pose proof (rp_range l f Hp a Ha).
  pose proof (rp_zero l f Hp a Ha). lia.
Qed.

Lemma iou_table_spec (gt_labels pred_labels : list (list Z)) :
  let G := flatten gt_labels in
  let P := flatten pred_labels in
  label_image G -> label_image P -> length G = length P ->
  exists M,
    iou_table gt_labels pred_labels
    = Ok (Z.of_nat (num_instances G), Z.of_nat (num_instances P), M) /\
    is_matrix (num_instances G) (num_instances P) M /\
    forall a b, In a G -> a <> 0 -> In b P -> b <> 0 ->
      entry M (Z.to_nat (forward_map G a - 1)) (Z.to_nat (forward_map P b - 1))
      = stored_iou G P a b.
Proof.
  intros G P HG HP Hlen.
  pose proof (forward_map_props G HG) as HfG.
  pose proof (forward_map_props P HP) as HfP.
  set (fg := forward_map G) in *. set (fp := forward_map P) in *.
  set (Gr := map fg G). set (Pr := map fp P).
  unfold iou_table. fold G P.
  rewrite (relabel_sequential_ok P HP), (relabel_sequential_ok G HG).
  cbn [bind]. fold fg fp Gr Pr.
  unfold np_stack2.
  replace (length Pr =? length Gr)%nat with true
    by (symmetry; apply Nat.eqb_eq; unfold Pr, Gr; rewrite !length_map; lia).
  cbn [bind].
  pose proof (relabel_props_max P fp (proj1 HP) HfP) as EP. fold Pr in EP.
  pose proof (relabel_props_max G fg (proj1 HG) HfG) as EG. fold Gr in EG.
  rewrite EP, EG. cbn [bind].
  replace (Z.to_nat (Z.of_nat (num_instances G) + 1))
    with (S (num_instances G)) by lia.
  replace (Z.to_nat (Z.of_nat (num_instances P) + 1))
    with (S (num_instances P)) by lia.
  destruct (fill_iou_spec (S (num_instances G)) (S (num_instances P)) Gr Pr
              (dict_of_zip (np_unique Gr) (counts_of Gr (np_unique Gr)))
              (dict_of_zip (np_unique Pr) (counts_of Pr (np_unique Pr)))
              (count_dict_get Gr) (count_dict_get Pr)
              (combine (np_unique_cols (combine Pr Gr))
                 (col_counts_of (combine Pr Gr) (np_unique_cols (combine Pr Gr))))
              (np_zeros (S (num_instances G)) (S (num_instances P)))
              (np_zeros_matrix _ _))
    as (mat & Hfill & Hmat & Hent).
  { intros u v c Hin. unfold col_counts_of in Hin.
    rewrite combine_map_self in Hin. apply in_map_iff in Hin.
    destruct Hin as ([u' v'] & E & Hin). injection E as -> -> <-.
    rewrite np_unique_cols_In in Hin.
    split; [exact Hin|]. split; [reflexivity|].
    pose proof (in_combine_l _ _ _ _ Hin) as Hu.
    pose proof (in_combine_r _ _ _ _ Hin) as Hv.
    apply in_map_iff in Hu. destruct Hu as (b & <- & Hb).
    apply in_map_iff in Hv. destruct Hv as (a & <- & Ha).
    pose proof (rp_range G fg HfG a Ha).
    pose proof (rp_range P fp HfP b Hb). lia. }
  rewrite Hfill. cbn [bind].
  eexists. split; [reflexivity|]. split.
  - now apply drop_background_matrix.
  - intros a b Ha Hanz Hb Hbnz.
    rewrite entry_drop_background.
    destruct (relabel_index G fg a HfG Ha Hanz) as [_ Ea].
    destruct (relabel_index P fp b HfP Hb Hbnz) as [_ Eb].
    destruct (Hent (S (Z.to_nat (fg a - 1))) (S (Z.to_nat (fp b - 1))))
      as [H1 H2].
    rewrite Ea, Eb in H1, H2.
    assert (stored_iou Gr Pr (fg a) (fp b) = stored_iou G P a b) as Eiou.
    { apply stored_iou_map.
      - intros x Hx E. now apply (rp_inj G fg HfG).
      - intros y Hy E. now apply (rp_inj P fp HfP). }
    assert (map fst
              (combine (np_unique_cols (combine Pr Gr))
                 (col_counts_of (combine Pr Gr)
                    (np_unique_cols (combine Pr Gr))))
            = np_unique_cols (combine Pr Gr)) as Ekeys.
    { unfold col_counts_of. rewrite combine_map_self, map_map. apply map_id. }
    rewrite Ekeys in H1, H2.
    destruct (in_dec Z_eq_dec2 (fp b, fg a) (combine Pr Gr)) as [Hin|Hin].
    + rewrite H1 by now apply np_unique_cols_In.
      rewrite Eiou. reflexivity.
    + rewrite H2 by (intros Hc; apply Hin; now apply np_unique_cols_In).
      rewrite entry_np_zeros, <- Eiou.
      symmetry. now apply stored_iou_no_overlap.
Qed.

(** ** Matchings *)

Lemma matching_nil {A B : Type} (E : A -> B -> Prop) : matching E [].
Proof. repeat split; constructor. Qed.

Lemma matching_weaken {A B : Type} (E1 E2 : A -> B -> Prop) (M : list (A * B)) :
  (forall a b, E1 a b -> E2 a b) -> matching E1 M -> matching E2 M.
Proof.
  intros H (H1 & H2 & H3). repeat split; auto.
  eapply Forall_impl; [|exact H3]. intros [a b]; simpl; auto.
Qed.

Lemma max_matching_unique {A B : Type} (E : A -> B -> Prop) (k1 k2 : nat) :
  max_matching E k1 -> max_matching E k2 -> k1 = k2.
Proof.
  intros [(M1 & HM1 & <-) Hmax1] [(M2 & HM2 & <-) Hmax2].
  apply Nat.le_antisymm; auto.
Qed.

Lemma max_matching_mono {A B : Type} (E1 E2 : A -> B -> Prop) (k1 k2 : nat) :
  (forall a b, E1 a b -> E2 a b) ->
  max_matching E1 k1 -> max_matching E2 k2 -> (k1 <= k2)%nat.
Proof.
  intros H [(M1 & HM1 & <-) _] [_ Hmax2].
  apply Hmax2. now apply (matching_weaken E1).
Qed.

Lemma max_matching_empty {A B : Type} (E : A -> B -> Prop) :
  (forall a b, ~ E a b) -> max_matching E 0.
Proof.
  intros H. split.
  - exists []. split; [apply matching_nil | reflexivity].
  - intros [|[a b] M] (_ & _ & HE); [simpl; lia|].
    inversion HE; subst. exfalso. eapply H; eassumption.
Qed.

Section MatchingTransport.
Context {A B A' B' : Type}.
Variables (E1 : A -> B -> Prop) (E2 : A' -> B' -> Prop).
Variables (phi : A -> A') (psi : B -> B').
Hypothesis edge_image : forall a b, E1 a b -> E2 (phi a) (psi b).
Hypothesis phi_inj :
  forall a b a' b', E1 a b -> E1 a' b' -> phi a = phi a' -> a = a'.
Hypothesis psi_inj :
  forall a b a' b', E1 a b -> E1 a' b' -> psi b = psi b' -> b = b'.
Hypothesis edge_preimage :
  forall a' b', E2 a' b' -> exists a b, E1 a b /\ phi a = a' /\ psi b = b'.

Lemma matching_image (M : list (A * B)) :
  matching E1 M -> matching E2 (map (pair_map phi psi) M).
Proof.
  intros (H1 & H2 & H3). rewrite Forall_forall in H3.
  repeat split.
  - rewrite map_map. simpl. rewrite <- (map_map fst phi).
    apply NoDup_map_NoDup_ForallPairs; [|exact H1].
    intros x y Hx Hy E.
    apply in_map_iff in Hx. destruct Hx as ([a b] & <- & Hx).
    apply in_map_iff in Hy. destruct Hy as ([a' b'] & <- & Hy).
    simpl in *. eapply phi_inj; [apply (H3 _ Hx) | apply (H3 _ Hy) | exact E].
  - rewrite map_map. simpl. rewrite <- (map_map snd psi).
    apply NoDup_map_NoDup_ForallPairs; [|exact H2].
    intros x y Hx Hy E.
    apply in_map_iff in Hx. destruct Hx as ([a b] & <- & Hx).
    apply in_map_iff in Hy. destruct Hy as ([a' b'] & <- & Hy).
    simpl in *. eapply psi_inj; [apply (H3 _ Hx) | apply (H3 _ Hy) | exact E].
  - apply Forall_forall. intros ab Hab.
    apply in_map_iff in Hab. destruct Hab as ([a b] & <- & Hab).
    simpl. apply edge_image. apply (H3 _ Hab).
Qed.

Lemma edges_preimage (M' : list (A' * B')) :
  Forall (fun ab => E2 (fst ab) (snd ab)) M' ->
  exists M, Forall (fun ab => E1 (fst ab) (snd ab)) M /\ map (pair_map phi psi) M = M'.
Proof.
  induction 1 as [|[a' b'] M' Hab _ (M & HM & <-)].
  - exists []. split; [constructor | reflexivity].
  - destruct (edge_preimage a' b' Hab) as (a & b & Hab1 & <- & <-).
    exists ((a, b) :: M). split; [now constructor | reflexivity].
Qed.

Lemma matching_preimage (M' : list (A' * B')) :
  matching E2 M' -> exists M, matching E1 M /\ length M = length M'.
Proof.
  intros (H1 & H2 & H3).
  destruct (edges_preimage M' H3) as (M & HM & <-).
  exists M. split; [|now rewrite length_map].
  rewrite !map_map in H1, H2. simpl in H1, H2.
  rewrite <- (map_map fst phi) in H1. rewrite <- (map_map snd psi) in H2.
  repeat split; [eapply NoDup_map_inv | eapply NoDup_map_inv | ]; eassumption.
Qed.

Lemma max_matching_transport (k : nat) :
  max_matching E1 k <-> max_matching E2 k.
Proof.
  split; intros [(M & HM & <-) Hmax]; split.
  - exists (map (pair_map phi psi) M). split; [now apply matching_image | apply length_map].
  - intros M' HM'. destruct (matching_preimage M' HM') as (M0 & HM0 & <-).
    now apply Hmax.
  - destruct (matching_preimage M HM) as (M0 & HM0 & E).
    exists M0. now split.
  - intros M0 HM0. rewrite <- (length_map (pair_map phi psi)). apply Hmax.
    now apply matching_image.
Qed.
End MatchingTransport.

Lemma fresh_index (n : nat) (l : list nat) :
  (length l < n)%nat -> exists x, (x < n)%nat /\ ~ In x l.
Proof.
  intros Hlen.
  destruct (Exists_dec (fun x => ~ In x l) (seq 0 n)) as [H|H].
  - intros x. destruct (in_dec Nat.eq_dec x l); [right|left]; tauto.
  - apply Exists_exists in H. destruct H as (x & Hx & Hnot).
    apply in_seq in Hx. exists x. split; [lia | exact Hnot].
  - exfalso.
    assert (incl (seq 0 n) l) as Hincl.
    { intros x Hx. destruct (in_dec Nat.eq_dec x l) as [Hin|Hin]; [exact Hin|].
      exfalso. apply H, Exists_exists. now exists x. }
    pose proof (NoDup_incl_length (seq_NoDup n 0) Hincl) as Hle.
    rewrite length_seq in Hle. lia.
Qed.

Lemma range_matching_length (n m : nat) (M : list (nat * nat)) :
  matching (in_range n m) M -> (length M <= Nat.min n m)%nat.
Proof.
  intros (H1 & H2 & H3). rewrite Forall_forall in H3.
  assert (length (map fst M) <= length (seq 0 n))%nat as Hn.
  { apply NoDup_incl_length; [exact H1|]. intros x Hx.
    apply in_map_iff in Hx. destruct Hx as (ab & <- & Hab).
    apply in_seq. destruct (H3 _ Hab). lia. }
  assert (length (map snd M) <= length (seq 0 m))%nat as Hm.
  { apply NoDup_incl_length; [exact H2|]. intros x Hx.
    apply in_map_iff in Hx. destruct Hx as (ab & <- & Hab).
    apply in_seq. destruct (H3 _ Hab). lia. }
  rewrite length_map, length_seq in Hn, Hm. lia.
Qed.

(** Every matching extends to a full assignment. *)
Lemma matching_extends (n m : nat) (M : list (nat * nat)) :
  matching (in_range n m) M ->
  exists rest, matching (in_range n m) (rest ++ M) /\
               length (rest ++ M) = Nat.min n m.
Proof.
  intros HM. pose proof (range_matching_length n m M HM) as Hle.
  remember (Nat.min n m - length M)%nat as d eqn:Ed.
  revert M HM Hle Ed. induction d as [|d IH]; intros M HM Hle Ed.
  - exists []. split; [exact HM | simpl; lia].
  - destruct HM as (H1 & H2 & H3).
    destruct (fresh_index n (map fst M)) as (g & Hg & Hgn);
      [rewrite length_map; lia|].
    destruct (fresh_index m (map snd M)) as (p & Hp & Hpn);
      [rewrite length_map; lia|].
    assert (matching (in_range n m) ((g, p) :: M)) as HM'.
    { repeat split; simpl; try (constructor; assumption).
      constructor; [split; assumption | exact H3]. }
    destruct (IH ((g, p) :: M) HM') as (rest & Hr & Hlen).
    + now apply range_matching_length.
    + simpl. lia.
    + exists (rest ++ [(g, p)]). rewrite <- app_assoc. now split.
Qed.

(** ** The exhaustive solver meets the contract *)

Lemma enum_assignments_sound (k : nat) (rs cs : list nat) (a : list (nat * nat)) :
  In a (enum_assignments k rs cs) ->
  length a = k /\ NoDup (map fst a) /\ NoDup (map snd a) /\
  Forall (fun ij => In (fst ij) rs /\ In (snd ij) cs) a.
Proof.
  revert rs cs a. induction k as [|k IH]; intros rs cs a Ha; simpl in Ha.
  - destruct Ha as [<-|[]]. repeat split; constructor.
  - apply in_flat_map in Ha. destruct Ha as (r & Hr & Ha).
    apply in_flat_map in Ha. destruct Ha as (c & Hc & Ha).
    apply in_map_iff in Ha. destruct Ha as (a' & <- & Ha').
    destruct (IH _ _ _ Ha') as (Hlen & H1 & H2 & H3).
    rewrite Forall_forall in H3.
    repeat split; simpl.
    + now f_equal.
    + constructor; [|exact H1]. intros Hin.
      apply in_map_iff in Hin. destruct Hin as (ij & E & Hij).
      destruct (H3 _ Hij) as [Hx _]. rewrite E in Hx.
      now apply remove_In in Hx.
    + constructor; [|exact H2]. intros Hin.
      apply in_map_iff in Hin. destruct Hin as (ij & E & Hij).
      destruct (H3 _ Hij) as [_ Hx]. rewrite E in Hx.
      now apply remove_In in Hx.
    + constructor; [now split|].
      apply Forall_forall. intros ij Hij. destruct (H3 _ Hij) as [Hx Hy].
      apply in_remove in Hx. apply in_remove in Hy. tauto.
Qed.

Lemma enum_assignments_complete (k : nat) (rs cs : list nat)
    (a : list (nat * nat)) :
  length a = k -> NoDup (map fst a) -> NoDup (map snd a) ->
  Forall (fun ij => In (fst ij) rs /\ In (snd ij) cs) a ->
  In a (enum_assignments k rs cs).
Proof.
  revert rs cs a. induction k as [|k IH]; intros rs cs a Hlen H1 H2 H3.
  - destruct a; [now left | discriminate].
  - destruct a as [|[r c] a]; [discriminate|]. simpl in *.
    inversion H1 as [|? ? Hr H1']; subst.
    inversion H2 as [|? ? Hc H2']; subst.
    inversion H3 as [|? ? [Hrs Hcs] H3']; subst. simpl in *.
    apply in_flat_map. exists r. split; [exact Hrs|].
    apply in_flat_map. exists c. split; [exact Hcs|].
    apply in_map, IH; auto.
    rewrite Forall_forall in *. intros ij Hij.
    destruct (H3' _ Hij) as [Hx Hy]. split; apply in_in_remove; auto.
    + intros E. apply Hr. rewrite <- E. now apply in_map.
    + intros E. apply Hc. rewrite <- E. now apply in_map.
Qed.

Lemma argmin_spec {X : Type} (cost : X -> Q) (best : X) (l : list X) :
  In (argmin cost best l) (best :: l) /\
  forall x, In x (best :: l) -> (cost (argmin cost best l) <= cost x)%Q.
Proof.
  revert best. induction l as [|y l IH]; intros best; simpl.
  - split; [now left|]. intros x [<-|[]]. apply Qle_refl.
  - set (b := if Qltb (cost y) (cost best) then y else best).
    destruct (IH b) as [Hin Hmin].
    assert (b = y \/ b = best) as Hb by (unfold b; destruct (Qltb _ _); auto).
    assert (cost b <= cost y /\ cost b <= cost best)%Q as [Hy Hbest].
    { unfold b. destruct (Qltb (cost y) (cost best)) eqn:E.
      - apply Qltb_lt in E. split; lra.
      - apply Qltb_ge in E. split; lra. }
    split.
    + destruct Hin as [Hin|Hin]; [|auto].
      rewrite <- Hin. destruct Hb as [->| ->]; auto.
    + intros x [<-|[<-|Hx]].
      * pose proof (Hmin b (or_introl eq_refl)). lra.
      * pose proof (Hmin b (or_introl eq_refl)). lra.
      * apply Hmin. now right.
Qed.

Lemma assignment_enumerated (n m : nat) (a : list (nat * nat)) :
  assignment n m a <->
  In a (enum_assignments (Nat.min n m) (seq 0 n) (seq 0 m)).
Proof.
  split.
  - intros (Hlen & H1 & H2 & H3). apply enum_assignments_complete; auto.
    eapply Forall_impl; [|exact H3]. intros ij [Hi Hj].
    split; apply in_seq; lia.
  - intros Ha. apply enum_assignments_sound in Ha.
    destruct Ha as (Hlen & H1 & H2 & H3). repeat split; auto.
    eapply Forall_impl; [|exact H3]. intros ij [Hi Hj].
    apply in_seq in Hi. apply in_seq in Hj. lia.
Qed.

Lemma diagonal_assignment (n m : nat) :
  assignment n m (combine (seq 0 (Nat.min n m)) (seq 0 (Nat.min n m))).
Proof.
  set (k := Nat.min n m).
  assert (forall l : list nat, map fst (combine l l) = l) as Hfst
    by (induction l; simpl; congruence).
  assert (forall l : list nat, map snd (combine l l) = l) as Hsnd
    by (induction l; simpl; congruence).
  repeat split.
  - rewrite length_combine, length_seq. lia.
  - rewrite Hfst. apply seq_NoDup.
  - rewrite Hsnd. apply seq_NoDup.
  - apply Forall_forall. intros [i j] Hij.
    pose proof (in_combine_l _ _ _ _ Hij) as Hi.
    pose proof (in_combine_r _ _ _ _ Hij) as Hj.
    apply in_seq in Hi. apply in_seq in Hj. simpl. lia.
Qed.

Lemma lsa_exhaustive_contract : lsa_contract lsa_exhaustive.
Proof.
  intros n m costs [Hn Hrows]. unfold lsa_exhaustive.
  assert (Nat.min (length costs) (length (hd [] costs)) = Nat.min n m /\
          forall a, assignment n m a <->
                    assignment (length costs) (length (hd [] costs)) a)
    as [Emin Hsame].
  { destruct costs as [|row costs]; simpl in *.
    - subst n. split; [reflexivity|]. intros a. unfold assignment. simpl.
      split; intros (Hlen & H1 & H2 & H3); apply length_zero_iff_nil in Hlen;
        subst a; repeat split; auto.
    - inversion Hrows; subst. split; [reflexivity|]. tauto. }
  pose proof (diagonal_assignment (length costs) (length (hd [] costs))) as Hd.
  apply assignment_enumerated in Hd.
  destruct (enum_assignments _ _ _) as [|a0 l] eqn:Eenum; [contradiction|].
  destruct (argmin_spec (assignment_cost costs) a0 l) as [Hin Hmin].
  set (sol := argmin (assignment_cost costs) a0 l) in *.
  assert (combine (fst (List.split sol)) (snd (List.split sol)) = sol) as Ecomb.
  { destruct (List.split sol) as [l1 l2] eqn:E. simpl. now apply split_combine. }
  repeat split.
  - now rewrite length_fst_split, length_snd_split.
  - rewrite Ecomb. apply Hsame, assignment_enumerated.
    rewrite Eenum. exact Hin.
  - rewrite Ecomb. apply Hsame, assignment_enumerated.
    rewrite Eenum. exact Hin.
  - rewrite Ecomb. apply Hsame, assignment_enumerated.
    rewrite Eenum. exact Hin.
  - rewrite Ecomb. apply Hsame, assignment_enumerated.
    rewrite Eenum. exact Hin.
  - intros a Ha. rewrite Ecomb. apply Hmin.
    rewrite <- Eenum. apply assignment_enumerated, Hsame, Ha.
Qed.

(** ** The assignment branch *)

Lemma Qnat_S (k : nat) : (Qnat (S k) == Qnat k + 1)%Q.
Proof.
  unfold Qnat. rewrite Nat2Z.inj_succ. unfold Z.succ.
  now rewrite inject_Z_plus.
Qed.

Lemma Qnat_le (j k : nat) : (Qnat j <= Qnat k)%Q <-> (j <= k)%nat.
Proof. unfold Qnat. rewrite <- Zle_Qle. lia. Qed.

Lemma getitem2_ok (n m : nat) (M : matrix) (i j : nat) :
  is_matrix n m M -> (i < n)%nat -> (j < m)%nat ->
  getitem2 M i j = Ok (entry M i j).
Proof.
  intros HM Hi Hj. unfold getitem2, entry.
  pose proof (is_matrix_row n m M i HM Hi) as Hrow.
  destruct HM as [Hn _].
  rewrite (nth_error_nth' M []) by lia.
  rewrite (nth_error_nth' _ 0%Q) by lia.
  reflexivity.
Qed.

Lemma fancy_index_ok (n m : nat) (M : matrix) (a : list (nat * nat)) :
  is_matrix n m M ->
  Forall (fun ij => in_range n m (fst ij) (snd ij)) a ->
  fancy_index M a = Ok (map (fun ij => entry M (fst ij) (snd ij)) a).
Proof.
  intros HM. induction 1 as [|[i j] a [Hi Hj] _ IH]; simpl in *.
  - reflexivity.
  - rewrite (getitem2_ok n m) by assumption. simpl.
    rewrite IH. reflexivity.
Qed.

Lemma count_nonzero_qualifies (M : matrix) (th : Q) (a : list (nat * nat)) :
  count_nonzero (map (Qltb th) (map (fun ij => entry M (fst ij) (snd ij)) a))
  = Z.of_nat (length (filter (qualifies M th) a)).
Proof.
  unfold count_nonzero. f_equal.
  induction a as [|ij a IH]; simpl; [reflexivity|].
  unfold qualifies at 1. destruct (Qltb th _); simpl; now rewrite IH.
Qed.

Lemma cost_matrix_is_matrix (n m : nat) (th : Q) (N : Z) (M : matrix) :
  is_matrix n m M -> is_matrix n m (cost_matrix th N M).
Proof.
  intros [Hn Hrows]. unfold cost_matrix. split.
  - now rewrite length_map.
  - apply Forall_forall. intros row Hrow.
    apply in_map_iff in Hrow. destruct Hrow as (row' & <- & Hrow').
    rewrite length_map. rewrite Forall_forall in Hrows. auto.
Qed.

Lemma entry_cost_matrix (n m : nat) (th : Q) (N : Z) (M : matrix) (i j : nat) :
  is_matrix n m M -> (i < n)%nat -> (j < m)%nat ->
  entry (cost_matrix th N M) i j = cost_entry th N (entry M i j).
Proof.
  intros HM Hi Hj. unfold entry, cost_matrix.
  pose proof (is_matrix_row n m M i HM Hi) as Hrow.
  change (@nil Q) with (map (cost_entry th N) []) at 1.
  rewrite (map_nth (map (cost_entry th N))).
  rewrite (nth_indep _ 0%Q (cost_entry th N 0%Q))
    by (rewrite length_map; lia).
  apply map_nth.
Qed.

Lemma In_concat_entry (n m : nat) (M : matrix) (x : Q) :
  is_matrix n m M ->
  (In x (concat M) <->
   exists g p, (g < n)%nat /\ (p < m)%nat /\ entry M g p = x).
Proof.
  intros HM. pose proof HM as [Hn Hrows]. rewrite in_concat. split.
  - intros (row & Hrow & Hx).
    apply (In_nth _ _ []) in Hrow. destruct Hrow as (g & Hg & <-).
    apply (In_nth _ _ 0%Q) in Hx. destruct Hx as (p & Hp & <-).
    rewrite (is_matrix_row n m) in Hp by (assumption || lia).
    exists g, p. repeat split; (lia || reflexivity).
  - intros (g & p & Hg & Hp & <-). exists (nth g M []). split.
    + apply nth_In. lia.
    + apply nth_In. rewrite (is_matrix_row n m) by assumption. exact Hp.
Qed.

Lemma NoDup_map_filter {A B : Type} (f : A -> B) (q : A -> bool) (l : list A) :
  NoDup (map f l) -> NoDup (map f (filter q l)).
Proof.
  induction l as [|x l IH]; simpl; intros H; [constructor|].
  inversion H as [|? ? Hx Hl]; subst.
  destruct (q x); simpl; auto.
  constructor; auto.
  intros Hin. apply Hx.
  apply in_map_iff in Hin. destruct Hin as (y & E & Hy).
  apply filter_In in Hy. rewrite <- E. apply in_map. tauto.
Qed.

Lemma tie_bound_sum (N : Z) :
  0 < N -> (inject_Z N * tie_bound N < 1)%Q.
Proof.
  intros HN. unfold tie_bound.
  destruct (Z.log2_spec N HN) as [_ Hup]. unfold Z.succ in Hup.
  pose proof (Z.log2_nonneg N) as Hj.
  set (j := Z.log2 N) in *.
  pose proof (pow2_pos (- (j + 1))) as Hp.
  assert (pow2 (j + 1) * pow2 (- (j + 1)) == 1)%Q as E.
  { rewrite <- pow2_add. now replace (j + 1 + - (j + 1)) with 0 by lia. }
  assert (inject_Z N < pow2 (j + 1))%Q as Hlt
    by (rewrite pow2_int by lia; now rewrite <- Zlt_Qlt).
  assert (inject_Z N * pow2 (- (j + 1)) < pow2 (j + 1) * pow2 (- (j + 1)))%Q
    as H by (apply Qmult_lt_compat_r; assumption).
  lra.
Qed.

(** The tie-break term of an entry, as float32 arithmetic computes it. *)
Lemma tie_term_bounds (N : Z) (x : Q) :
  0 < N -> (0 <= x <= 1)%Q ->
  (0 <= f32 (x / f32 (inject_Z (2 * N))) <= tie_bound N)%Q.
Proof.
  intros HN [Hx0 Hx1]. unfold tie_bound.
  destruct (Z.log2_spec N HN) as [Hlow _].
  pose proof (Z.log2_nonneg N) as Hj.
  set (j := Z.log2 N) in *.
  pose proof (pow2_pos (j + 1)) as Hp.
  assert (pow2 (j + 1) <= f32 (inject_Z (2 * N)))%Q as HD.
  { rewrite <- (round_float_pow2 24 (-149) (j + 1)) by lia.
    apply f32_mono. rewrite pow2_int by lia. rewrite <- Zle_Qle.
    rewrite Z.pow_add_r by lia. lia. }
  set (D := f32 (inject_Z (2 * N))) in *.
  assert (0 < D)%Q as HDpos by lra.
  assert (pow2 (j + 1) * pow2 (- (j + 1)) == 1)%Q as E.
  { rewrite <- pow2_add. now replace (j + 1 + - (j + 1)) with 0 by lia. }
  pose proof (pow2_pos (- (j + 1))) as Hq.
  assert (0 <= x / D)%Q as H0
    by (apply Qle_shift_div_l; [exact HDpos | lra]).
  assert (x / D <= pow2 (- (j + 1)))%Q as H1.
  { apply Qle_shift_div_r; [exact HDpos|].
    assert (pow2 (- (j + 1)) * pow2 (j + 1) <= pow2 (- (j + 1)) * D)%Q
      by (apply Qmult_le_l; assumption).
    lra. }
  split.
  - now apply round_float_nonneg.
  - apply Qle_trans with (f32 (pow2 (- (j + 1)))); [now apply f32_mono|].
    apply round_float_pow2_le. lia.
Qed.

(** The cost of an entry: minus one for an entry above the threshold, and a
    tie-break term that rounding keeps within [tie_bound]. *)
Lemma cost_entry_bounds (th : Q) (N : Z) (x : Q) :
  0 < N -> (0 <= x <= 1)%Q ->
  (- (if Qltb (f32 th) x then 1 else 0) - tie_bound N
   <= cost_entry th N x
   <= - (if Qltb (f32 th) x then 1 else 0))%Q.
Proof.
  intros HN Hx. unfold cost_entry.
  destruct (tie_term_bounds N x HN Hx) as [Ht0 Ht1].
  set (t := f32 (x / f32 (inject_Z (2 * N)))) in *.
  pose proof (Z.log2_nonneg N) as Hj.
  assert (tie_bound N <= 1 # 2)%Q as Hhalf.
  { unfold tie_bound. change (1 # 2)%Q with (pow2 (-1)). apply pow2_le. lia. }
  destruct (Qltb (f32 th) x).
  - rewrite (f64_compat (- (1) - t) (- (1 + t))) by ring.
    unfold f64 at 1 2. rewrite round_float_opp. fold f64.
    assert (1 <= f64 (1 + t))%Q as H1.
    { apply Qle_trans with (f64 1); [vm_compute; discriminate|].
      apply f64_mono. lra. }
    assert (f64 (1 + t) <= 1 + tie_bound N)%Q as H2.
    { apply Qle_trans with (f64 (1 + tie_bound N)).
      - apply f64_mono. lra.
      - unfold tie_bound. apply round_float_one_plus; lia. }
    split; lra.
  - rewrite (f64_compat (- 0 - t) (- t)) by ring.
    unfold f64 at 1 2. rewrite round_float_opp. fold f64.
    assert (0 <= f64 t)%Q as H1 by now apply round_float_nonneg.
    assert (f64 t <= tie_bound N)%Q as H2.
    { apply Qle_trans with (f64 (tie_bound N)); [now apply f64_mono|].
      unfold tie_bound. apply round_float_pow2_le. lia. }
    split; lra.
Qed.

Section AssignmentBranch.
Variables (n m : nat) (M : matrix) (th : Q).
Hypothesis HM : is_matrix n m M.
Hypothesis Hunit : forall g p, (g < n)%nat -> (p < m)%nat ->
  (0 <= entry M g p <= 1)%Q.
Variable N : Z.
Hypothesis HN : 0 < N.

(** The cost of a list of index pairs, given the number of its pairs above the
    threshold: the tie-break terms add up to at most
    [length a * tie_bound N]. *)
Lemma cost_bounds (a : list (nat * nat)) :
  Forall (fun ij => in_range n m (fst ij) (snd ij)) a ->
  (- Qnat (length (filter (qualifies M (f32 th)) a))
     - Qnat (length a) * tie_bound N
   <= assignment_cost (cost_matrix th N M) a /\
   assignment_cost (cost_matrix th N M) a
   <= - Qnat (length (filter (qualifies M (f32 th)) a)))%Q.
Proof.
  assert (0 < tie_bound N)%Q as Hr by apply pow2_pos.
  remember (tie_bound N) as r eqn:Er.
  induction 1 as [|[i j] a [Hi Hj] _ [IH1 IH2]];
    cbn [assignment_cost fold_right filter length fst snd].
  - change (Qnat 0) with 0%Q. split; lra.
  - rewrite (entry_cost_matrix n m) by assumption.
    pose proof (cost_entry_bounds th N (entry M i j) HN (Hunit i j Hi Hj))
      as [Hc1 Hc2].
    rewrite <- Er in Hc1.
    assert (qualifies M (f32 th) (i, j) = Qltb (f32 th) (entry M i j)) as ->
      by reflexivity.
    remember (cost_entry th N (entry M i j)) as c eqn:Ec.
    rewrite (Qnat_S (length a)).
    fold (assignment_cost (cost_matrix th N M) a).
    destruct (Qltb (f32 th) (entry M i j)); cbn [length].
    + rewrite Qnat_S. split; lra.
    + split; lra.
Qed.
End AssignmentBranch.

Lemma filter_all_true {A : Type} (q : A -> bool) (l : list A) :
  Forall (fun x => q x = true) l -> filter q l = l.
Proof.
  induction 1 as [|x l Hx _ IH]; simpl; [reflexivity|].
  now rewrite Hx, IH.
Qed.

Section WithSolver.
Variable lsa : matrix -> list nat * list nat.
Hypothesis lsa_ok : lsa_contract lsa.

(** Whatever optimal assignment the solver returns, the number of its pairs
    above the threshold is the maximum cardinality of a matching among the
    pairs above the threshold. *)
Lemma assignment_saturates (n m : nat) (M : matrix) (th : Q) :
  is_matrix n m M ->
  (forall g p, (g < n)%nat -> (p < m)%nat -> (0 <= entry M g p <= 1)%Q) ->
  (0 < Nat.min n m)%nat ->
  let sol := lsa (cost_matrix th (Z.min (Z.of_nat n) (Z.of_nat m)) M) in
  length (fst sol) = Nat.min n m /\
  length (snd sol) = Nat.min n m /\
  assignment n m (combine (fst sol) (snd sol)) /\
  max_matching (above M (f32 th) n m)
    (length (filter (qualifies M (f32 th)) (combine (fst sol) (snd sol)))).
Proof.
  intros HM Hunit Hk. rewrite <- Nat2Z.inj_min. intros sol.
  set (N := Z.of_nat (Nat.min n m)) in *.
  assert (0 < N) as HN by (unfold N; lia).
  destruct (lsa_ok n m _ (cost_matrix_is_matrix n m th N M HM))
    as (Hlen & Hassign & Hopt).
  fold sol in Hlen, Hassign, Hopt.
  set (a := combine (fst sol) (snd sol)) in *.
  pose proof Hassign as (Hla & Hnd1 & Hnd2 & Hrange).
  assert (length (fst sol) = Nat.min n m) as Hl1.
  { unfold a in Hla. rewrite length_combine in Hla. lia. }
  split; [exact Hl1|]. split; [lia|]. split; [exact Hassign|].
  split.
  - exists (filter (qualifies M (f32 th)) a). split; [|reflexivity].
    repeat split.
    + now apply NoDup_map_filter.
    + now apply NoDup_map_filter.
    + apply Forall_forall. intros ij Hij. apply filter_In in Hij.
      destruct Hij as [Hin Hq]. rewrite Forall_forall in Hrange.
      destruct (Hrange _ Hin) as [Hi Hj].
      repeat split; [exact Hi | exact Hj | now apply Qltb_lt].
  - intros M' HM'.
    assert (matching (in_range n m) M') as HMr.
    { apply (matching_weaken (above M (f32 th) n m)); [|exact HM'].
      intros g p (Hg & Hp & _). now split. }
    destruct (matching_extends n m M' HMr) as (rest & Hr & Hlen').
    assert (assignment n m (rest ++ M')) as Hfull.
    { destruct Hr as (H1 & H2 & H3). repeat split; assumption. }
    pose proof (Hopt _ Hfull) as Hle.
    destruct (cost_bounds n m M th HM Hunit N HN a Hrange) as [Hlow _].
    destruct (cost_bounds n m M th HM Hunit N HN (rest ++ M'))
      as [_ Hup].
    { destruct Hr as (_ & _ & H3). exact H3. }
    rewrite Hla in Hlow.
    pose proof (tie_bound_sum N HN) as Hsum.
    change (Qnat (Nat.min n m)) with (inject_Z N) in Hlow.
    assert (length M'
            <= length (filter (qualifies M (f32 th)) (rest ++ M')))%nat
      as Hcnt.
    { rewrite filter_app, length_app.
      rewrite (filter_all_true _ M'); [lia|].
      destruct HM' as (_ & _ & H3).
      eapply Forall_impl; [|exact H3].
      intros ij (_ & _ & Hij). now apply Qltb_lt. }
    apply Qnat_le in Hcnt.
    destruct (Nat.le_gt_cases (length M')
                (length (filter (qualifies M (f32 th)) a))) as [Hok|Hbad];
      [exact Hok|].
    exfalso. apply Qnat_le in Hbad. rewrite Qnat_S in Hbad. lra.
Qed.

Lemma true_positives_spec (n m : nat) (M : matrix) (th : Q) :
  is_matrix n m M ->
  (forall g p, (g < n)%nat -> (p < m)%nat -> (0 <= entry M g p <= 1)%Q) ->
  exists tp : nat,
    true_positives lsa (Z.of_nat n) (Z.of_nat m) M th = Ok (Z.of_nat tp) /\
    max_matching (above M (f32 th) n m) tp.
Proof.
  intros HM Hunit. unfold true_positives.
  destruct (Z.ltb_spec 0 (Z.min (Z.of_nat n) (Z.of_nat m))) as [Hpos|Hzero].
  - assert (0 < Nat.min n m)%nat as Hk by lia.
    assert (exists x l, concat M = x :: l) as (x & l & Econcat).
    { destruct (concat M) as [|x l] eqn:E; [|eauto].
      exfalso.
      assert (In (entry M 0 0) (concat M)) as Hin.
      { apply (In_concat_entry n m); [exact HM|].
        exists 0%nat, 0%nat. repeat split; lia. }
      now rewrite E in Hin. }
    rewrite Econcat. cbn [np_maxQ bind].
    pose proof (fold_Qmax_In l x) as Hmx_in.
    pose proof (fold_Qmax_ge l x) as Hmx_ge.
    rewrite <- Econcat in Hmx_in, Hmx_ge.
    set (mx := fold_left Qmax' l x) in *.
    destruct (Qltb (f32 th) mx) eqn:Eth.
    + destruct (assignment_saturates n m M th HM Hunit Hk)
        as (Hl1 & Hl2 & Hassign & Hmax).
      destruct (lsa (cost_matrix th (Z.min (Z.of_nat n) (Z.of_nat m)) M))
        as [gt_ind pred_ind].
      cbn [fst snd] in *.
      replace (Z.min (Z.of_nat n) (Z.of_nat m) =? Z.of_nat (length gt_ind))
        with true by (symmetry; apply Z.eqb_eq; lia).
      replace (length gt_ind =? length pred_ind)%nat
        with true by (symmetry; apply Nat.eqb_eq; lia).
      cbn [andb].
      destruct Hassign as (_ & _ & _ & Hrange).
      rewrite (fancy_index_ok n m M _ HM Hrange). cbn [bind].
      rewrite count_nonzero_qualifies.
      eexists. split; [reflexivity | exact Hmax].
    + exists 0%nat. split; [reflexivity|].
      apply max_matching_empty. intros g p (Hg & Hp & Hlt).
      apply Qltb_ge in Eth.
      assert (entry M g p <= mx)%Q as Hle.
      { apply Hmx_ge. apply (In_concat_entry n m); [exact HM|].
        now exists g, p. }
      lra.
  - exists 0%nat. split; [reflexivity|].
    apply max_matching_empty. intros g p (Hg & Hp & _). lia.
Qed.
End WithSolver.

(** ** From the IoU table to the instances of the images *)

Section TableAndLabels.
Variables (G P : list Z) (fg fp : Z -> Z) (M : matrix) (th : Q).
Hypothesis HfG : relabel_props G fg.
Hypothesis HfP : relabel_props P fp.
Hypothesis Hentry :
  forall a b, In a G -> a <> 0 -> In b P -> b <> 0 ->
    entry M (Z.to_nat (fg a - 1)) (Z.to_nat (fp b - 1)) = stored_iou G P a b.

Lemma table_index_label (l : list Z) (f : Z -> Z) (g : nat) :
  relabel_props l f -> (g < num_instances l)%nat ->
  exists a, In a l /\ a <> 0 /\ Z.to_nat (f a - 1) = g.
Proof.
  intros Hf Hg.
  destruct (rp_surj l f Hf (Z.of_nat g + 1)) as (a & Ha & E); [lia|].
  exists a. split; [exact Ha|]. split.
  - intros ->. pose proof (proj2 (rp_zero l f Hf 0 Ha) eq_refl). lia.
  - lia.
Qed.

Lemma table_entries_unit (g p : nat) :
  (g < num_instances G)%nat -> (p < num_instances P)%nat ->
  (0 <= entry M g p <= 1)%Q.
Proof.
  intros Hg Hp.
  destruct (table_index_label G fg g HfG Hg) as (a & Ha & Hanz & <-).
  destruct (table_index_label P fp p HfP Hp) as (b & Hb & Hbnz & <-).
  rewrite (Hentry a b Ha Hanz Hb Hbnz). apply stored_iou_bounds.
Qed.

Lemma table_matching_labels (k : nat) :
  max_matching (label_edge G P th) k <->
  max_matching (above M (f32 th) (num_instances G) (num_instances P)) k.
Proof.
  apply (max_matching_transport _ _
           (fun a => Z.to_nat (fg a - 1)) (fun b => Z.to_nat (fp b - 1))).
  - intros a b (Ha & Hanz & Hb & Hbnz & Hlt).
    destruct (relabel_index G fg a HfG Ha Hanz) as [Hi _].
    destruct (relabel_index P fp b HfP Hb Hbnz) as [Hj _].
    repeat split; [exact Hi | exact Hj |].
    now rewrite (Hentry a b Ha Hanz Hb Hbnz).
  - intros a b a' b' (Ha & Hanz & _) (Ha' & Hanz' & _) E.
    apply (rp_inj G fg HfG); [exact Ha | exact Ha' |].
    destruct (relabel_index G fg a HfG Ha Hanz) as [_ E1].
    destruct (relabel_index G fg a' HfG Ha' Hanz') as [_ E2].
    rewrite <- E1, <- E2, E. reflexivity.
  - intros a b a' b' (_ & _ & Hb & Hbnz & _) (_ & _ & Hb' & Hbnz' & _) E.
    apply (rp_inj P fp HfP); [exact Hb | exact Hb' |].
    destruct (relabel_index P fp b HfP Hb Hbnz) as [_ E1].
    destruct (relabel_index P fp b' HfP Hb' Hbnz') as [_ E2].
    rewrite <- E1, <- E2, E. reflexivity.
  - intros g p (Hg & Hp & Hlt).
    destruct (table_index_label G fg g HfG Hg) as (a & Ha & Hanz & Ea).
    destruct (table_index_label P fp p HfP Hp) as (b & Hb & Hbnz & Eb).
    exists a, b. split; [|now split].
    repeat split; try assumption.
    rewrite <- (Hentry a b Ha Hanz Hb Hbnz), Ea, Eb. exact Hlt.
Qed.
End TableAndLabels.

Lemma label_matching_length (G P : list Z) (th : Q) (M : list (Z * Z)) :
  matching (label_edge G P th) M ->
  (length M <= Nat.min (num_instances G) (num_instances P))%nat.
Proof.
  intros (H1 & H2 & H3). rewrite Forall_forall in H3.
  assert (length (map fst M) <= num_instances G)%nat as HG.
  { apply NoDup_incl_length; [exact H1|]. intros a Ha.
    apply in_map_iff in Ha. destruct Ha as (ab & <- & Hab).
    apply instances_In. destruct (H3 _ Hab) as (? & ? & _). now split. }
  assert (length (map snd M) <= num_instances P)%nat as HP.
  { apply NoDup_incl_length; [exact H2|]. intros b Hb.
    apply in_map_iff in Hb. destruct Hb as (ab & <- & Hab).
    apply instances_In. destruct (H3 _ Hab) as (_ & _ & ? & ? & _). now split. }
  rewrite length_map in HG, HP. lia.
Qed.

Section EvaluateSpec.
Variable lsa : matrix -> list nat * list nat.
Hypothesis lsa_ok : lsa_contract lsa.

(** The counts computed by [evaluate] on well-formed images: the number of
    true positives is the maximum cardinality of a one-to-one matching of
    ground-truth instances with predicted instances of IoU above [th]. *)
Lemma match_counts_spec (gt_labels pred_labels : list (list Z)) (th : Q) :
  let G := flatten gt_labels in
  let P := flatten pred_labels in
  label_image G -> label_image P -> length G = length P ->
  exists tp : nat,
    match_counts lsa gt_labels pred_labels th
    = Ok (Z.of_nat tp, Z.of_nat (num_instances P) - Z.of_nat tp,
          Z.of_nat (num_instances G) - Z.of_nat tp) /\
    max_matching (label_edge G P th) tp /\
    (tp <= Nat.min (num_instances G) (num_instances P))%nat.
Proof.
  intros G P HG HP Hlen.
  destruct (iou_table_spec gt_labels pred_labels HG HP Hlen)
    as (M & Htable & HM & Hentry).
  fold G P in Htable, HM, Hentry.
  pose proof (forward_map_props G HG) as HfG.
  pose proof (forward_map_props P HP) as HfP.
  destruct (true_positives_spec lsa lsa_ok _ _ M th HM
              (table_entries_unit G P _ _ M HfG HfP Hentry))
    as (tp & Htp & Hmax).
  exists tp. unfold match_counts. rewrite Htable. cbn [bind].
  rewrite Htp. cbn [bind]. split; [reflexivity|].
  apply (table_matching_labels G P _ _ M th HfG HfP Hentry) in Hmax.
  split; [exact Hmax|].
  destruct Hmax as [(M0 & HM0 & <-) _].
  now apply (label_matching_length G P th).
Qed.
End EvaluateSpec.

(** ** When [evaluate] raises before the assignment *)

Lemma fold_min_le (l : list Z) (x y : Z) :
  In y (x :: l) -> fold_left Z.min l x <= y.
Proof.
  revert x y. induction l as [|z l IH]; intros x y H; simpl.
  - destruct H as [->|[]]. lia.
  - pose proof (IH (Z.min x z) (Z.min x z) (or_introl eq_refl)) as H3.
    destruct H as [->|[->|H]]; [lia | lia | apply IH; now right].
Qed.

Lemma relabel_sequential_inv (l r : list Z) :
  relabel_sequential l = Ok r ->
  label_image l /\ r = map (forward_map l) l.
Proof.
  intros H. assert (label_image l) as Hl.
  { unfold relabel_sequential in H. destruct l as [|x l]; [discriminate|].
    cbn [np_min bind] in H.
    destruct (Z.ltb_spec (fold_left Z.min l x) 0) as [Hlt|Hge]; [discriminate|].
    split; [discriminate|]. apply Forall_forall. intros y Hy.
    pose proof (fold_min_le l x y Hy). lia. }
  split; [exact Hl|]. rewrite (relabel_sequential_ok l Hl) in H. congruence.
Qed.

Lemma relabel_sequential_nil : relabel_sequential [] = Raise ValueError.
Proof. reflexivity. Qed.

Lemma iou_table_inv (gt_labels pred_labels : list (list Z))
    (t : Z * Z * matrix) :
  iou_table gt_labels pred_labels = Ok t ->
  label_image (flatten gt_labels) /\ label_image (flatten pred_labels) /\
  length (flatten gt_labels) = length (flatten pred_labels).
Proof.
  unfold iou_table. intros H.
  destruct (relabel_sequential (flatten pred_labels)) as [Pr|e] eqn:EP;
    [|discriminate].
  destruct (relabel_sequential (flatten gt_labels)) as [Gr|e] eqn:EG;
    [|discriminate].
  apply relabel_sequential_inv in EP. destruct EP as [HP ->].
  apply relabel_sequential_inv in EG. destruct EG as [HG ->].
  cbn [bind] in H. unfold np_stack2 in H. rewrite !length_map in H.
  destruct (Nat.eqb_spec (length (flatten pred_labels))
              (length (flatten gt_labels))) as [E|E]; [|discriminate].
  auto.
Qed.

Lemma iou_table_size_mismatch (gt_labels pred_labels : list (list Z)) :
  label_image (flatten gt_labels) -> label_image (flatten pred_labels) ->
  length (flatten gt_labels) <> length (flatten pred_labels) ->
  iou_table gt_labels pred_labels = Raise ValueError.
Proof.
  intros HG HP Hlen. unfold iou_table.
  rewrite (relabel_sequential_ok _ HP), (relabel_sequential_ok _ HG).
  cbn [bind]. unfold np_stack2. rewrite !length_map.
  destruct (Nat.eqb_spec (length (flatten pred_labels))
              (length (flatten gt_labels))) as [E|E]; [congruence|].
  reflexivity.
Qed.

Lemma iou_table_empty_pred (gt_labels pred_labels : list (list Z)) :
  flatten pred_labels = [] ->
  iou_table gt_labels pred_labels = Raise ValueError.
Proof. intros E. unfold iou_table. rewrite E. reflexivity. Qed.

Lemma iou_table_empty_gt (gt_labels pred_labels : list (list Z)) :
  label_image (flatten pred_labels) -> flatten gt_labels = [] ->
  iou_table gt_labels pred_labels = Raise ValueError.
Proof.
  intros HP E. unfold iou_table.
  rewrite (relabel_sequential_ok _ HP), E. reflexivity.
Qed.

(** ** The result does not depend on the solver *)

Lemma match_counts_solver_independent
    (lsa1 lsa2 : matrix -> list nat * list nat)
    (gt_labels pred_labels : list (list Z)) (th : Q) :
  lsa_contract lsa1 -> lsa_contract lsa2 ->
  match_counts lsa1 gt_labels pred_labels th
  = match_counts lsa2 gt_labels pred_labels th.
Proof.
  intros H1 H2.
  destruct (iou_table gt_labels pred_labels) as [t|e] eqn:Et.
  - destruct (iou_table_inv _ _ _ Et) as (HG & HP & Hlen).
    destruct (match_counts_spec lsa1 H1 gt_labels pred_labels th HG HP Hlen)
      as (tp1 & -> & Hm1 & _).
    destruct (match_counts_spec lsa2 H2 gt_labels pred_labels th HG HP Hlen)
      as (tp2 & -> & Hm2 & _).
    now rewrite (max_matching_unique _ _ _ Hm1 Hm2).
  - unfold match_counts. rewrite Et. reflexivity.
Qed.

(** ** Remapping the label values *)

Lemma relabeling_nonneg (l : list Z) (f : Z -> Z) (x : Z) :
  relabeling l f -> In x l -> 0 <= x -> 0 <= f x.
Proof.
  intros (H0 & Hpos & _) Hin Hx.
  destruct (Z.eq_dec x 0) as [->|Hnz]; [lia|].
  specialize (Hpos x Hin). lia.
Qed.

Lemma relabeling_inj (l : list Z) (f : Z -> Z) (x y : Z) :
  relabeling l f -> In x l -> In y l -> 0 <= x -> 0 <= y ->
  f x = f y -> x = y.
Proof.
  intros (H0 & Hpos & Hinj) Hxl Hyl Hx Hy E.
  destruct (Z.eq_dec x 0) as [->|Hxnz], (Z.eq_dec y 0) as [->|Hynz].
  - reflexivity.
  - specialize (Hpos y Hyl). lia.
  - specialize (Hpos x Hxl). lia.
  - apply Hinj; [assumption | assumption | lia | lia | exact E].
Qed.

Lemma relabeling_zero (l : list Z) (f : Z -> Z) (x : Z) :
  relabeling l f -> In x l -> 0 <= x -> (f x = 0 <-> x = 0).
Proof.
  intros (H0 & Hpos & _) Hin Hx. split.
  - intros E. destruct (Z.eq_dec x 0) as [->|Hnz]; [reflexivity|].
    specialize (Hpos x Hin). lia.
  - now intros ->.
Qed.

Lemma flatten_relabel_image (f : Z -> Z) (a : list (list Z)) :
  flatten (relabel_image f a) = map f (flatten a).
Proof. unfold flatten, relabel_image. symmetry. apply concat_map. Qed.

Lemma label_image_map (f : Z -> Z) (l : list Z) :
  relabeling l f -> label_image l -> label_image (map f l).
Proof.
  intros Hf [Hne Hpos]. split.
  - destruct l; [congruence | discriminate].
  - rewrite Forall_forall in Hpos. apply Forall_forall. intros y Hy.
    apply in_map_iff in Hy. destruct Hy as (x & <- & Hx).
    apply (relabeling_nonneg l); auto.
Qed.

Lemma num_instances_map (f : Z -> Z) (l : list Z) :
  relabeling l f -> Forall (fun x => 0 <= x) l ->
  num_instances (map f l) = num_instances l.
Proof.
  intros Hf Hpos. rewrite Forall_forall in Hpos. unfold num_instances.
  rewrite <- (length_map f (instances l)).
  apply Permutation_length, NoDup_Permutation.
  - apply instances_NoDup.
  - apply NoDup_map_NoDup_ForallPairs; [|apply instances_NoDup].
    intros x y Hx Hy E. apply instances_In in Hx, Hy.
    apply (relabeling_inj l f); auto; try apply Hpos; tauto.
  - intros y. rewrite instances_In, !in_map_iff. split.
    + intros [(x & <- & Hx) Hnz]. exists x. split; [reflexivity|].
      apply instances_In. split; [exact Hx|]. intros ->.
      destruct Hf as (H0 & _). congruence.
    + intros (x & <- & Hx). apply instances_In in Hx. destruct Hx as [Hx Hnz].
      split; [now exists x|].
      rewrite (relabeling_zero l f x Hf Hx (Hpos x Hx)). exact Hnz.
Qed.

Lemma label_matching_map (f g : Z -> Z) (G P : list Z) (th : Q) (k : nat) :
  relabeling G f -> relabeling P g ->
  Forall (fun x => 0 <= x) G -> Forall (fun x => 0 <= x) P ->
  max_matching (label_edge G P th) k <->
  max_matching (label_edge (map f G) (map g P) th) k.
Proof.
  intros Hf Hg HG HP. rewrite Forall_forall in HG, HP.
  assert (forall a b, In a G -> In b P ->
            stored_iou (map f G) (map g P) (f a) (g b) = stored_iou G P a b)
    as Hiou.
  { intros a b Ha Hb. apply stored_iou_map.
    - intros x Hx E. apply (relabeling_inj G f); auto.
    - intros y Hy E. apply (relabeling_inj P g); auto. }
  apply (max_matching_transport _ _ f g).
  - intros a b (Ha & Hanz & Hb & Hbnz & Hlt). repeat split.
    + now apply in_map.
    + rewrite (relabeling_zero G f a Hf Ha (HG a Ha)). exact Hanz.
    + now apply in_map.
    + rewrite (relabeling_zero P g b Hg Hb (HP b Hb)). exact Hbnz.
    + now rewrite Hiou.
  - intros a b a' b' (Ha & _) (Ha' & _) E.
    apply (relabeling_inj G f); auto.
  - intros a b a' b' (_ & _ & Hb & _) (_ & _ & Hb' & _) E.
    apply (relabeling_inj P g); auto.
  - intros a' b' (Ha & Hanz & Hb & Hbnz & Hlt).
    apply in_map_iff in Ha. destruct Ha as (a & <- & Ha).
    apply in_map_iff in Hb. destruct Hb as (b & <- & Hb).
    exists a, b. split; [|now split].
    repeat split; try assumption.
    + intros ->. destruct Hf as (H0 & _). congruence.
    + intros ->. destruct Hg as (H0 & _). congruence.
    + now rewrite <- Hiou.
Qed.

(** ** Properties of [evaluate] *)

Lemma combine_fst {A B : Type} (l : list A) (l' : list B) :
  length l = length l' -> map fst (combine l l') = l.
Proof.
  revert l'. induction l as [|x l IH]; intros [|y l'] H; simpl in *;
    try discriminate; [reflexivity|].
  f_equal. apply IH. lia.
Qed.

Lemma combine_snd {A B : Type} (l : list A) (l' : list B) :
  length l = length l' -> map snd (combine l l') = l'.
Proof.
  revert l'. induction l as [|x l IH]; intros [|y l'] H; simpl in *;
    try discriminate; [reflexivity|].
  f_equal. apply IH. lia.
Qed.

(** The table returned by [iou_table] is the one described by
    [iou_table_spec]. *)
Lemma iou_table_facts (gt_labels pred_labels : list (list Z))
    (num_gt_labels num_pred_labels : Z) (iouMat : matrix) :
  iou_table gt_labels pred_labels
  = Ok (num_gt_labels, num_pred_labels, iouMat) ->
  exists n m,
    num_gt_labels = Z.of_nat n /\ num_pred_labels = Z.of_nat m /\
    n = num_instances (flatten gt_labels) /\
    m = num_instances (flatten pred_labels) /\
    is_matrix n m iouMat /\
    (forall g p, (g < n)%nat -> (p < m)%nat -> (0 <= entry iouMat g p <= 1)%Q).
Proof.
  intros Ht. destruct (iou_table_inv _ _ _ Ht) as (HG & HP & Hlen).
  destruct (iou_table_spec gt_labels pred_labels HG HP Hlen)
    as (M & Htable & HM & Hentry).
  rewrite Ht in Htable. injection Htable as -> -> ->.
  eexists _, _. repeat split; try reflexivity; try apply HM.
  - apply (table_entries_unit _ _ _ _ M (forward_map_props _ HG)
             (forward_map_props _ HP) Hentry); assumption.
  - apply (table_entries_unit _ _ _ _ M (forward_map_props _ HG)
             (forward_map_props _ HP) Hentry); assumption.
Qed.

Lemma true_positives_branch (lsa : matrix -> list nat * list nat)
    (n m : nat) (M : matrix) (th mx : Q) :
  lsa_contract lsa -> is_matrix n m M ->
  (forall g p, (g < n)%nat -> (p < m)%nat -> (0 <= entry M g p <= 1)%Q) ->
  0 < Z.min (Z.of_nat n) (Z.of_nat m) ->
  np_maxQ (concat M) = Ok mx -> (f32 th < mx)%Q ->
  let sol := lsa (cost_matrix th (Z.min (Z.of_nat n) (Z.of_nat m)) M) in
  true_positives lsa (Z.of_nat n) (Z.of_nat m) M th
  = Ok (Z.of_nat (length (filter (qualifies M (f32 th))
                            (combine (fst sol) (snd sol))))).
Proof.
  intros Hlsa HM Hunit Hpos Hmx Hth sol. unfold true_positives.
  destruct (Z.ltb_spec 0 (Z.min (Z.of_nat n) (Z.of_nat m))); [|lia].
  rewrite Hmx. cbn [bind]. apply Qltb_lt in Hth. rewrite Hth.
  destruct (assignment_saturates lsa Hlsa n m M th HM Hunit)
    as (Hl1 & Hl2 & Hassign & _); [lia|].
  fold sol in Hl1, Hl2, Hassign. fold sol.
  destruct sol as [gt_ind pred_ind]. cbn [fst snd] in *.
  replace (Z.min (Z.of_nat n) (Z.of_nat m) =? Z.of_nat (length gt_ind))
    with true by (symmetry; apply Z.eqb_eq; lia).
  replace (length gt_ind =? length pred_ind)%nat
    with true by (symmetry; apply Nat.eqb_eq; lia).
  cbn [andb].
  destruct Hassign as (_ & _ & _ & Hrange).
  rewrite (fancy_index_ok n m M _ HM Hrange). cbn [bind].
  now rewrite count_nonzero_qualifies.
Qed.

(** In the branch some pair is above the threshold, so the assignment has at
    least one. *)
Lemma branch_has_a_pair (n m : nat) (M : matrix) (th mx : Q) (tp : nat) :
  is_matrix n m M ->
  np_maxQ (concat M) = Ok mx -> (th < mx)%Q ->
  max_matching (above M th n m) tp -> (1 <= tp)%nat.
Proof.
  intros HM Hmx Hth [_ Hmax].
  assert (In mx (concat M)) as Hin.
  { destruct (concat M) as [|x l] eqn:E; [discriminate|].
    cbn [np_maxQ] in Hmx. injection Hmx as <-. apply fold_Qmax_In. }
  apply (In_concat_entry n m M mx HM) in Hin.
  destruct Hin as (g & p & Hg & Hp & E).
  apply (Hmax [(g, p)]). repeat split.
  - repeat constructor. intros [].
  - repeat constructor. intros [].
  - repeat constructor; cbn [fst snd]; [exact Hg | exact Hp |].
    now rewrite E.
Qed.

(** With the IoU taken as the exact ratio of the pixel counts the statement
    fails: for [rounding_gt = [[1,1,1,2,2]]], [rounding_pred = [[1,0,0,2,2]]]
    and the threshold 0.33333333 ([rounding_th]) the branch runs and both
    pairs of instances have an IoU (1/3 and 1) above the threshold, so that
    the largest matching has two pairs, but [evaluate] reports one true
    positive: in float32 the IoU 1/3 and the threshold are the same
    number. *)
Lemma C1_counterexample :
  exists iouMat mx,
    iou_table rounding_gt rounding_pred = Ok (2, 2, iouMat) /\
    np_maxQ (concat iouMat) = Ok mx /\
    (rounding_th < mx)%Q /\ (f32 rounding_th < mx)%Q /\
    (rounding_th < iou (flatten rounding_gt) (flatten rounding_pred) 1 1)%Q /\
    (rounding_th < iou (flatten rounding_gt) (flatten rounding_pred) 2 2)%Q /\
    stored_iou (flatten rounding_gt) (flatten rounding_pred) 1 1
    = f32 rounding_th /\
    match_counts lsa_exhaustive rounding_gt rounding_pred rounding_th
    = Ok (1, 1, 1) /\
    max_matching
      (exact_edge (flatten rounding_gt) (flatten rounding_pred) rounding_th)
      2 /\
    ~ max_matching
        (exact_edge (flatten rounding_gt) (flatten rounding_pred)
           rounding_th) 1.
Proof.
  assert (rounding_th
          < iou (flatten rounding_gt) (flatten rounding_pred) 1 1)%Q
    as H11 by (vm_compute; reflexivity).
  assert (rounding_th
          < iou (flatten rounding_gt) (flatten rounding_pred) 2 2)%Q
    as H22 by (vm_compute; reflexivity).
  assert (max_matching
            (exact_edge (flatten rounding_gt) (flatten rounding_pred)
               rounding_th) 2)
    as Hmax.
  { split.
    - exists [(1, 1); (2, 2)]. split; [|reflexivity].
      split; [|split].
      + repeat constructor; cbn; intuition discriminate.
      + repeat constructor; cbn; intuition discriminate.
      + apply Forall_cons; [|apply Forall_cons; [|apply Forall_nil]];
          cbn [fst snd]; unfold exact_edge;
          (split; [cbn; tauto|]); (split; [discriminate|]);
          (split; [cbn; tauto|]); (split; [discriminate|]); assumption.
    - intros M HM.
      apply (matching_weaken _
               (label_edge (flatten rounding_gt) (flatten rounding_pred)
                  (- (1)))) in HM.
      + apply label_matching_length in HM. exact HM.
      + intros a b (Ha & Hanz & Hb & Hbnz & _).
        repeat split; try assumption.
        apply Qlt_le_trans with 0%Q; [reflexivity|].
        apply stored_iou_bounds. }
  eexists _, _.
  split; [vm_compute; reflexivity|]. split; [reflexivity|].
  split; [vm_compute; reflexivity|]. split; [vm_compute; reflexivity|].
  split; [exact H11|]. split; [exact H22|].
  split; [vm_compute; reflexivity|].
  split; [vm_compute; reflexivity|]. split; [exact Hmax|].
  intros H. pose proof (max_matching_unique _ _ _ Hmax H). discriminate.
Qed.

(** C1 (amended). Whenever the assignment branch of [evaluate] runs
    ([num_matches > 0] and the maximum of the IoU table strictly exceeds the
    threshold, compared in float32), the number of true positives it reports
    is the number of above-threshold pairs of the returned assignment, and
    this number is the maximum cardinality of a one-to-one matching of rows
    (gt) with columns (pred) among the pairs whose entry of the table
    strictly exceeds the threshold rounded to float32; equivalently, of a
    one-to-one matching of ground-truth instances with predicted instances
    whose IoU, as the float32 table stores it, strictly exceeds the threshold
    rounded to float32.  The reason is the dominance of the costs, which
    survives their rounding: a full assignment with more above-threshold
    pairs always has a strictly smaller total cost, whatever the tie-break
    terms are. *)
Theorem C1_assignment_saturates_pairs_above_threshold
    (lsa : matrix -> list nat * list nat)
    (gt_labels pred_labels : list (list Z)) (th : Q)
    (num_gt_labels num_pred_labels : Z) (iouMat : matrix) (mx : Q) :
  lsa_contract lsa ->
  iou_table gt_labels pred_labels
  = Ok (num_gt_labels, num_pred_labels, iouMat) ->
  0 < Z.min num_gt_labels num_pred_labels ->
  np_maxQ (concat iouMat) = Ok mx -> (f32 th < mx)%Q ->
  let num_matches := Z.min num_gt_labels num_pred_labels in
  let n := Z.to_nat num_gt_labels in
  let m := Z.to_nat num_pred_labels in
  let costs := cost_matrix th num_matches iouMat in
  let count a := length (filter (qualifies iouMat (f32 th)) a) in
  let tp := count (combine (fst (lsa costs)) (snd (lsa costs))) in
  true_positives lsa num_gt_labels num_pred_labels iouMat th
  = Ok (Z.of_nat tp) /\
  match_counts lsa gt_labels pred_labels th
  = Ok (Z.of_nat tp, num_pred_labels - Z.of_nat tp,
        num_gt_labels - Z.of_nat tp) /\
  max_matching (above iouMat (f32 th) n m) tp /\
  max_matching (label_edge (flatten gt_labels) (flatten pred_labels) th) tp /\
  (forall a b, assignment n m a -> assignment n m b ->
     (count a < count b)%nat ->
     (assignment_cost costs b < assignment_cost costs a)%Q).
Proof.
  intros Hlsa Ht Hpos Hmx Hth.
  destruct (iou_table_inv _ _ _ Ht) as (HG & HP & Hlen).
  destruct (match_counts_spec lsa Hlsa gt_labels pred_labels th HG HP Hlen)
    as (tp' & Hmc' & Hmax' & _).
  destruct (iou_table_facts _ _ _ _ _ Ht)
    as (n & m & -> & -> & _ & _ & HM & Hunit).
  rewrite !Nat2Z.id. cbv zeta.
  pose proof (true_positives_branch lsa n m iouMat th mx Hlsa HM Hunit
                Hpos Hmx Hth) as Htp.
  cbv zeta in Htp.
  assert (match_counts lsa gt_labels pred_labels th
          = Ok (Z.of_nat (length (filter (qualifies iouMat (f32 th))
                  (combine
                     (fst (lsa (cost_matrix th
                                  (Z.min (Z.of_nat n) (Z.of_nat m)) iouMat)))
                     (snd (lsa (cost_matrix th
                                  (Z.min (Z.of_nat n) (Z.of_nat m)) iouMat)))))),
                Z.of_nat m - _, Z.of_nat n - _)) as Hmc
    by (unfold match_counts; rewrite Ht; cbn [bind]; rewrite Htp; reflexivity).
  split; [exact Htp|]. split; [exact Hmc|]. split; [|split].
  - apply (assignment_saturates lsa Hlsa n m iouMat th HM Hunit). lia.
  - rewrite Hmc in Hmc'. injection Hmc' as E _ _.
    apply Nat2Z.inj in E. rewrite E. exact Hmax'.
  - intros a b Ha Hb Hlt.
    rewrite <- Nat2Z.inj_min in *.
    destruct Ha as (Hla & _ & _ & Hra). destruct Hb as (_ & _ & _ & Hrb).
    destruct (cost_bounds n m iouMat th HM Hunit _ Hpos a Hra) as [Hlow _].
    destruct (cost_bounds n m iouMat th HM Hunit _ Hpos b Hrb) as [_ Hup].
    rewrite Hla in Hlow.
    pose proof (tie_bound_sum _ Hpos) as Hsum.
    change (Qnat (Nat.min n m)) with (inject_Z (Z.of_nat (Nat.min n m)))
      in Hlow.
    apply Qnat_le in Hlt. rewrite Qnat_S in Hlt. lra.
Qed.

Lemma C1_witness :
  max_matching (above [[1; 0]; [0; 3 # 4]]%Q (f32 (1 # 2)) 2 2) 2.
Proof.
  apply (C1_assignment_saturates_pairs_above_threshold lsa_exhaustive
           example_gt example_pred (1 # 2) 2 2
           [[1; 0]; [0; 3 # 4]]%Q 1);
    [apply lsa_exhaustive_contract | vm_compute; reflexivity | reflexivity
    | reflexivity | reflexivity].
Defined.

(** C9. Whenever the assignment branch of [evaluate] is reached, the matrix
    that [evaluate] hands to the solver is a [num_gt] by [num_pred] matrix
    and [num_matches] is the smaller of its two dimensions; a solver that
    meets the documented contract of [scipy.optimize.linear_sum_assignment]
    therefore returns exactly [num_matches] row/column index pairs, every row
    and every column being used at most once and every index being inside the
    table.  Hence the assertion [num_matches == len(gt_ind) == len(pred_ind)]
    holds and the indexing [iouMat[gt_ind, pred_ind]] succeeds: [evaluate]
    counts the returned pairs above the threshold, at least one and at most
    [num_matches], and raises no [AssertionError]. *)
Theorem C9_assignment_has_num_matches_pairs
    (lsa : matrix -> list nat * list nat)
    (gt_labels pred_labels : list (list Z)) (th : Q)
    (num_gt_labels num_pred_labels : Z) (iouMat : matrix) (mx : Q) :
  lsa_contract lsa ->
  iou_table gt_labels pred_labels
  = Ok (num_gt_labels, num_pred_labels, iouMat) ->
  0 < Z.min num_gt_labels num_pred_labels ->
  np_maxQ (concat iouMat) = Ok mx -> (f32 th < mx)%Q ->
  let num_matches := Z.min num_gt_labels num_pred_labels in
  let costs := cost_matrix th num_matches iouMat in
  let gt_ind := fst (lsa costs) in
  let pred_ind := snd (lsa costs) in
  let tp :=
    Z.of_nat (length (filter (qualifies iouMat (f32 th))
                        (combine gt_ind pred_ind))) in
  is_matrix (Z.to_nat num_gt_labels) (Z.to_nat num_pred_labels) costs /\
  num_matches
  = Z.of_nat (Nat.min (Z.to_nat num_gt_labels) (Z.to_nat num_pred_labels)) /\
  num_matches = Z.of_nat (length gt_ind) /\
  length gt_ind = length pred_ind /\
  NoDup gt_ind /\ NoDup pred_ind /\
  Forall (fun g => Z.of_nat g < num_gt_labels) gt_ind /\
  Forall (fun p => Z.of_nat p < num_pred_labels) pred_ind /\
  fancy_index iouMat (combine gt_ind pred_ind)
  = Ok (map (fun ij => entry iouMat (fst ij) (snd ij))
          (combine gt_ind pred_ind)) /\
  true_positives lsa num_gt_labels num_pred_labels iouMat th = Ok tp /\
  1 <= tp <= num_matches /\
  match_counts lsa gt_labels pred_labels th
  = Ok (tp, num_pred_labels - tp, num_gt_labels - tp).
Proof.
  intros Hlsa Ht Hpos Hmx Hth.
  destruct (iou_table_facts _ _ _ _ _ Ht)
    as (n & m & -> & -> & _ & _ & HM & Hunit).
  rewrite !Nat2Z.id. cbv zeta.
  destruct (assignment_saturates lsa Hlsa n m iouMat th HM Hunit)
    as (Hl1 & Hl2 & (Hla & Hnd1 & Hnd2 & Hrange) & Hmax); [lia|].
  pose proof (true_positives_branch lsa n m iouMat th mx Hlsa HM Hunit
                Hpos Hmx Hth) as Htp.
  cbv zeta in Htp.
  pose proof (branch_has_a_pair n m iouMat (f32 th) mx _ HM Hmx Hth Hmax)
    as Hone.
  set (sol := lsa (cost_matrix th (Z.min (Z.of_nat n) (Z.of_nat m)) iouMat))
    in *.
  pose proof (filter_length_le (qualifies iouMat (f32 th))
                (combine (fst sol) (snd sol))) as Hfl.
  rewrite combine_fst in Hnd1 by lia. rewrite combine_snd in Hnd2 by lia.
  assert (map fst (combine (fst sol) (snd sol)) = fst sol) as E1
    by (apply combine_fst; lia).
  assert (map snd (combine (fst sol) (snd sol)) = snd sol) as E2
    by (apply combine_snd; lia).
  split; [apply cost_matrix_is_matrix, HM|].
  split; [lia|]. split; [lia|]. split; [lia|].
  split; [exact Hnd1|]. split; [exact Hnd2|].
  split; [|split; [|split; [|split; [|split]]]].
  - rewrite Forall_forall in Hrange.
    apply Forall_forall. intros g Hg. rewrite <- E1 in Hg.
    apply in_map_iff in Hg. destruct Hg as (ij & <- & Hij).
    destruct (Hrange _ Hij). lia.
  - rewrite Forall_forall in Hrange.
    apply Forall_forall. intros p Hp. rewrite <- E2 in Hp.
    apply in_map_iff in Hp. destruct Hp as (ij & <- & Hij).
    destruct (Hrange _ Hij). lia.
  - exact (fancy_index_ok n m iouMat _ HM Hrange).
  - exact Htp.
  - lia.
  - unfold match_counts. rewrite Ht. cbn [bind]. rewrite Htp. reflexivity.
Qed.

Lemma C9_witness :
  match_counts lsa_exhaustive example_gt example_pred (1 # 2)
  = Ok (2, 0, 0).
Proof.
  apply (C9_assignment_has_num_matches_pairs lsa_exhaustive
           example_gt example_pred (1 # 2) 2 2
           [[1; 0]; [0; 3 # 4]]%Q 1);
    [apply lsa_exhaustive_contract | vm_compute; reflexivity | reflexivity
    | reflexivity | reflexivity].
Defined.

Lemma py_truediv_unit (a b : Z) :
  0 <= a <= b -> 1 <= b ->
  exists q, py_truediv a b = Ok q /\ (0 <= q <= 1)%Q /\
            (a = 0 -> (q == 0)%Q) /\ (a = b -> (q == 1)%Q).
Proof.
  intros Hab Hb. unfold py_truediv.
  destruct (Z.eqb_spec b 0); [lia|].
  eexists. split; [reflexivity|]. split; [now apply Qdiv_Z_bounds|].
  split.
  - intros ->. unfold Qdiv. now rewrite Qmult_0_l.
  - intros ->. apply Qmult_inv_r. unfold Qeq, inject_Z. cbn [Qnum Qden]. lia.
Qed.

(** C10. For well-formed label images of the same size and every threshold,
    [0 <= tp <= min num_gt num_pred], hence [fp = num_pred - tp >= 0] and
    [fn = num_gt - tp >= 0]; precision and recall are computed without error
    and lie in [[0, 1]]; with no predicted (resp. ground-truth) instance the
    [max(1, ...)] guard makes precision (resp. recall) equal to 0. *)
Theorem C10_counts_and_ratios_are_bounded
    (lsa : matrix -> list nat * list nat)
    (gt_labels pred_labels : list (list Z)) (th : Q) :
  lsa_contract lsa ->
  label_image (flatten gt_labels) -> label_image (flatten pred_labels) ->
  length (flatten gt_labels) = length (flatten pred_labels) ->
  exists num_gt_labels num_pred_labels iouMat tp fp fn precision recall,
    iou_table gt_labels pred_labels
    = Ok (num_gt_labels, num_pred_labels, iouMat) /\
    match_counts lsa gt_labels pred_labels th = Ok (tp, fp, fn) /\
    0 <= tp <= Z.min num_gt_labels num_pred_labels /\
    fp = num_pred_labels - tp /\ 0 <= fp /\
    fn = num_gt_labels - tp /\ 0 <= fn /\
    precision_of tp fp = Ok precision /\ recall_of tp fn = Ok recall /\
    (0 <= precision <= 1)%Q /\ (0 <= recall <= 1)%Q /\
    (num_pred_labels = 0 -> (precision == 0)%Q) /\
    (num_gt_labels = 0 -> (recall == 0)%Q) /\
    (1 <= num_gt_labels + num_pred_labels ->
     exists accuracy,
       evaluate lsa gt_labels pred_labels th
       = Ok (precision, recall, accuracy)).
Proof.
  intros Hlsa HG HP Hlen.
  destruct (iou_table_spec gt_labels pred_labels HG HP Hlen)
    as (M & Htable & _).
  destruct (match_counts_spec lsa Hlsa gt_labels pred_labels th HG HP Hlen)
    as (tp & Hmc & _ & Hle).
  set (kg := num_instances (flatten gt_labels)) in *.
  set (kp := num_instances (flatten pred_labels)) in *.
  destruct (py_truediv_unit (Z.of_nat tp)
              (Z.max 1 (Z.of_nat tp + (Z.of_nat kp - Z.of_nat tp))))
    as (p & Hp & Hpu & Hp0 & _); [lia | lia |].
  destruct (py_truediv_unit (Z.of_nat tp)
              (Z.max 1 (Z.of_nat tp + (Z.of_nat kg - Z.of_nat tp))))
    as (r & Hr & Hru & Hr0 & _); [lia | lia |].
  exists (Z.of_nat kg), (Z.of_nat kp), M, (Z.of_nat tp),
    (Z.of_nat kp - Z.of_nat tp), (Z.of_nat kg - Z.of_nat tp), p, r.
  split; [exact Htable|]. split; [exact Hmc|].
  split; [lia|]. split; [reflexivity|]. split; [lia|].
  split; [reflexivity|]. split; [lia|].
  split; [exact Hp|]. split; [exact Hr|].
  split; [exact Hpu|]. split; [exact Hru|].
  split; [intros E; apply Hp0; lia|].
  split; [intros E; apply Hr0; lia|].
  intros Hk.
  destruct (py_truediv_unit (Z.of_nat tp)
              (Z.of_nat tp + (Z.of_nat kp - Z.of_nat tp)
               + (Z.of_nat kg - Z.of_nat tp)))
    as (a & Ha & _); [lia | lia |].
  exists a. unfold evaluate. rewrite Hmc. cbn [bind].
  unfold precision_of, recall_of, accuracy_of in *.
  rewrite Hp, Hr, Ha. reflexivity.
Qed.

Lemma C10_witness :
  exists num_gt_labels num_pred_labels iouMat tp fp fn precision recall,
    iou_table example_gt example_pred
    = Ok (num_gt_labels, num_pred_labels, iouMat) /\
    match_counts lsa_exhaustive example_gt example_pred (1 # 2)
    = Ok (tp, fp, fn) /\
    0 <= tp <= Z.min num_gt_labels num_pred_labels /\
    fp = num_pred_labels - tp /\ 0 <= fp /\
    fn = num_gt_labels - tp /\ 0 <= fn /\
    precision_of tp fp = Ok precision /\ recall_of tp fn = Ok recall /\
    (0 <= precision <= 1)%Q /\ (0 <= recall <= 1)%Q /\
    (num_pred_labels = 0 -> (precision == 0)%Q) /\
    (num_gt_labels = 0 -> (recall == 0)%Q) /\
    (1 <= num_gt_labels + num_pred_labels ->
     exists accuracy,
       evaluate lsa_exhaustive example_gt example_pred (1 # 2)
       = Ok (precision, recall, accuracy)).
Proof.
  apply (C10_counts_and_ratios_are_bounded lsa_exhaustive
           example_gt example_pred (1 # 2)).
  - apply lsa_exhaustive_contract.
  - split; [discriminate | repeat constructor; discriminate].
  - split; [discriminate | repeat constructor; discriminate].
  - reflexivity.
Defined.

(** C4. For fixed well-formed images the number of true positives does not
    increase with the threshold: if [th1 <= th2], the count at [th2] is at most
    the count at [th1]. *)
Theorem C4_true_positives_antitone_in_threshold
    (lsa : matrix -> list nat * list nat)
    (gt_labels pred_labels : list (list Z)) (th1 th2 : Q) :
  lsa_contract lsa ->
  label_image (flatten gt_labels) -> label_image (flatten pred_labels) ->
  length (flatten gt_labels) = length (flatten pred_labels) ->
  (th1 <= th2)%Q ->
  exists tp1 fp1 fn1 tp2 fp2 fn2,
    match_counts lsa gt_labels pred_labels th1 = Ok (tp1, fp1, fn1) /\
    match_counts lsa gt_labels pred_labels th2 = Ok (tp2, fp2, fn2) /\
    tp2 <= tp1.
Proof.
  intros Hlsa HG HP Hlen Hth.
  destruct (match_counts_spec lsa Hlsa gt_labels pred_labels th1 HG HP Hlen)
    as (tp1 & Hmc1 & Hmax1 & _).
  destruct (match_counts_spec lsa Hlsa gt_labels pred_labels th2 HG HP Hlen)
    as (tp2 & Hmc2 & Hmax2 & _).
  do 6 eexists. split; [exact Hmc1|]. split; [exact Hmc2|].
  apply inj_le.
  refine (max_matching_mono _ _ _ _ _ Hmax2 Hmax1).
  intros a b (Ha & Hanz & Hb & Hbnz & Hlt). repeat split; try assumption.
  pose proof (f32_mono th1 th2 Hth). lra.
Qed.

Lemma C4_witness :
  exists tp1 fp1 fn1 tp2 fp2 fn2,
    match_counts lsa_exhaustive example_gt example_pred (1 # 2)
    = Ok (tp1, fp1, fn1) /\
    match_counts lsa_exhaustive example_gt example_pred (4 # 5)
    = Ok (tp2, fp2, fn2) /\
    tp2 <= tp1.
Proof.
  apply (C4_true_positives_antitone_in_threshold lsa_exhaustive
           example_gt example_pred (1 # 2) (4 # 5)).
  - apply lsa_exhaustive_contract.
  - split; [discriminate | repeat constructor; discriminate].
  - split; [discriminate | repeat constructor; discriminate].
  - reflexivity.
  - discriminate.
Defined.

Lemma swap_labels_relabeling (l : list Z) (a b : Z) :
  0 < a -> 0 < b -> relabeling l (swap_labels a b).
Proof.
  intros Ha Hb. unfold relabeling, swap_labels. repeat split.
  - destruct (Z.eqb_spec 0 a), (Z.eqb_spec 0 b); lia.
  - intros x _ Hx. destruct (Z.eqb_spec x a), (Z.eqb_spec x b); lia.
  - intros x y _ _ _ _.
    destruct (Z.eqb_spec x a), (Z.eqb_spec x b),
      (Z.eqb_spec y a), (Z.eqb_spec y b); lia.
Qed.

(** C3. For label images (no negative value), every threshold and every pair
    of remappings of the label values that keep 0 fixed and are one-to-one on
    the non-zero labels of the image, applied independently to [gt_labels]
    and [pred_labels],
    [evaluate] returns exactly the same result on the remapped images as on
    the original ones (the same counts, the same precision, recall and
    accuracy, and the same exception when it raises). *)
Theorem C3_relabel_invariance
    (lsa : matrix -> list nat * list nat)
    (gt_labels pred_labels : list (list Z)) (th : Q) (f g : Z -> Z) :
  lsa_contract lsa ->
  relabeling (flatten gt_labels) f -> relabeling (flatten pred_labels) g ->
  Forall (fun x => 0 <= x) (flatten gt_labels) ->
  Forall (fun x => 0 <= x) (flatten pred_labels) ->
  match_counts lsa (relabel_image f gt_labels) (relabel_image g pred_labels) th
  = match_counts lsa gt_labels pred_labels th /\
  evaluate lsa (relabel_image f gt_labels) (relabel_image g pred_labels) th
  = evaluate lsa gt_labels pred_labels th.
Proof.
  intros Hlsa Hf Hg HGpos HPpos.
  assert (match_counts lsa (relabel_image f gt_labels)
            (relabel_image g pred_labels) th
          = match_counts lsa gt_labels pred_labels th) as Hmc.
  { pose proof (flatten_relabel_image f gt_labels) as EG.
    pose proof (flatten_relabel_image g pred_labels) as EP.
    destruct (flatten pred_labels) as [|y P'] eqn:EP0.
    { unfold match_counts.
      rewrite !iou_table_empty_pred by (assumption || now rewrite EP).
      reflexivity. }
    assert (label_image (flatten pred_labels)) as HP
      by (rewrite EP0; split; [discriminate | exact HPpos]).
    rewrite <- EP0 in *. clear EP0 y P'.
    assert (label_image (flatten (relabel_image g pred_labels))) as HP'
      by (rewrite EP; now apply label_image_map).
    destruct (flatten gt_labels) as [|x G'] eqn:EG0.
    { unfold match_counts.
      rewrite !iou_table_empty_gt by (assumption || now rewrite EG).
      reflexivity. }
    assert (label_image (flatten gt_labels)) as HG
      by (rewrite EG0; split; [discriminate | exact HGpos]).
    rewrite <- EG0 in *. clear EG0 x G'.
    assert (label_image (flatten (relabel_image f gt_labels))) as HG'
      by (rewrite EG; now apply label_image_map).
    destruct (Nat.eq_dec (length (flatten gt_labels))
                (length (flatten pred_labels))) as [Hlen|Hlen].
    - assert (length (flatten (relabel_image f gt_labels))
              = length (flatten (relabel_image g pred_labels))) as Hlen'
        by (rewrite EG, EP, !length_map; exact Hlen).
      destruct (match_counts_spec lsa Hlsa _ _ th HG HP Hlen)
        as (tp & -> & Hmax & _).
      destruct (match_counts_spec lsa Hlsa _ _ th HG' HP' Hlen')
        as (tp' & -> & Hmax' & _).
      rewrite EG, EP in *.
      rewrite !num_instances_map by assumption.
      apply (label_matching_map f g _ _ th tp Hf Hg HGpos HPpos) in Hmax.
      now rewrite (max_matching_unique _ _ _ Hmax Hmax').
    - unfold match_counts.
      rewrite !iou_table_size_mismatch; try assumption; [reflexivity|].
      rewrite EG, EP, !length_map. exact Hlen. }
  split; [exact Hmc|]. unfold evaluate. now rewrite Hmc.
Qed.

Lemma C3_witness :
  evaluate lsa_exhaustive (relabel_image (swap_labels 1 2) example_gt)
    (relabel_image (swap_labels 2 7) example_pred) (1 # 2)
  = evaluate lsa_exhaustive example_gt example_pred (1 # 2).
Proof.
  apply (C3_relabel_invariance lsa_exhaustive example_gt example_pred (1 # 2)
           (swap_labels 1 2) (swap_labels 2 7)).
  - apply lsa_exhaustive_contract.
  - apply swap_labels_relabeling; lia.
  - apply swap_labels_relabeling; lia.
  - repeat constructor; discriminate.
  - repeat constructor; discriminate.
Defined.

Lemma count_occ_diagonal (l : list Z) (a : Z) :
  count_occ Z_eq_dec2 (combine l l) (a, a) = count_occ Z.eq_dec l a.
Proof.
  induction l as [|x l IH]; cbn [combine count_occ]; [reflexivity|].
  destruct (Z_eq_dec2 (x, x) (a, a)) as [E|E], (Z.eq_dec x a) as [E'|E'].
  - now f_equal.
  - congruence.
  - congruence.
  - exact IH.
Qed.

Lemma iou_self (G : list Z) (a : Z) : In a G -> (iou G G a a == 1)%Q.
Proof.
  intros Ha. unfold iou, overlap, size_of. rewrite count_occ_diagonal.
  apply (count_occ_In Z.eq_dec) in Ha.
  set (c := Z.of_nat (count_occ Z.eq_dec G a)).
  replace (c + c - c) with c by lia.
  apply Qmult_inv_r. unfold Qeq, inject_Z. cbn [Qnum Qden]. lia.
Qed.

(** An image matched with itself: every instance is matched. *)
Lemma self_match_counts (lsa : matrix -> list nat * list nat)
    (L : list (list Z)) :
  lsa_contract lsa -> label_image (flatten L) ->
  match_counts lsa L L (1 # 2)
  = Ok (Z.of_nat (num_instances (flatten L)), 0, 0).
Proof.
  intros Hlsa HL.
  destruct (match_counts_spec lsa Hlsa L L (1 # 2) HL HL eq_refl)
    as (tp & -> & [_ Hmax] & Hle).
  set (G := flatten L) in *.
  assert (num_instances G <= tp)%nat as Hge.
  { unfold num_instances.
    rewrite <- (length_map (fun a => (a, a)) (instances G)).
    apply Hmax. repeat split.
    - rewrite map_map. simpl. rewrite map_id. apply instances_NoDup.
    - rewrite map_map. simpl. rewrite map_id. apply instances_NoDup.
    - apply Forall_forall. intros ab Hab.
      apply in_map_iff in Hab. destruct Hab as (a & <- & Ha).
      apply instances_In in Ha. destruct Ha as [Ha Hnz]. simpl.
      repeat split; try assumption.
      rewrite (stored_iou_one G G a a (iou_self G a Ha)).
      vm_compute. reflexivity. }
  assert (tp = num_instances G) as -> by lia.
  now rewrite !Z.sub_diag.
Qed.

(** The image [[[0]]] has no instance; compared with itself, [evaluate] does
    not return precision = recall = accuracy = 1. *)
Lemma C5_counterexample : ~ perfect_match lsa_exhaustive [[0]].
Proof.
  intros (_ & p & r & a & H & _).
  assert (evaluate lsa_exhaustive [[0]] [[0]] (1 # 2)
          = Raise ZeroDivisionError) as E by reflexivity.
  congruence.
Qed.

(** C5 (amended). For every label image [L] with [k >= 1] distinct non-zero
    labels, [evaluate(L, L)] at the default threshold 0.5 yields [tp = k],
    [fp = fn = 0] and [precision = recall = accuracy = 1].  With [k = 0] it
    yields [tp = fp = fn = 0] and the [max(1, ...)] guards make precision and
    recall 0. *)
Theorem C5_perfect_match_with_an_instance
    (lsa : matrix -> list nat * list nat) (L : list (list Z)) :
  lsa_contract lsa -> label_image (flatten L) ->
  ((1 <= num_instances (flatten L))%nat -> perfect_match lsa L) /\
  (num_instances (flatten L) = 0%nat ->
   match_counts lsa L L (1 # 2) = Ok (0, 0, 0) /\
   exists precision recall,
     precision_of 0 0 = Ok precision /\ recall_of 0 0 = Ok recall /\
     (precision == 0)%Q /\ (recall == 0)%Q).
Proof.
  intros Hlsa HL. pose proof (self_match_counts lsa L Hlsa HL) as Hmc.
  split.
  - intros Hk. split; [exact Hmc|].
    set (k := Z.of_nat (num_instances (flatten L))) in *.
    assert (1 <= k) as Hk' by (unfold k; lia).
    destruct (py_truediv_unit k k) as (q & Hq & _ & _ & Hq1); [lia | lia |].
    exists q, q, q. unfold evaluate. rewrite Hmc. cbn [bind].
    unfold precision_of, recall_of, accuracy_of.
    replace (Z.max 1 (k + 0)) with k by lia.
    replace (k + 0 + 0) with k by lia.
    rewrite Hq. cbn [bind]. auto.
  - intros Hk. rewrite Hk in Hmc. split; [exact Hmc|].
    do 2 eexists. split; [reflexivity|]. split; [reflexivity|].
    split; reflexivity.
Qed.

Lemma C5_witness : perfect_match lsa_exhaustive example_gt.
Proof.
  apply (C5_perfect_match_with_an_instance lsa_exhaustive example_gt).
  - apply lsa_exhaustive_contract.
  - split; [discriminate | repeat constructor; discriminate].
  - vm_compute. lia.
Defined.

Lemma num_instances_background (l : list Z) :
  (forall x, In x l -> x = 0) -> num_instances l = 0%nat.
Proof.
  intros H. unfold num_instances.
  destruct (instances l) as [|a s] eqn:E; [reflexivity|].
  assert (In a (instances l)) as Ha by (rewrite E; now left).
  apply instances_In in Ha. destruct Ha as [Ha Hnz].
  now apply H in Ha.
Qed.

(** Two all-background images: the counts are all 0, precision and recall are
    guarded, and the unguarded division for the accuracy raises. *)
Lemma all_background_raises (lsa : matrix -> list nat * list nat)
    (gt_labels pred_labels : list (list Z)) (th : Q) :
  label_image (flatten gt_labels) -> label_image (flatten pred_labels) ->
  length (flatten gt_labels) = length (flatten pred_labels) ->
  (forall x, In x (flatten gt_labels) -> x = 0) ->
  (forall x, In x (flatten pred_labels) -> x = 0) ->
  match_counts lsa gt_labels pred_labels th = Ok (0, 0, 0) /\
  evaluate lsa gt_labels pred_labels th = Raise ZeroDivisionError.
Proof.
  intros HG HP Hlen HG0 HP0.
  destruct (iou_table_spec gt_labels pred_labels HG HP Hlen)
    as (M & Htable & _).
  rewrite (num_instances_background _ HG0) in Htable.
  rewrite (num_instances_background _ HP0) in Htable.
  assert (match_counts lsa gt_labels pred_labels th = Ok (0, 0, 0)) as Hmc.
  { unfold match_counts. rewrite Htable. reflexivity. }
  split; [exact Hmc|]. unfold evaluate. rewrite Hmc. reflexivity.
Qed.

(** C7. On the all-background images [[[0]]] and [[[0]]], [evaluate] computes
    [tp = fp = fn = 0], precision and recall 0 through the [max(1, ...)]
    guards, and then divides [tp] by [tp + fp + fn = 0]: it raises
    [ZeroDivisionError] instead of applying a zero-denominator policy. *)
Theorem C7_all_background_zero_division
    (lsa : matrix -> list nat * list nat) (th : Q) :
  match_counts lsa [[0]] [[0]] th = Ok (0, 0, 0) /\
  precision_of 0 0 = Ok (inject_Z 0 / inject_Z 1)%Q /\
  recall_of 0 0 = Ok (inject_Z 0 / inject_Z 1)%Q /\
  accuracy_of 0 0 0 = Raise ZeroDivisionError /\
  evaluate lsa [[0]] [[0]] th = Raise ZeroDivisionError.
Proof. repeat split. Qed.

(** A 1 by 3 and a 3 by 1 image have different shapes, and [evaluate] returns
    a result without raising. *)
Lemma C8_counterexample :
  shape [[1; 1; 0]] <> shape [[1]; [1]; [0]] /\
  evaluate lsa_exhaustive [[1; 1; 0]] [[1]; [1]; [0]] (1 # 2)
  = Ok (1, 1, 1)%Q.
Proof. split; [discriminate | reflexivity]. Qed.

(** C8 (amended). [evaluate] never compares the shapes of its arguments and
    has no shape-mismatch error: its result depends only on the two flattened
    pixel sequences.  For label images with different numbers of pixels it
    raises [ValueError] (the two flattened arrays cannot be stacked); with the
    same number of pixels, in particular with equal shapes, and at least one
    instance in one of the images no error arises. *)
Theorem C8_only_the_pixel_count_is_checked
    (lsa : matrix -> list nat * list nat)
    (gt_labels pred_labels : list (list Z)) (th : Q) :
  lsa_contract lsa ->
  label_image (flatten gt_labels) -> label_image (flatten pred_labels) ->
  evaluate lsa gt_labels pred_labels th
  = evaluate lsa [flatten gt_labels] [flatten pred_labels] th /\
  (length (flatten gt_labels) <> length (flatten pred_labels) ->
   evaluate lsa gt_labels pred_labels th = Raise ValueError) /\
  (length (flatten gt_labels) = length (flatten pred_labels) ->
   (1 <= num_instances (flatten gt_labels)
         + num_instances (flatten pred_labels))%nat ->
   exists precision recall accuracy,
     evaluate lsa gt_labels pred_labels th
     = Ok (precision, recall, accuracy)).
Proof.
  intros Hlsa HG HP. split; [|split].
  - unfold evaluate, match_counts, iou_table, flatten. simpl concat.
    now rewrite !app_nil_r.
  - intros Hlen. unfold evaluate, match_counts.
    now rewrite iou_table_size_mismatch.
  - intros Hlen Hk.
    destruct (match_counts_spec lsa Hlsa _ _ th HG HP Hlen)
      as (tp & Hmc & _ & Hle).
    set (kg := num_instances (flatten gt_labels)) in *.
    set (kp := num_instances (flatten pred_labels)) in *.
    destruct (py_truediv_unit (Z.of_nat tp)
                (Z.max 1 (Z.of_nat tp + (Z.of_nat kp - Z.of_nat tp))))
      as (p & Hp & _); [lia | lia |].
    destruct (py_truediv_unit (Z.of_nat tp)
                (Z.max 1 (Z.of_nat tp + (Z.of_nat kg - Z.of_nat tp))))
      as (r & Hr & _); [lia | lia |].
    destruct (py_truediv_unit (Z.of_nat tp)
                (Z.of_nat tp + (Z.of_nat kp - Z.of_nat tp)
                 + (Z.of_nat kg - Z.of_nat tp)))
      as (a & Ha & _); [lia | lia |].
    exists p, r, a. unfold evaluate. rewrite Hmc. cbn [bind].
    unfold precision_of, recall_of, accuracy_of.
    rewrite Hp, Hr, Ha. reflexivity.
Qed.

Lemma C8_witness :
  exists precision recall accuracy,
    evaluate lsa_exhaustive example_gt example_pred (1 # 2)
    = Ok (precision, recall, accuracy).
Proof.
  apply (C8_only_the_pixel_count_is_checked lsa_exhaustive
           example_gt example_pred (1 # 2)).
  - apply lsa_exhaustive_contract.
  - split; [discriminate | repeat constructor; discriminate].
  - split; [discriminate | repeat constructor; discriminate].
  - reflexivity.
  - vm_compute. lia.
Defined.

(** C2. For [gt_labels = [[1,1,0],[0,2,2],[0,2,2]]],
    [pred_labels = [[1,1,0],[0,0,2],[0,2,2]]] and threshold 0.5, instance 1
    has IoU 1 and instance 2 has IoU 3/4; [evaluate] computes [tp = 2],
    [fp = 0], [fn = 0] and returns precision = recall = accuracy = 1,
    whichever optimal assignment the solver returns. *)
Theorem C2_example_scenario (lsa : matrix -> list nat * list nat) :
  lsa_contract lsa ->
  (exists iouMat,
     iou_table example_gt example_pred = Ok (2, 2, iouMat) /\
     (entry iouMat 0 0 == 1)%Q /\ (entry iouMat 1 1 == 3 # 4)%Q) /\
  match_counts lsa example_gt example_pred (1 # 2) = Ok (2, 0, 0) /\
  exists precision recall accuracy,
    evaluate lsa example_gt example_pred (1 # 2)
    = Ok (precision, recall, accuracy) /\
    (precision == 1)%Q /\ (recall == 1)%Q /\ (accuracy == 1)%Q.
Proof.
  intros Hlsa.
  assert (match_counts lsa example_gt example_pred (1 # 2) = Ok (2, 0, 0))
    as Hmc.
  { rewrite (match_counts_solver_independent lsa lsa_exhaustive _ _ _ Hlsa
               lsa_exhaustive_contract).
    reflexivity. }
  split; [|split; [exact Hmc|]].
  - eexists. split; [reflexivity|]. split; reflexivity.
  - unfold evaluate. rewrite Hmc. cbn [bind].
    do 3 eexists. split; [reflexivity|]. repeat split; reflexivity.
Qed.

Lemma C2_witness :
  match_counts lsa_exhaustive example_gt example_pred (1 # 2) = Ok (2, 0, 0).
Proof.
  apply (C2_example_scenario lsa_exhaustive lsa_exhaustive_contract).
Defined.

(** ** [compute_affinities] *)

Lemma take_slice_nil {A : Type} (s : nat * nat) : take_slice s (@nil A) = [].
Proof. unfold take_slice. now rewrite skipn_nil, firstn_nil. Qed.

Lemma take_slice_nth {A : Type} (lo len : nat) (l : list A) (i : nat) (d : A) :
  (i < len)%nat -> nth i (take_slice (lo, len) l) d = nth (lo + i) l d.
Proof.
  intros Hi. unfold take_slice. cbn [fst snd].
  rewrite nth_firstn, nth_skipn.
  destruct (Nat.ltb_spec i len); [reflexivity | lia].
Qed.

Lemma map_take_slice_nth (s : nat * nat) (X : list (list Z)) (i : nat) :
  nth i (map (take_slice s) X) [] = take_slice s (nth i X []).
Proof.
  revert i. induction X as [|x X IH]; intros [|i]; simpl;
    auto using take_slice_nil.
Qed.

Lemma broadcast_index (d i : nat) :
  (i < d)%nat -> (if (d =? 1)%nat then 0%nat else i) = i.
Proof. intros H. destruct (Nat.eqb_spec d 1); lia. Qed.

Lemma tabulate2_nth (r c : nat) (F : nat -> nat -> Z) (i j : nat) :
  (i < r)%nat -> (j < c)%nat -> nth j (nth i (tabulate2 r c F) []) 0 = F i j.
Proof.
  intros Hi Hj. unfold tabulate2.
  rewrite (nth_indep _ [] (map (fun j => F 0%nat j) (seq 0 c)))
    by (rewrite length_map, length_seq; exact Hi).
  rewrite (map_nth (fun i => map (fun j => F i j) (seq 0 c))).
  rewrite seq_nth by exact Hi.
  rewrite (nth_indep _ 0 (F (0 + i)%nat 0%nat))
    by (rewrite length_map, length_seq; exact Hj).
  rewrite (map_nth (fun j => F (0 + i)%nat j)).
  rewrite seq_nth by exact Hj. reflexivity.
Qed.

Lemma tabulate2_ext (r c : nat) (F F' : nat -> nat -> Z) :
  (forall i j, (i < r)%nat -> (j < c)%nat -> F i j = F' i j) ->
  tabulate2 r c F = tabulate2 r c F'.
Proof.
  intros H. unfold tabulate2.
  apply map_ext_in. intros i Hi. apply in_seq in Hi.
  apply map_ext_in. intros j Hj. apply in_seq in Hj.
  apply H; lia.
Qed.

Lemma getslice2_represents (seg : list (list Z)) (lo0 len0 lo1 len1 : nat) :
  represents (getslice2 seg (lo0, len0) (lo1, len1)) len0 len1
    (fun i j => pixel seg (lo0 + i) (lo1 + j)).
Proof.
  split; [reflexivity|]. intros i j Hi Hj.
  unfold bget, getslice2, pixel. cbn [nd_shape nd_rows fst snd].
  rewrite !broadcast_index by assumption.
  rewrite map_take_slice_nth, !take_slice_nth by assumption.
  reflexivity.
Qed.

Lemma tabulate2_represents (r c : nat) (F : nat -> nat -> Z) :
  represents (mk_ndarray (r, c) (tabulate2 r c F)) r c F.
Proof.
  split; [reflexivity|]. intros i j Hi Hj.
  unfold bget. cbn [nd_shape nd_rows fst snd].
  rewrite !broadcast_index by assumption.
  now apply tabulate2_nth.
Qed.

Lemma broadcast2_represents (f : Z -> Z -> Z) (a b : ndarray) (r c : nat)
    (F F' : nat -> nat -> Z) :
  represents a r c F -> represents b r c F' ->
  exists e, broadcast2 f a b = Ok e /\
            represents e r c (fun i j => f (F i j) (F' i j)).
Proof.
  intros [Ea Ha] [Eb Hb]. unfold broadcast2, broadcast_dim.
  rewrite Ea, Eb. cbn [fst snd]. rewrite !Nat.eqb_refl. cbn [bind].
  eexists. split; [reflexivity|].
  split; [reflexivity|]. intros i j Hi Hj.
  destruct (tabulate2_represents r c
              (fun i j => f (bget a i j) (bget b i j))) as [_ Ht].
  rewrite Ht by assumption. now rewrite Ha, Hb.
Qed.

Lemma nd_map_positive_represents (a : ndarray) (r c : nat)
    (F : nat -> nat -> Z) :
  represents a r c F ->
  represents (nd_map np_positive a) r c (fun i j => np_positive (F i j)).
Proof.
  intros [Ea Ha]. split; [exact Ea|]. intros i j Hi Hj.
  rewrite <- Ha by assumption.
  unfold bget, nd_map. cbn [nd_shape nd_rows].
  change (@nil Z) with (map np_positive []) at 1.
  rewrite (map_nth (map np_positive)).
  change 0 with (np_positive 0) at 1.
  now rewrite (map_nth np_positive).
Qed.

Lemma setslice2_represents (h w : nat) (plane : list (list Z))
    (s0 s1 : nat * nat) (value : ndarray) (F : nat -> nat -> Z) :
  represents value (snd s0) (snd s1) F ->
  setslice2 h w plane s0 s1 value
  = Ok (tabulate2 h w (fun i j =>
          if in_slice s0 i && in_slice s1 j
          then F (i - fst s0)%nat (j - fst s1)%nat
          else nth j (nth i plane []) 0)).
Proof.
  intros [Ev Hv]. unfold setslice2. rewrite Ev. cbn [fst snd].
  rewrite !Nat.eqb_refl. cbn [orb andb]. f_equal.
  apply tabulate2_ext. intros i j Hi Hj.
  unfold in_slice.
  destruct (Nat.leb_spec (fst s0) i), (Nat.ltb_spec i (fst s0 + snd s0)),
    (Nat.leb_spec (fst s1) j), (Nat.ltb_spec j (fst s1 + snd s1));
    cbn [andb]; try reflexivity.
  apply Hv; lia.
Qed.

(** The slices taken on one axis of length [n] for an offset [o] that does
    not exceed the axis. *)
Lemma py_slice_target (n : nat) (o : Z) :
  Z.abs o <= Z.of_nat n ->
  py_slice (Z.max 0 (- o)) (Z.min (Z.of_nat n) (Z.of_nat n - o)) n
  = (Z.to_nat (Z.max 0 (- o)), Z.to_nat (Z.of_nat n - Z.abs o)).
Proof.
  intros H. unfold py_slice, slice_bound.
  destruct (Z.ltb_spec (Z.max 0 (- o)) 0); [lia|].
  destruct (Z.ltb_spec (Z.min (Z.of_nat n) (Z.of_nat n - o)) 0); [lia|].
  f_equal; lia.
Qed.

Lemma py_slice_source (n : nat) (o : Z) :
  Z.abs o <= Z.of_nat n ->
  py_slice (Z.max 0 o) (Z.min (Z.of_nat n) (Z.of_nat n + o)) n
  = (Z.to_nat (Z.max 0 o), Z.to_nat (Z.of_nat n - Z.abs o)).
Proof.
  intros H. unfold py_slice, slice_bound.
  destruct (Z.ltb_spec (Z.max 0 o) 0); [lia|].
  destruct (Z.ltb_spec (Z.min (Z.of_nat n) (Z.of_nat n + o)) 0); [lia|].
  f_equal; lia.
Qed.

(** For an offset that does not exceed the image in any direction the plane
    is the one the specification describes. *)
Lemma affinity_plane_within_image (seg : list (list Z)) (off : Z * Z) :
  Z.abs (fst off) <= Z.of_nat (fst (shape seg)) ->
  Z.abs (snd off) <= Z.of_nat (snd (shape seg)) ->
  affinity_plane seg off
  = Ok (tabulate2 (fst (shape seg)) (snd (shape seg)) (affinity_spec seg off)).
Proof.
  destruct off as [o0 o1]. cbn [fst snd]. intros H0 H1.
  unfold affinity_plane.
  destruct (shape seg) as [h w] eqn:Es. cbn [fst snd] in *.
  rewrite !py_slice_target, !py_slice_source by assumption.
  set (len0 := Z.to_nat (Z.of_nat h - Z.abs o0)).
  set (len1 := Z.to_nat (Z.of_nat w - Z.abs o1)).
  set (t0 := Z.to_nat (Z.max 0 (- o0))). set (t1 := Z.to_nat (Z.max 0 (- o1))).
  set (u0 := Z.to_nat (Z.max 0 o0)). set (u1 := Z.to_nat (Z.max 0 o1)).
  pose proof (getslice2_represents seg t0 len0 t1 len1) as Ha.
  pose proof (getslice2_represents seg u0 len0 u1 len1) as Hb.
  destruct (broadcast2_represents np_equal _ _ _ _ _ _ Ha Hb) as (e & -> & He).
  cbn [bind].
  destruct (broadcast2_represents Z.mul _ _ _ _ _ _ He
              (nd_map_positive_represents _ _ _ _ Ha)) as (e1 & -> & He1).
  cbn [bind].
  destruct (broadcast2_represents Z.mul _ _ _ _ _ _ He1
              (nd_map_positive_represents _ _ _ _ Hb)) as (e2 & -> & He2).
  cbn [bind].
  rewrite (setslice2_represents h w _ (t0, len0) (t1, len1) e2 _ He2).
  f_equal. apply tabulate2_ext. intros i j Hi Hj.
  unfold affinity_spec. rewrite Es. cbn [fst snd].
  rewrite tabulate2_nth by assumption.
  unfold in_slice. cbn [fst snd].
  destruct (Nat.leb_spec t0 i), (Nat.ltb_spec i (t0 + len0)),
    (Nat.leb_spec t1 j), (Nat.ltb_spec j (t1 + len1)); cbn [andb];
    destruct (Z.leb_spec 0 (Z.of_nat i + o0)),
      (Z.ltb_spec (Z.of_nat i + o0) (Z.of_nat h)),
      (Z.leb_spec 0 (Z.of_nat j + o1)),
      (Z.ltb_spec (Z.of_nat j + o1) (Z.of_nat w)); cbn [andb];
    try reflexivity; try lia.
  replace (t0 + (i - t0))%nat with i by lia.
  replace (t1 + (j - t1))%nat with j by lia.
  replace (u0 + (i - t0))%nat with (Z.to_nat (Z.of_nat i + o0)) by lia.
  replace (u1 + (j - t1))%nat with (Z.to_nat (Z.of_nat j + o1)) by lia.
  unfold np_equal, np_positive, Z_of_bool.
  destruct (_ =? _), (0 <? pixel seg i j), (0 <? _); reflexivity.
Qed.

(** What the specified affinity means. *)
Lemma affinity_spec_one (seg : list (list Z)) (off : Z * Z) (i j : nat) :
  let i' := Z.of_nat i + fst off in
  let j' := Z.of_nat j + snd off in
  (affinity_spec seg off i j = 1 <->
   0 <= i' < Z.of_nat (fst (shape seg)) /\
   0 <= j' < Z.of_nat (snd (shape seg)) /\
   pixel seg i j = pixel seg (Z.to_nat i') (Z.to_nat j') /\
   0 < pixel seg i j /\ 0 < pixel seg (Z.to_nat i') (Z.to_nat j')) /\
  (affinity_spec seg off i j = 0 \/ affinity_spec seg off i j = 1).
Proof.
  intros i' j'. unfold affinity_spec. fold i' j'.
  destruct (Z.leb_spec 0 i'), (Z.ltb_spec i' (Z.of_nat (fst (shape seg)))),
    (Z.leb_spec 0 j'), (Z.ltb_spec j' (Z.of_nat (snd (shape seg))));
    cbn [andb]; try (split; [split; [discriminate | lia] | now left]).
  destruct (Z.eqb_spec (pixel seg i j) (pixel seg (Z.to_nat i') (Z.to_nat j'))),
    (Z.ltb_spec 0 (pixel seg i j)),
    (Z.ltb_spec 0 (pixel seg (Z.to_nat i') (Z.to_nat j')));
    cbn [andb Z_of_bool];
    (split; [split; [try discriminate; intros; repeat split; lia
                    | try reflexivity; lia]
            | auto]).
Qed.

(** The identity offset: the plane is [seg > 0]. *)
Lemma affinity_spec_identity (seg : list (list Z)) (i j : nat) :
  (i < fst (shape seg))%nat -> (j < snd (shape seg))%nat ->
  affinity_spec seg (0, 0) i j = np_positive (pixel seg i j).
Proof.
  intros Hi Hj. unfold affinity_spec. cbn [fst snd].
  rewrite !Z.add_0_r, !Nat2Z.id.
  destruct (Z.leb_spec 0 (Z.of_nat i)),
    (Z.ltb_spec (Z.of_nat i) (Z.of_nat (fst (shape seg)))),
    (Z.leb_spec 0 (Z.of_nat j)),
    (Z.ltb_spec (Z.of_nat j) (Z.of_nat (snd (shape seg)))); try lia.
  cbn [andb]. rewrite Z.eqb_refl. unfold np_positive.
  now destruct (0 <? pixel seg i j).
Qed.

Lemma for_each_plane_within_image (seg : list (list Z))
    (nhood : list (Z * Z)) :
  Forall (fun off => Z.abs (fst off) <= Z.of_nat (fst (shape seg)) /\
                     Z.abs (snd off) <= Z.of_nat (snd (shape seg))) nhood ->
  for_each (affinity_plane seg) nhood
  = Ok (map (fun off => tabulate2 (fst (shape seg)) (snd (shape seg))
                          (affinity_spec seg off)) nhood).
Proof.
  induction 1 as [|off l [H0 H1] _ IH]; [reflexivity|].
  cbn [for_each map].
  rewrite affinity_plane_within_image by assumption. cbn [bind].
  rewrite IH. reflexivity.
Qed.

Lemma compute_affinities_within_image (seg : list (list Z))
    (nhood : list (Z * Z)) :
  nhood <> [] ->
  Forall (fun off => Z.abs (fst off) <= Z.of_nat (fst (shape seg)) /\
                     Z.abs (snd off) <= Z.of_nat (snd (shape seg))) nhood ->
  compute_affinities seg nhood
  = Ok (map (fun off => tabulate2 (fst (shape seg)) (snd (shape seg))
                          (affinity_spec seg off)) nhood).
Proof.
  intros Hne Hall. unfold compute_affinities.
  destruct nhood as [|off0 rest]; [congruence|].
  now apply for_each_plane_within_image.
Qed.

(** C6. On a 3 by 3 image and the offset [(4, 0)], which is larger than the
    image, [compute_affinities] does not return an all-zero plane: the stop of
    the target slice, [min(3, 3 - 4) = -1], counts from the end, the target
    slice has two rows and the shifted slice none, and the elementwise
    comparison raises [ValueError]. *)
Theorem C6_offset_beyond_image_raises :
  let seg := [[1; 1; 1]; [1; 1; 1]; [1; 1; 1]] in
  py_slice (Z.max 0 (- 4)) (Z.min 3 (3 - 4)) 3 = (0%nat, 2%nat) /\
  py_slice (Z.max 0 4) (Z.min 3 (3 + 4)) 3 = (3%nat, 0%nat) /\
  compute_affinities seg [(4, 0)] = Raise ValueError /\
  compute_affinities seg [(4, 0)]
  <> Ok [tabulate2 3 3 (affinity_spec seg (4, 0))].
Proof. repeat split. discriminate. Qed.

(** * Further properties *)

(** ** Which exceptions [evaluate] raises *)

Lemma relabel_sequential_raises (l : list Z) (e : exn) :
  relabel_sequential l = Raise e -> e = ValueError.
Proof.
  unfold relabel_sequential. destruct l as [|x l]; cbn [np_min bind].
  - congruence.
  - destruct (_ <? 0); congruence.
Qed.

Lemma iou_table_raises (gt_labels pred_labels : list (list Z)) (e : exn) :
  iou_table gt_labels pred_labels = Raise e ->
  e = ValueError /\ ~ well_formed gt_labels pred_labels.
Proof.
  intros H.
  assert (~ well_formed gt_labels pred_labels) as Hnwf.
  { intros (HG & HP & Hlen).
    destruct (iou_table_spec gt_labels pred_labels HG HP Hlen) as (M & E & _).
    congruence. }
  split; [|exact Hnwf].
  unfold iou_table in H.
  destruct (relabel_sequential (flatten pred_labels)) as [Pr|e1] eqn:EP.
  2:{ cbn [bind] in H. injection H as <-.
      now apply relabel_sequential_raises in EP. }
  destruct (relabel_sequential (flatten gt_labels)) as [Gr|e1] eqn:EG.
  2:{ cbn [bind] in H. injection H as <-.
      now apply relabel_sequential_raises in EG. }
  apply relabel_sequential_inv in EP. destruct EP as [HP ->].
  apply relabel_sequential_inv in EG. destruct EG as [HG ->].
  cbn [bind] in H. unfold np_stack2 in H. rewrite !length_map in H.
  destruct (Nat.eqb_spec (length (flatten pred_labels))
              (length (flatten gt_labels))) as [E|E].
  - exfalso. apply Hnwf. split; [exact HG | split; [exact HP | now symmetry]].
  - cbn [bind] in H. congruence.
Qed.

Lemma evaluate_well_formed (lsa : matrix -> list nat * list nat)
    (gt_labels pred_labels : list (list Z)) (th : Q) :
  lsa_contract lsa -> well_formed gt_labels pred_labels ->
  exists tp : nat,
    let kg := Z.of_nat (num_instances (flatten gt_labels)) in
    let kp := Z.of_nat (num_instances (flatten pred_labels)) in
    Z.of_nat tp <= Z.min kg kp /\
    max_matching (label_edge (flatten gt_labels) (flatten pred_labels) th) tp /\
    match_counts lsa gt_labels pred_labels th
    = Ok (Z.of_nat tp, kp - Z.of_nat tp, kg - Z.of_nat tp) /\
    evaluate lsa gt_labels pred_labels th
    = if kg + kp =? 0 then Raise ZeroDivisionError
      else Ok (inject_Z (Z.of_nat tp) / inject_Z (Z.max 1 kp),
               inject_Z (Z.of_nat tp) / inject_Z (Z.max 1 kg),
               inject_Z (Z.of_nat tp) / inject_Z (kg + kp - Z.of_nat tp))%Q.
Proof.
  intros Hlsa (HG & HP & Hlen).
  destruct (match_counts_spec lsa Hlsa gt_labels pred_labels th HG HP Hlen)
    as (tp & Hmc & Hmax & Hle).
  exists tp. cbv zeta.
  set (kg := Z.of_nat (num_instances (flatten gt_labels))) in *.
  set (kp := Z.of_nat (num_instances (flatten pred_labels))) in *.
  split; [lia|]. split; [exact Hmax|]. split; [exact Hmc|].
  unfold evaluate. rewrite Hmc. cbn [bind].
  unfold precision_of, recall_of, accuracy_of, py_truediv.
  replace (Z.of_nat tp + (kp - Z.of_nat tp)) with kp by lia.
  replace (Z.of_nat tp + (kg - Z.of_nat tp)) with kg by lia.
  replace (kp + (kg - Z.of_nat tp)) with (kg + kp - Z.of_nat tp) by lia.
  destruct (Z.eqb_spec (Z.max 1 kp) 0); [lia|].
  destruct (Z.eqb_spec (Z.max 1 kg) 0); [lia|]. cbn [bind].
  destruct (Z.eqb_spec (kg + kp) 0) as [E|E];
    destruct (Z.eqb_spec (kg + kp - Z.of_nat tp) 0); try lia; reflexivity.
Qed.

Lemma evaluate_ill_formed (lsa : matrix -> list nat * list nat)
    (gt_labels pred_labels : list (list Z)) (th : Q) :
  ~ well_formed gt_labels pred_labels ->
  match_counts lsa gt_labels pred_labels th = Raise ValueError /\
  evaluate lsa gt_labels pred_labels th = Raise ValueError.
Proof.
  intros Hn.
  assert (match_counts lsa gt_labels pred_labels th = Raise ValueError) as Hmc.
  { unfold match_counts.
    destruct (iou_table gt_labels pred_labels) as [t|e] eqn:Et.
    - exfalso. apply Hn. exact (iou_table_inv _ _ _ Et).
    - apply iou_table_raises in Et. destruct Et as [-> _]. reflexivity. }
  split; [exact Hmc|]. unfold evaluate. now rewrite Hmc.
Qed.

Lemma well_formed_dec (gt_labels pred_labels : list (list Z)) :
  well_formed gt_labels pred_labels \/ ~ well_formed gt_labels pred_labels.
Proof.
  destruct (iou_table gt_labels pred_labels) as [t|e] eqn:Et.
  - left. exact (iou_table_inv _ _ _ Et).
  - right. now apply iou_table_raises in Et.
Qed.

Lemma num_instances_zero (l : list Z) :
  num_instances l = 0%nat <-> (forall x, In x l -> x = 0).
Proof.
  split; [|apply num_instances_background].
  intros H x Hx. destruct (Z.eq_dec x 0) as [E|E]; [exact E|].
  exfalso. unfold num_instances in H. apply length_zero_iff_nil in H.
  assert (In x (instances l)) as Hin by (apply instances_In; now split).
  now rewrite H in Hin.
Qed.

Lemma some_instance (G P : list Z) :
  Z.of_nat (num_instances G) + Z.of_nat (num_instances P) <> 0 <->
  exists x, (In x G \/ In x P) /\ x <> 0.
Proof.
  split.
  - intros H.
    destruct (instances G) as [|a s] eqn:EG.
    + destruct (instances P) as [|b s] eqn:EP.
      * exfalso. apply H. unfold num_instances. now rewrite EG, EP.
      * assert (In b (instances P)) as Hb by (rewrite EP; now left).
        apply instances_In in Hb. exists b. tauto.
    + assert (In a (instances G)) as Ha by (rewrite EG; now left).
      apply instances_In in Ha. exists a. tauto.
  - intros (x & [Hx|Hx] & Hnz) H.
    + assert (num_instances G = 0%nat) as E by lia.
      rewrite num_instances_zero in E. now apply E in Hx.
    + assert (num_instances P = 0%nat) as E by lia.
      rewrite num_instances_zero in E. now apply E in Hx.
Qed.

(** X1. Which exceptions [evaluate] raises, for a solver that returns an
    optimal assignment. It raises [ValueError] exactly when the images
    are not well formed (an image has no pixel or a negative label, or
    the two images differ in their number of pixels); it raises
    [ZeroDivisionError] exactly when the images are well formed and all
    pixels of both are background; it returns the three ratios exactly
    when the images are well formed and some pixel of one of them is not
    background. *)
Theorem X1_evaluate_exceptions
    (lsa : matrix -> list nat * list nat)
    (gt_labels pred_labels : list (list Z)) (th : Q) :
  lsa_contract lsa ->
  let G := flatten gt_labels in
  let P := flatten pred_labels in
  (evaluate lsa gt_labels pred_labels th = Raise ValueError <->
   ~ well_formed gt_labels pred_labels) /\
  (evaluate lsa gt_labels pred_labels th = Raise ZeroDivisionError <->
   well_formed gt_labels pred_labels /\
   (forall x, In x G -> x = 0) /\ (forall x, In x P -> x = 0)) /\
  ((exists precision recall accuracy,
      evaluate lsa gt_labels pred_labels th
      = Ok (precision, recall, accuracy)) <->
   well_formed gt_labels pred_labels /\
   exists x, (In x G \/ In x P) /\ x <> 0).
Proof.
  intros Hlsa G P.
  destruct (well_formed_dec gt_labels pred_labels) as [Hwf|Hn].
  - destruct (evaluate_well_formed lsa gt_labels pred_labels th Hlsa Hwf)
      as (tp & _ & _ & _ & Hev).
    cbv zeta in Hev. fold G P in Hev.
    pose proof (some_instance G P) as Hsome.
    pose proof (num_instances_zero G) as HzG.
    pose proof (num_instances_zero P) as HzP.
    destruct (Z.eqb_spec (Z.of_nat (num_instances G)
                          + Z.of_nat (num_instances P)) 0) as [E|E];
      rewrite Hev.
    + split; [split; [discriminate | tauto]|].
      split.
      * split; [intros _|reflexivity].
        split; [exact Hwf|]. split; [apply HzG | apply HzP]; lia.
      * split; [intros (p & r & a & H); discriminate|].
        intros [_ H]. apply Hsome in H. contradiction.
    + split; [split; [discriminate | tauto]|].
      split.
      * split; [discriminate|]. intros (_ & H1 & H2).
        apply HzG in H1. apply HzP in H2. lia.
      * split; [intros _; split; [exact Hwf | now apply Hsome]|].
        intros _. eauto.
  - destruct (evaluate_ill_formed lsa gt_labels pred_labels th Hn) as [_ Hev].
    rewrite Hev. split; [tauto|]. split.
    + split; [discriminate | tauto].
    + split; [intros (p & r & a & H); discriminate | tauto].
Qed.

Lemma X1_witness :
  exists precision recall accuracy,
    evaluate lsa_exhaustive example_gt example_pred (1 # 2)
    = Ok (precision, recall, accuracy).
Proof.
  apply (X1_evaluate_exceptions lsa_exhaustive example_gt example_pred (1 # 2)
           lsa_exhaustive_contract).
  split.
  - repeat split; try discriminate; repeat constructor; discriminate.
  - exists 1. split; [left; simpl; tauto | discriminate].
Defined.

(** ** Exchanging ground truth and prediction *)

Lemma max_matching_ext {A B : Type} (E1 E2 : A -> B -> Prop) (k : nat) :
  (forall a b, E1 a b <-> E2 a b) -> max_matching E1 k <-> max_matching E2 k.
Proof.
  intros H. split; intros [(M & HM & <-) Hmax]; split.
  - exists M. split; [|reflexivity].
    apply (matching_weaken E1); [apply H | exact HM].
  - intros M' HM'. apply Hmax.
    apply (matching_weaken E2); [apply H | exact HM'].
  - exists M. split; [|reflexivity].
    apply (matching_weaken E2); [apply H | exact HM].
  - intros M' HM'. apply Hmax.
    apply (matching_weaken E1); [apply H | exact HM'].
Qed.

Lemma matching_flip {A B : Type} (E : A -> B -> Prop) (M : list (A * B)) :
  matching E M -> matching (fun b a => E a b) (map flip M).
Proof.
  intros (H1 & H2 & H3). repeat split.
  - rewrite map_map. exact H2.
  - rewrite map_map. exact H1.
  - apply Forall_map. eapply Forall_impl; [|exact H3]. now intros [a b].
Qed.

Lemma max_matching_flip {A B : Type} (E : A -> B -> Prop) (k : nat) :
  max_matching E k -> max_matching (fun b a => E a b) k.
Proof.
  intros [(M & HM & <-) Hmax]. split.
  - exists (map flip M). split; [now apply matching_flip | apply length_map].
  - intros M' HM'. rewrite <- (length_map flip). apply Hmax.
    apply (matching_flip (fun b a => E a b)) in HM'. exact HM'.
Qed.

Lemma count_occ_combine_swap (l l' : list Z) (x y : Z) :
  count_occ Z_eq_dec2 (combine l l') (x, y)
  = count_occ Z_eq_dec2 (combine l' l) (y, x).
Proof.
  revert l'. induction l as [|a l IH]; intros [|b l']; try reflexivity.
  cbn [combine count_occ]. rewrite IH.
  destruct (Z_eq_dec2 (a, b) (x, y)) as [E|E],
    (Z_eq_dec2 (b, a) (y, x)) as [E'|E']; try reflexivity;
    exfalso; [apply E' | apply E]; congruence.
Qed.

Lemma iou_swap (G P : list Z) (a b : Z) : iou G P a b = iou P G b a.
Proof.
  unfold iou, overlap. rewrite (count_occ_combine_swap P G b a).
  do 3 f_equal. lia.
Qed.

(** X2. Exchanging the ground truth and the prediction exchanges precision
    and recall and leaves the accuracy as it is; when one order raises
    an exception the other order raises the same one. *)
Theorem X2_exchanging_arguments_exchanges_precision_and_recall
    (lsa : matrix -> list nat * list nat)
    (gt_labels pred_labels : list (list Z)) (th : Q) :
  lsa_contract lsa ->
  evaluate lsa pred_labels gt_labels th
  = swap_result (evaluate lsa gt_labels pred_labels th).
Proof.
  intros Hlsa.
  destruct (well_formed_dec gt_labels pred_labels) as [Hwf|Hn].
  - assert (well_formed pred_labels gt_labels) as Hwf'
      by (destruct Hwf as (HG & HP & Hlen);
          split; [exact HP | split; [exact HG | now symmetry]]).
    destruct (evaluate_well_formed lsa gt_labels pred_labels th Hlsa Hwf)
      as (tp & _ & Hmax & _ & ->).
    destruct (evaluate_well_formed lsa pred_labels gt_labels th Hlsa Hwf')
      as (tp' & _ & Hmax' & _ & ->).
    assert (tp' = tp) as ->.
    { apply max_matching_flip in Hmax.
      eapply max_matching_unique; [exact Hmax'|].
      eapply max_matching_ext; [|exact Hmax].
      intros b a. unfold label_edge, stored_iou.
      rewrite (iou_swap _ _ a b). tauto. }
    set (kg := Z.of_nat (num_instances (flatten gt_labels))).
    set (kp := Z.of_nat (num_instances (flatten pred_labels))).
    replace (kp + kg) with (kg + kp) by lia.
    destruct (kg + kp =? 0); reflexivity.
  - assert (~ well_formed pred_labels gt_labels) as Hn'.
    { intros (HG & HP & Hlen). apply Hn.
      split; [exact HP | split; [exact HG | now symmetry]]. }
    destruct (evaluate_ill_formed lsa gt_labels pred_labels th Hn) as [_ ->].
    destruct (evaluate_ill_formed lsa pred_labels gt_labels th Hn') as [_ ->].
    reflexivity.
Qed.

Lemma X2_witness :
  evaluate lsa_exhaustive example_pred example_gt (1 # 2)
  = swap_result (evaluate lsa_exhaustive example_gt example_pred (1 # 2)).
Proof.
  apply (X2_exchanging_arguments_exchanges_precision_and_recall
           lsa_exhaustive example_gt example_pred (1 # 2)
           lsa_exhaustive_contract).
Defined.

(** ** Another solver *)

Lemma combine_app_same {A B : Type} (l1 l2 : list A) (l1' l2' : list B) :
  length l1 = length l1' ->
  combine (l1 ++ l2) (l1' ++ l2') = combine l1 l1' ++ combine l2 l2'.
Proof.
  revert l1'. induction l1 as [|x l1 IH]; intros [|y l1'] H; simpl in *;
    try discriminate; [reflexivity|].
  f_equal. apply IH. lia.
Qed.

Lemma combine_rev {A B : Type} (l : list A) (l' : list B) :
  length l = length l' -> combine (rev l) (rev l') = rev (combine l l').
Proof.
  revert l'. induction l as [|x l IH]; intros [|y l'] H; simpl in *;
    try discriminate; [reflexivity|].
  rewrite <- IH by lia.
  rewrite combine_app_same by (rewrite !length_rev; lia). reflexivity.
Qed.

Lemma assignment_cost_app (costs : matrix) (a b : list (nat * nat)) :
  (assignment_cost costs (a ++ b)
   == assignment_cost costs a + assignment_cost costs b)%Q.
Proof.
  unfold assignment_cost.
  induction a as [|ij a IH]; cbn [app fold_right].
  - lra.
  - rewrite IH. lra.
Qed.

Lemma assignment_cost_rev (costs : matrix) (a : list (nat * nat)) :
  (assignment_cost costs (rev a) == assignment_cost costs a)%Q.
Proof.
  induction a as [|ij a IH]; cbn [rev]; [reflexivity|].
  rewrite assignment_cost_app, IH.
  unfold assignment_cost. cbn [fold_right]. lra.
Qed.

Lemma lsa_reversed_contract : lsa_contract lsa_reversed.
Proof.
  intros n m costs HM.
  destruct (lsa_exhaustive_contract n m costs HM)
    as (Hlen & (Hl & H1 & H2 & H3) & Hopt).
  unfold lsa_reversed, optimal_assignment. cbn [fst snd].
  rewrite combine_rev by exact Hlen.
  split; [now rewrite !length_rev|]. split.
  - split; [now rewrite length_rev|].
    rewrite !map_rev. split; [now apply NoDup_rev|].
    split; [now apply NoDup_rev | now apply Forall_rev].
  - intros a Ha. rewrite assignment_cost_rev. now apply Hopt.
Qed.

(** X3. Two solvers that both return an optimal assignment give the same
    result of [evaluate], whatever they do when several assignments are
    optimal: the result does not depend on how the solver breaks ties. *)
Theorem X3_result_does_not_depend_on_the_solver
    (lsa1 lsa2 : matrix -> list nat * list nat)
    (gt_labels pred_labels : list (list Z)) (th : Q) :
  lsa_contract lsa1 -> lsa_contract lsa2 ->
  evaluate lsa1 gt_labels pred_labels th
  = evaluate lsa2 gt_labels pred_labels th.
Proof.
  intros H1 H2. unfold evaluate.
  now rewrite (match_counts_solver_independent lsa1 lsa2 _ _ _ H1 H2).
Qed.

Lemma X3_witness :
  evaluate lsa_exhaustive example_gt example_pred (1 # 2)
  = evaluate lsa_reversed example_gt example_pred (1 # 2).
Proof.
  apply (X3_result_does_not_depend_on_the_solver lsa_exhaustive lsa_reversed
           example_gt example_pred (1 # 2)
           lsa_exhaustive_contract lsa_reversed_contract).
Defined.

(** ** Extreme thresholds and images without overlap *)

Lemma Qdiv_Z_zero (d : Z) : (inject_Z 0 / inject_Z d == 0)%Q.
Proof. unfold Qdiv. now rewrite Qmult_0_l. Qed.

Lemma no_edge_counts (lsa : matrix -> list nat * list nat)
    (gt_labels pred_labels : list (list Z)) (th : Q) :
  lsa_contract lsa -> well_formed gt_labels pred_labels ->
  (forall a b,
     ~ label_edge (flatten gt_labels) (flatten pred_labels) th a b) ->
  match_counts lsa gt_labels pred_labels th
  = Ok (0, Z.of_nat (num_instances (flatten pred_labels)),
        Z.of_nat (num_instances (flatten gt_labels))) /\
  ((exists x, (In x (flatten gt_labels) \/ In x (flatten pred_labels))
              /\ x <> 0) ->
   exists precision recall accuracy,
     evaluate lsa gt_labels pred_labels th
     = Ok (precision, recall, accuracy) /\
     (precision == 0)%Q /\ (recall == 0)%Q /\ (accuracy == 0)%Q).
Proof.
  intros Hlsa Hwf Hno.
  destruct (evaluate_well_formed lsa gt_labels pred_labels th Hlsa Hwf)
    as (tp & _ & Hmax & Hmc & Hev).
  assert (tp = 0%nat) as ->
    by (eapply max_matching_unique;
        [exact Hmax | now apply max_matching_empty]).
  cbv zeta in Hmc, Hev. change (Z.of_nat 0) with 0 in Hmc, Hev.
  repeat rewrite Z.sub_0_r in Hmc. repeat rewrite Z.sub_0_r in Hev.
  split; [exact Hmc|].
  intros Hsome. apply some_instance in Hsome.
  rewrite Hev.
  destruct (Z.eqb_spec (Z.of_nat (num_instances (flatten gt_labels))
                        + Z.of_nat (num_instances (flatten pred_labels))) 0);
    [contradiction|].
  do 3 eexists. split; [reflexivity|].
  repeat split; apply Qdiv_Z_zero.
Qed.

(** X5. With a threshold of one or more no pair of instances matches, since
    no IoU exceeds one: there is no true positive, every predicted
    instance is a false positive and every ground-truth instance a false
    negative, and when some pixel is not background the three ratios are
    all zero. *)
Theorem X5_threshold_of_one_or_more_matches_nothing
    (lsa : matrix -> list nat * list nat)
    (gt_labels pred_labels : list (list Z)) (th : Q) :
  lsa_contract lsa -> well_formed gt_labels pred_labels -> (1 <= th)%Q ->
  match_counts lsa gt_labels pred_labels th
  = Ok (0, Z.of_nat (num_instances (flatten pred_labels)),
        Z.of_nat (num_instances (flatten gt_labels))) /\
  ((exists x, (In x (flatten gt_labels) \/ In x (flatten pred_labels))
              /\ x <> 0) ->
   exists precision recall accuracy,
     evaluate lsa gt_labels pred_labels th
     = Ok (precision, recall, accuracy) /\
     (precision == 0)%Q /\ (recall == 0)%Q /\ (accuracy == 0)%Q).
Proof.
  intros Hlsa Hwf Hth. apply no_edge_counts; try assumption.
  intros a b (_ & _ & _ & _ & Hlt).
  pose proof (stored_iou_bounds (flatten gt_labels) (flatten pred_labels) a b).
  assert (1 <= f32 th)%Q
    by (apply Qle_trans with (f32 1);
        [vm_compute; discriminate | now apply f32_mono]).
  lra.
Qed.

Lemma X5_witness :
  match_counts lsa_exhaustive example_gt example_gt 1
  = Ok (0, Z.of_nat (num_instances (flatten example_gt)),
        Z.of_nat (num_instances (flatten example_gt))).
Proof.
  apply (X5_threshold_of_one_or_more_matches_nothing lsa_exhaustive
           example_gt example_gt 1 lsa_exhaustive_contract).
  - repeat split; try discriminate; repeat constructor; discriminate.
  - discriminate.
Defined.

(** X7. When no pixel is labelled in both images (at every pixel the ground
    truth or the prediction is background) and the threshold is not
    negative, there is no true positive, every predicted instance is a
    false positive and every ground-truth instance a false negative, and
    when some pixel is not background the three ratios are all zero. *)
Theorem X7_images_without_overlap_match_nothing
    (lsa : matrix -> list nat * list nat)
    (gt_labels pred_labels : list (list Z)) (th : Q) :
  lsa_contract lsa -> well_formed gt_labels pred_labels -> (0 <= th)%Q ->
  Forall (fun ug => fst ug = 0 \/ snd ug = 0)
    (combine (flatten pred_labels) (flatten gt_labels)) ->
  match_counts lsa gt_labels pred_labels th
  = Ok (0, Z.of_nat (num_instances (flatten pred_labels)),
        Z.of_nat (num_instances (flatten gt_labels))) /\
  ((exists x, (In x (flatten gt_labels) \/ In x (flatten pred_labels))
              /\ x <> 0) ->
   exists precision recall accuracy,
     evaluate lsa gt_labels pred_labels th
     = Ok (precision, recall, accuracy) /\
     (precision == 0)%Q /\ (recall == 0)%Q /\ (accuracy == 0)%Q).
Proof.
  intros Hlsa Hwf Hth Hdisj. apply no_edge_counts; try assumption.
  intros a b (_ & Hanz & _ & Hbnz & Hlt).
  rewrite Forall_forall in Hdisj.
  rewrite stored_iou_no_overlap in Hlt.
  - pose proof (round_float_nonneg 24 (-149) th Hth) as H. fold f32 in H. lra.
  - intros Hin. destruct (Hdisj _ Hin); simpl in *; congruence.
Qed.

Lemma X7_witness :
  match_counts lsa_exhaustive [[1; 1; 0; 0]] [[0; 0; 2; 3]] (1 # 2)
  = Ok (0, Z.of_nat (num_instances (flatten [[0; 0; 2; 3]])),
        Z.of_nat (num_instances (flatten [[1; 1; 0; 0]]))).
Proof.
  apply (X7_images_without_overlap_match_nothing lsa_exhaustive
           [[1; 1; 0; 0]] [[0; 0; 2; 3]] (1 # 2) lsa_exhaustive_contract).
  - repeat split; try discriminate; repeat constructor; discriminate.
  - discriminate.
  - repeat (apply Forall_cons; [simpl; lia|]). apply Forall_nil.
Defined.

Lemma NoDup_combine_fst {A B : Type} (l : list A) (l' : list B) :
  NoDup l -> NoDup (map fst (combine l l')).
Proof.
  intros H. revert l'. induction H as [|x l Hx _ IH]; intros [|y l']; simpl;
    try constructor; auto.
  intros Hin. apply Hx. apply in_map_iff in Hin.
  destruct Hin as ([a b] & <- & Hab). eapply in_combine_l. exact Hab.
Qed.

Lemma NoDup_combine_snd {A B : Type} (l : list A) (l' : list B) :
  NoDup l' -> NoDup (map snd (combine l l')).
Proof.
  intros H. revert l. induction H as [|y l' Hy _ IH]; intros [|x l]; simpl;
    try constructor; auto.
  intros Hin. apply Hy. apply in_map_iff in Hin.
  destruct Hin as ([a b] & <- & Hab). eapply in_combine_r. exact Hab.
Qed.

(** X4. With a threshold that is negative as a float32 number (a negative
    threshold too small for float32 is rounded to zero and is not meant)
    every pair of instances exceeds the threshold, also pairs that share no
    pixel: the number of true positives is the smaller of the two numbers of
    instances, and the remaining instances of the other image are the false
    positives or the false negatives. *)
Theorem X4_negative_threshold_matches_every_pair
    (lsa : matrix -> list nat * list nat)
    (gt_labels pred_labels : list (list Z)) (th : Q) :
  lsa_contract lsa -> well_formed gt_labels pred_labels ->
  (f32 th < 0)%Q ->
  let num_gt := Z.of_nat (num_instances (flatten gt_labels)) in
  let num_pred := Z.of_nat (num_instances (flatten pred_labels)) in
  match_counts lsa gt_labels pred_labels th
  = Ok (Z.min num_gt num_pred, num_pred - Z.min num_gt num_pred,
        num_gt - Z.min num_gt num_pred).
Proof.
  intros Hlsa Hwf Hth.
  destruct (evaluate_well_formed lsa gt_labels pred_labels th Hlsa Hwf)
    as (tp & Hle & [_ Hmax] & Hmc & _).
  cbv zeta in *.
  set (G := flatten gt_labels) in *. set (P := flatten pred_labels) in *.
  assert (Nat.min (num_instances G) (num_instances P) <= tp)%nat as Hge.
  { unfold num_instances. rewrite <- length_combine. apply Hmax.
    split; [apply NoDup_combine_fst, instances_NoDup|].
    split; [apply NoDup_combine_snd, instances_NoDup|].
    apply Forall_forall. intros [a b] Hab. simpl.
    pose proof (in_combine_l _ _ _ _ Hab) as Ha.
    pose proof (in_combine_r _ _ _ _ Hab) as Hb.
    apply instances_In in Ha, Hb.
    pose proof (stored_iou_bounds G P a b).
    repeat split; try tauto. lra. }
  rewrite Hmc.
  replace (Z.of_nat tp)
    with (Z.min (Z.of_nat (num_instances G)) (Z.of_nat (num_instances P)))
    by lia.
  reflexivity.
Qed.

Lemma X4_witness :
  match_counts lsa_exhaustive [[1; 1; 0; 0]] [[0; 0; 2; 3]] (-1 # 2)
  = Ok (1, 1, 0).
Proof.
  apply (X4_negative_threshold_matches_every_pair lsa_exhaustive
           [[1; 1; 0; 0]] [[0; 0; 2; 3]] (-1 # 2) lsa_exhaustive_contract).
  - repeat split; try discriminate; repeat constructor; discriminate.
  - vm_compute. reflexivity.
Defined.

(** ** Thresholds of at least one half *)

Lemma overlap_two_columns (G P : list Z) (a b b' : Z) :
  b <> b' -> overlap G P a b + overlap G P a b' <= size_of G a.
Proof.
  intros Hb. unfold overlap, size_of.
  revert G.
  induction P as [|y P IH]; intros [|x G]; cbn [combine count_occ]; try lia.
  specialize (IH G).
  destruct (Z_eq_dec2 (y, x) (b, a)) as [E|E],
    (Z_eq_dec2 (y, x) (b', a)) as [E'|E'], (Z.eq_dec x a) as [Ea|Ea];
    try congruence; lia.
Qed.

Lemma overlap_swap (G P : list Z) (a b : Z) : overlap G P a b = overlap P G b a.
Proof. unfold overlap. now rewrite count_occ_combine_swap. Qed.

Lemma Qdiv_Z_above_half (c d : Z) (th : Q) :
  0 <= d -> (1 # 2 <= th)%Q -> (th < inject_Z c / inject_Z d)%Q -> d < 2 * c.
Proof.
  intros Hd Hth Hlt.
  destruct (Z.eq_dec d 0) as [->|Hnz].
  - exfalso. unfold Qdiv in Hlt. change (/ inject_Z 0)%Q with 0%Q in Hlt.
    rewrite Qmult_0_r in Hlt. lra.
  - destruct (Z.lt_ge_cases d (2 * c)) as [H|H]; [exact H|].
    exfalso.
    assert (inject_Z c / inject_Z d <= 1 # 2)%Q; [|lra].
    apply Qle_shift_div_r.
    + unfold Qlt, inject_Z. cbn [Qnum Qden]. lia.
    + unfold Qle, Qmult, inject_Z. cbn [Qnum Qden]. lia.
Qed.

Lemma iou_above_half (G P : list Z) (a b : Z) (th : Q) :
  (1 # 2 <= th)%Q -> (th < iou G P a b)%Q ->
  size_of G a < 2 * overlap G P a b /\ size_of P b < 2 * overlap G P a b.
Proof.
  intros Hth Hlt. unfold iou in Hlt.
  pose proof (overlap_le_size G P a b) as (H0 & H1 & H2).
  apply (Qdiv_Z_above_half _ _ th) in Hlt; [lia | lia | exact Hth].
Qed.

Lemma above_half_unique (G P : list Z) (th : Q) (a b a' b' : Z) :
  (1 # 2 <= th)%Q ->
  (th < iou G P a b)%Q -> (th < iou G P a' b')%Q ->
  (a = a' <-> b = b').
Proof.
  intros Hth H1 H2.
  apply (iou_above_half _ _ _ _ _ Hth) in H1, H2.
  split; intros <-.
  - destruct (Z.eq_dec b b') as [E|E]; [exact E|].
    pose proof (overlap_two_columns G P a b b' E). lia.
  - destruct (Z.eq_dec a a') as [E|E]; [exact E|].
    pose proof (overlap_two_columns P G b a a' E).
    rewrite <- !(overlap_swap G P) in H. lia.
Qed.

(** Above a threshold of at least one half in float32, above one half
    exactly. *)
Lemma stored_above_half (G P : list Z) (th : Q) (a b : Z) :
  (1 # 2 <= th)%Q -> (f32 th < stored_iou G P a b)%Q ->
  (1 # 2 < iou G P a b)%Q.
Proof.
  intros Hth Hlt. apply Qnot_le_lt. intros Hle.
  apply stored_iou_le in Hle.
  assert (f32 (f64 (1 # 2)) <= f32 th)%Q as H.
  { apply Qle_trans with (f32 (1 # 2)); [vm_compute; discriminate|].
    now apply f32_mono. }
  lra.
Qed.

Lemma NoDup_list_prod {A B : Type} (l : list A) (l' : list B) :
  NoDup l -> NoDup l' -> NoDup (list_prod l l').
Proof.
  intros Hl Hl'. induction Hl as [|x l Hx _ IH]; cbn [list_prod].
  - constructor.
  - apply NoDup_app.
    + apply NoDup_map_NoDup_ForallPairs; [|exact Hl'].
      intros y y' _ _ E. congruence.
    + exact IH.
    + intros [a b] Hab Hin. apply in_map_iff in Hab.
      destruct Hab as (y & E & _). injection E as <- <-.
      apply in_prod_iff in Hin. tauto.
Qed.

Lemma pairs_above_In (G P : list Z) (th : Q) (a b : Z) :
  In (a, b) (pairs_above G P th) <-> label_edge G P th a b.
Proof.
  unfold pairs_above, label_edge.
  rewrite filter_In, in_prod_iff, !instances_In. cbn [fst snd].
  rewrite Qltb_lt. tauto.
Qed.

Lemma pairs_above_matching (G P : list Z) (th : Q) :
  (1 # 2 <= th)%Q -> matching (label_edge G P th) (pairs_above G P th).
Proof.
  intros Hth.
  assert (NoDup (pairs_above G P th)) as Hnd.
  { apply NoDup_filter, NoDup_list_prod; apply instances_NoDup. }
  assert (forall ab ab', In ab (pairs_above G P th) ->
            In ab' (pairs_above G P th) ->
            (fst ab = fst ab' <-> snd ab = snd ab')) as Huniq.
  { intros [a b] [a' b'] H H'. apply pairs_above_In in H, H'.
    destruct H as (_ & _ & _ & _ & H), H' as (_ & _ & _ & _ & H').
    apply (above_half_unique G P (1 # 2));
      [apply Qle_refl | |]; eapply stored_above_half; eassumption. }
  repeat split.
  - apply NoDup_map_NoDup_ForallPairs; [|exact Hnd].
    intros [a b] [a' b'] H H' E. specialize (Huniq _ _ H H').
    cbn [fst snd] in *. f_equal; tauto.
  - apply NoDup_map_NoDup_ForallPairs; [|exact Hnd].
    intros [a b] [a' b'] H H' E. specialize (Huniq _ _ H H').
    cbn [fst snd] in *. f_equal; tauto.
  - apply Forall_forall. intros [a b] H. now apply pairs_above_In.
Qed.

Lemma matching_NoDup {A B : Type} (E : A -> B -> Prop) (M : list (A * B)) :
  matching E M -> NoDup M.
Proof. intros (H & _). eapply NoDup_map_inv. exact H. Qed.

(** X6. With a threshold of at least one half the pairs of instances whose
    IoU exceeds the threshold, for the float32 comparison that [evaluate]
    makes (the IoU as the float32 table stores it against the threshold
    rounded to float32), are one-to-one (an instance of one image is in at
    most one of them), and the number of true positives is the number of
    these pairs: the assignment leaves none of them out. *)
Theorem X6_above_one_half_every_pair_above_threshold_counts
    (lsa : matrix -> list nat * list nat)
    (gt_labels pred_labels : list (list Z)) (th : Q) :
  lsa_contract lsa -> well_formed gt_labels pred_labels -> (1 # 2 <= th)%Q ->
  let G := flatten gt_labels in
  let P := flatten pred_labels in
  let tp := Z.of_nat (length (pairs_above G P th)) in
  (forall a b a' b',
     label_edge G P th a b -> label_edge G P th a' b' ->
     (a = a' <-> b = b')) /\
  match_counts lsa gt_labels pred_labels th
  = Ok (tp, Z.of_nat (num_instances P) - tp, Z.of_nat (num_instances G) - tp).
Proof.
  intros Hlsa Hwf Hth G P.
  destruct (evaluate_well_formed lsa gt_labels pred_labels th Hlsa Hwf)
    as (tp & _ & Hmax & Hmc & _).
  cbv zeta in *. fold G P in Hmax, Hmc. split.
  - intros a b a' b' (_ & _ & _ & _ & H) (_ & _ & _ & _ & H').
    apply (above_half_unique G P (1 # 2));
      [apply Qle_refl | |]; eapply stored_above_half; eassumption.
  - assert (tp = length (pairs_above G P th)) as ->; [|exact Hmc].
    destruct Hmax as [(M & HM & <-) Hmax].
    apply Nat.le_antisymm.
    + apply NoDup_incl_length; [now apply (matching_NoDup _ _ HM)|].
      intros [a b] Hab. apply pairs_above_In.
      destruct HM as (_ & _ & H3). rewrite Forall_forall in H3.
      apply (H3 _ Hab).
    + apply Hmax. now apply pairs_above_matching.
Qed.

Lemma X6_witness :
  match_counts lsa_exhaustive example_gt example_pred (1 # 2) = Ok (2, 0, 0).
Proof.
  apply (X6_above_one_half_every_pair_above_threshold_counts lsa_exhaustive
           example_gt example_pred (1 # 2) lsa_exhaustive_contract).
  - repeat split; try discriminate; repeat constructor; discriminate.
  - discriminate.
Defined.

(** ** How the three ratios compare *)

Lemma inject_Z_pos (d : Z) : 0 < d -> (0 < inject_Z d)%Q.
Proof. intros H. unfold Qlt, inject_Z. cbn [Qnum Qden]. lia. Qed.

Lemma Qdiv_Z_antitone (c d1 d2 : Z) :
  0 <= c -> 0 < d2 <= d1 -> (inject_Z c / inject_Z d1 <= inject_Z c / inject_Z d2)%Q.
Proof.
  intros Hc Hd.
  assert (0 < inject_Z d1)%Q as H1 by (apply inject_Z_pos; lia).
  assert (0 < inject_Z d2)%Q as H2 by (apply inject_Z_pos; lia).
  apply Qle_shift_div_r; [exact H1|].
  assert (0 <= inject_Z c / inject_Z d2)%Q as Hx
    by (apply Qle_shift_div_l; [exact H2 | rewrite Qmult_0_l;
        unfold Qle, inject_Z; cbn [Qnum Qden]; lia]).
  assert (inject_Z c / inject_Z d2 * inject_Z d2 == inject_Z c)%Q as Ex
    by (field; lra).
  assert (inject_Z d2 <= inject_Z d1)%Q as Hd' by (rewrite <- Zle_Qle; lia).
  nra.
Qed.

Lemma Qdiv_Z_one (c d : Z) :
  0 < d -> ((inject_Z c / inject_Z d == 1)%Q <-> c = d).
Proof.
  intros Hd. pose proof (inject_Z_pos d Hd) as Hd'. split.
  - intros E.
    assert (inject_Z c == inject_Z d)%Q as E'.
    { rewrite <- (Qmult_1_l (inject_Z d)), <- E. field. lra. }
    apply inject_Z_injective. exact E'.
  - intros ->. apply Qmult_inv_r. lra.
Qed.

(** X8. Whenever [evaluate] returns, the accuracy lies between zero and each
    of precision and recall, precision and recall are at most one, and
    the accuracy is one exactly when both precision and recall are one. *)
Theorem X8_accuracy_is_at_most_precision_and_recall
    (lsa : matrix -> list nat * list nat)
    (gt_labels pred_labels : list (list Z)) (th : Q)
    (precision recall accuracy : Q) :
  lsa_contract lsa ->
  evaluate lsa gt_labels pred_labels th = Ok (precision, recall, accuracy) ->
  (0 <= accuracy)%Q /\ (accuracy <= precision)%Q /\ (accuracy <= recall)%Q /\
  (precision <= 1)%Q /\ (recall <= 1)%Q /\
  ((accuracy == 1)%Q <-> (precision == 1)%Q /\ (recall == 1)%Q).
Proof.
  intros Hlsa Hev.
  destruct (well_formed_dec gt_labels pred_labels) as [Hwf|Hn].
  2:{ destruct (evaluate_ill_formed lsa gt_labels pred_labels th Hn) as [_ E].
      congruence. }
  destruct (evaluate_well_formed lsa gt_labels pred_labels th Hlsa Hwf)
    as (tp & Hle & _ & _ & E).
  cbv zeta in *. rewrite Hev in E.
  set (kg := Z.of_nat (num_instances (flatten gt_labels))) in *.
  set (kp := Z.of_nat (num_instances (flatten pred_labels))) in *.
  destruct (Z.eqb_spec (kg + kp) 0) as [E0|E0]; [discriminate|].
  injection E as -> -> ->.
  destruct (Qdiv_Z_bounds (Z.of_nat tp) (kg + kp - Z.of_nat tp)) as [Ha0 _];
    [lia|].
  destruct (Qdiv_Z_bounds (Z.of_nat tp) (Z.max 1 kp)) as [_ Hp1]; [lia|].
  destruct (Qdiv_Z_bounds (Z.of_nat tp) (Z.max 1 kg)) as [_ Hr1]; [lia|].
  split; [exact Ha0|].
  split; [apply Qdiv_Z_antitone; lia|].
  split; [apply Qdiv_Z_antitone; lia|].
  split; [exact Hp1|]. split; [exact Hr1|].
  rewrite !Qdiv_Z_one by lia. lia.
Qed.

Lemma X8_witness :
  (0 <= 2 # 2)%Q /\ (2 # 2 <= 2 # 2)%Q /\ (2 # 2 <= 2 # 2)%Q /\
  (2 # 2 <= 1)%Q /\ (2 # 2 <= 1)%Q /\
  ((2 # 2 == 1)%Q <-> (2 # 2 == 1)%Q /\ (2 # 2 == 1)%Q).
Proof.
  apply (X8_accuracy_is_at_most_precision_and_recall lsa_exhaustive
           example_gt example_pred (1 # 2) (2 # 2) (2 # 2) (2 # 2)
           lsa_exhaustive_contract).
  reflexivity.
Defined.

(** ** A prediction that renames the ground truth *)

(** X9. A prediction that is the ground truth with its instances renamed
    (background kept, distinct instances kept distinct) is perfect at
    every threshold that is below one as a float32 number (a threshold
    below one that float32 rounds to one, such as 0.99999999, is not
    meant): with at least one instance, every instance is a true positive,
    there is no false positive and no false negative, and precision, recall
    and accuracy are all one. *)
Theorem X9_renamed_ground_truth_is_a_perfect_prediction
    (lsa : matrix -> list nat * list nat)
    (gt_labels : list (list Z)) (f : Z -> Z) (th : Q) :
  lsa_contract lsa ->
  label_image (flatten gt_labels) -> relabeling (flatten gt_labels) f ->
  (f32 th < 1)%Q -> (1 <= num_instances (flatten gt_labels))%nat ->
  match_counts lsa gt_labels (relabel_image f gt_labels) th
  = Ok (Z.of_nat (num_instances (flatten gt_labels)), 0, 0) /\
  exists precision recall accuracy,
    evaluate lsa gt_labels (relabel_image f gt_labels) th
    = Ok (precision, recall, accuracy) /\
    (precision == 1)%Q /\ (recall == 1)%Q /\ (accuracy == 1)%Q.
Proof.
  intros Hlsa HG Hf Hth Hk.
  set (G := flatten gt_labels) in *.
  pose proof (flatten_relabel_image f gt_labels) as EP. fold G in EP.
  assert (well_formed gt_labels (relabel_image f gt_labels)) as Hwf.
  { split; [exact HG|]. rewrite EP. split; [now apply label_image_map|].
    now rewrite length_map. }
  destruct (evaluate_well_formed lsa _ _ th Hlsa Hwf)
    as (tp & Hle & [_ Hmax] & Hmc & Hev).
  cbv zeta in *. rewrite EP in *. fold G in Hle, Hmax, Hmc, Hev.
  pose proof HG as [_ Hpos]. rewrite Forall_forall in Hpos.
  rewrite (num_instances_map f G Hf (proj2 HG)) in *.
  assert (num_instances G <= tp)%nat as Hge.
  { unfold num_instances.
    rewrite <- (length_map (fun a => (a, f a)) (instances G)).
    apply Hmax. repeat split.
    - rewrite map_map. simpl. rewrite map_id. apply instances_NoDup.
    - rewrite map_map. simpl.
      apply NoDup_map_NoDup_ForallPairs; [|apply instances_NoDup].
      intros x y Hx Hy E. apply instances_In in Hx, Hy.
      apply (relabeling_inj G f); auto; try apply Hpos; tauto.
    - apply Forall_forall. intros ab Hab.
      apply in_map_iff in Hab. destruct Hab as (a & <- & Ha).
      apply instances_In in Ha. destruct Ha as [Ha Hnz]. cbn [fst snd].
      split; [exact Ha|]. split; [exact Hnz|].
      split; [now apply in_map|].
      split; [rewrite (relabeling_zero G f a Hf Ha (Hpos a Ha)); exact Hnz|].
      assert (stored_iou G (map f G) a (f a) = stored_iou G G a a) as ->.
      { rewrite <- (map_id G) at 1.
        apply (stored_iou_map (fun x => x) f G G a a).
        - intros x _ E. exact E.
        - intros y Hy E. apply (relabeling_inj G f); auto. }
      rewrite (stored_iou_one G G a a (iou_self G a Ha)). exact Hth. }
  assert (Z.of_nat tp = Z.of_nat (num_instances G)) as Etp by lia.
  rewrite Etp in Hmc, Hev. rewrite !Z.sub_diag in Hmc.
  split; [exact Hmc|].
  set (k := Z.of_nat (num_instances G)) in *.
  assert (1 <= k) as Hk' by (unfold k; lia).
  destruct (Z.eqb_spec (k + k) 0); [lia|].
  rewrite Hev. do 3 eexists. split; [reflexivity|].
  rewrite !Qdiv_Z_one by lia. lia.
Qed.

Lemma X9_witness :
  match_counts lsa_exhaustive example_gt
    (relabel_image (swap_labels 1 2) example_gt) (9 # 10)
  = Ok (Z.of_nat (num_instances (flatten example_gt)), 0, 0).
Proof.
  apply (X9_renamed_ground_truth_is_a_perfect_prediction lsa_exhaustive
           example_gt (swap_labels 1 2) (9 # 10) lsa_exhaustive_contract).
  - split; [discriminate | repeat constructor; discriminate].
  - apply swap_labels_relabeling; lia.
  - reflexivity.
  - vm_compute. lia.
Defined.

(** ** The IoU table *)

(** No IoU of an image of fewer than [2 ^ 62] pixels is rounded to zero. *)
Lemma stored_iou_positive (G P : list Z) (a b : Z) :
  length G = length P -> Z.of_nat (length G) < 2 ^ 62 ->
  In (b, a) (combine P G) -> (0 < stored_iou G P a b)%Q.
Proof.
  intros Hlen Hsize Hin.
  pose proof (overlap_le_size G P a b) as (H0 & H1 & H2).
  assert (0 < overlap G P a b) as Hov.
  { unfold overlap. apply (count_occ_In Z_eq_dec2) in Hin. lia. }
  assert (size_of G a <= Z.of_nat (length G)) as HsG
    by (unfold size_of; pose proof (count_occ_bound Z.eq_dec a G); lia).
  assert (size_of P b <= Z.of_nat (length G)) as HsP
    by (unfold size_of; pose proof (count_occ_bound Z.eq_dec b P); lia).
  assert (pow2 (-63) <= iou G P a b)%Q as Hlow.
  { unfold iou.
    set (d := size_of G a + size_of P b - overlap G P a b) in *.
    assert (0 < inject_Z d)%Q as Hd by (apply inject_Z_pos; lia).
    apply Qle_shift_div_l; [exact Hd|].
    assert (inject_Z d <= inject_Z (2 ^ 63))%Q as Hd2
      by (rewrite <- Zle_Qle; lia).
    assert (1 <= inject_Z (overlap G P a b))%Q as Ho
      by (change 1%Q with (inject_Z 1); rewrite <- Zle_Qle; lia).
    assert (pow2 (-63) * inject_Z (2 ^ 63) == 1)%Q as E by reflexivity.
    assert (pow2 (-63) * inject_Z d <= pow2 (-63) * inject_Z (2 ^ 63))%Q
      by (apply Qmult_le_l; [apply pow2_pos | exact Hd2]).
    lra. }
  unfold stored_iou.
  apply Qlt_le_trans with (pow2 (-63)); [apply pow2_pos|].
  rewrite <- (round_float_pow2 24 (-149) (-63)) by lia.
  apply f32_mono.
  rewrite <- (round_float_pow2 53 (-1074) (-63)) by lia.
  now apply f64_mono.
Qed.

(** X10. For well-formed images the table that [evaluate] builds from the
    pixel counts has one row for every ground-truth instance and one
    column for every predicted instance, in the order of the sequential
    relabelling; every entry is between zero and one and belongs to a
    pair of instances.  The entry of the instances [a] and [b] is their
    intersection over union as float32 holds it: the ratio of the pixel
    counts rounded to float64 and then to float32.  It is zero when no
    pixel carries [a] in the ground truth and [b] in the prediction, and
    for images of fewer than [2 ^ 62] pixels it is positive when some pixel
    does. *)
Theorem X10_table_entries_are_intersection_over_union
    (gt_labels pred_labels : list (list Z)) :
  well_formed gt_labels pred_labels ->
  let G := flatten gt_labels in
  let P := flatten pred_labels in
  exists iouMat,
    iou_table gt_labels pred_labels
    = Ok (Z.of_nat (num_instances G), Z.of_nat (num_instances P), iouMat) /\
    is_matrix (num_instances G) (num_instances P) iouMat /\
    (forall g p, (g < num_instances G)%nat -> (p < num_instances P)%nat ->
       (0 <= entry iouMat g p <= 1)%Q /\
       exists a b, In a G /\ a <> 0 /\ In b P /\ b <> 0 /\
                   Z.to_nat (forward_map G a - 1) = g /\
                   Z.to_nat (forward_map P b - 1) = p) /\
    (forall a b, In a G -> a <> 0 -> In b P -> b <> 0 ->
       let g := Z.to_nat (forward_map G a - 1) in
       let p := Z.to_nat (forward_map P b - 1) in
       (g < num_instances G)%nat /\ (p < num_instances P)%nat /\
       entry iouMat g p = f32 (f64 (iou G P a b)) /\
       (~ In (b, a) (combine P G) -> entry iouMat g p = 0%Q) /\
       (Z.of_nat (length G) < 2 ^ 62 -> In (b, a) (combine P G) ->
        (0 < entry iouMat g p)%Q)).
Proof.
  intros (HG & HP & Hlen) G P.
  destruct (iou_table_spec gt_labels pred_labels HG HP Hlen)
    as (M & Htable & HM & Hentry).
  fold G P in Htable, HM, Hentry, HG, HP, Hlen.
  pose proof (forward_map_props G HG) as HfG.
  pose proof (forward_map_props P HP) as HfP.
  exists M. split; [exact Htable|]. split; [exact HM|]. split.
  - intros g p Hg Hp. split.
    + now apply (table_entries_unit G P _ _ M HfG HfP Hentry).
    + destruct (table_index_label G _ g HfG Hg) as (a & Ha & Hanz & Ea).
      destruct (table_index_label P _ p HfP Hp) as (b & Hb & Hbnz & Eb).
      exists a, b. tauto.
  - intros a b Ha Hanz Hb Hbnz. cbv zeta.
    destruct (relabel_index G _ a HfG Ha Hanz) as [Hg _].
    destruct (relabel_index P _ b HfP Hb Hbnz) as [Hp _].
    split; [exact Hg|]. split; [exact Hp|].
    rewrite (Hentry a b Ha Hanz Hb Hbnz).
    split; [reflexivity|]. split.
    + apply stored_iou_no_overlap.
    + intros Hsize Hin. now apply stored_iou_positive.
Qed.

Lemma X10_witness :
  exists iouMat,
    iou_table example_gt example_pred = Ok (2, 2, iouMat) /\
    is_matrix 2 2 iouMat.
Proof.
  destruct (X10_table_entries_are_intersection_over_union
              example_gt example_pred) as (M & H1 & H2 & _).
  - repeat split; try discriminate; repeat constructor; discriminate.
  - exists M. split; [exact H1 | exact H2].
Defined.

(** ** The order of the pixels *)

Lemma instances_Permutation (l l' : list Z) :
  Permutation l l' -> num_instances l = num_instances l'.
Proof.
  intros H. unfold num_instances.
  apply Permutation_length, NoDup_Permutation; try apply instances_NoDup.
  intros x. rewrite !instances_In. split; intros [Hx Hnz]; split; auto.
  - eapply Permutation_in; eassumption.
  - eapply Permutation_in; [apply Permutation_sym|]; eassumption.
Qed.

Lemma iou_Permutation (G P G' P' : list Z) (a b : Z) :
  Permutation G G' -> Permutation P P' ->
  Permutation (combine P G) (combine P' G') ->
  iou G' P' a b = iou G P a b.
Proof.
  intros HG HP HC. unfold iou, overlap, size_of.
  rewrite (Permutation_count_occ Z.eq_dec) in HG, HP.
  rewrite (Permutation_count_occ Z_eq_dec2) in HC.
  now rewrite HG, HP, HC.
Qed.

(** X11. The result of [evaluate] depends only on the collection of the pairs
    (predicted label, ground-truth label) of the pixels, not on where
    the pixels are: rearranging the pixels of both images in the same
    way, for example transposing or mirroring both, changes nothing. *)
Theorem X11_the_order_of_the_pixels_does_not_matter
    (lsa : matrix -> list nat * list nat)
    (gt_labels pred_labels gt_labels' pred_labels' : list (list Z)) (th : Q) :
  lsa_contract lsa ->
  well_formed gt_labels pred_labels ->
  length (flatten gt_labels') = length (flatten pred_labels') ->
  Permutation (combine (flatten pred_labels) (flatten gt_labels))
    (combine (flatten pred_labels') (flatten gt_labels')) ->
  evaluate lsa gt_labels' pred_labels' th
  = evaluate lsa gt_labels pred_labels th.
Proof.
  intros Hlsa Hwf Hlen' HC. pose proof Hwf as (HG & HP & Hlen).
  set (G := flatten gt_labels) in *. set (P := flatten pred_labels) in *.
  set (G' := flatten gt_labels') in *. set (P' := flatten pred_labels') in *.
  assert (Permutation G G') as HGG.
  { rewrite <- (combine_snd P G), <- (combine_snd P' G') by congruence.
    now apply Permutation_map. }
  assert (Permutation P P') as HPP.
  { rewrite <- (combine_fst P G), <- (combine_fst P' G') by congruence.
    now apply Permutation_map. }
  assert (forall l l', Permutation l l' -> label_image l -> label_image l')
    as Hli.
  { intros l l' Hp [Hne Hpos]. split.
    - intros ->. apply Permutation_sym, Permutation_nil in Hp. congruence.
    - rewrite Forall_forall in *. intros x Hx. apply Hpos.
      eapply Permutation_in; [apply Permutation_sym|]; eassumption. }
  assert (well_formed gt_labels' pred_labels') as Hwf'.
  { split; [now apply (Hli G)|]. split; [now apply (Hli P) | exact Hlen']. }
  destruct (evaluate_well_formed lsa _ _ th Hlsa Hwf)
    as (tp & _ & Hmax & _ & ->).
  destruct (evaluate_well_formed lsa _ _ th Hlsa Hwf')
    as (tp' & _ & Hmax' & _ & ->).
  fold G P in Hmax. fold G' P' in Hmax'. fold G P G' P'.
  rewrite <- (instances_Permutation G G' HGG).
  rewrite <- (instances_Permutation P P' HPP).
  assert (tp' = tp) as ->; [|reflexivity].
  eapply max_matching_unique; [exact Hmax'|].
  eapply max_matching_ext; [|exact Hmax].
  intros a b. unfold label_edge, stored_iou.
  rewrite (iou_Permutation G P G' P' a b HGG HPP HC).
  split; intros (Ha & Hanz & Hb & Hbnz & Hlt); repeat split; auto;
    solve [ eapply Permutation_in; eassumption
          | eapply Permutation_in; [apply Permutation_sym|]; eassumption ].
Qed.

Lemma X11_witness :
  evaluate lsa_exhaustive [rev (flatten example_gt)]
    [rev (flatten example_pred)] (1 # 2)
  = evaluate lsa_exhaustive example_gt example_pred (1 # 2).
Proof.
  apply (X11_the_order_of_the_pixels_does_not_matter lsa_exhaustive
           example_gt example_pred [rev (flatten example_gt)]
           [rev (flatten example_pred)] (1 # 2) lsa_exhaustive_contract).
  - repeat split; try discriminate; repeat constructor; discriminate.
  - reflexivity.
  - apply Permutation_rev.
Defined.

(** ** Offsets inside and far outside of the image *)

Lemma py_slice_target_far (n : nat) (o : Z) :
  2 * Z.of_nat n <= Z.abs o ->
  snd (py_slice (Z.max 0 (- o)) (Z.min (Z.of_nat n) (Z.of_nat n - o)) n)
  = 0%nat /\
  snd (py_slice (Z.max 0 o) (Z.min (Z.of_nat n) (Z.of_nat n + o)) n) = 0%nat.
Proof.
  intros H. unfold py_slice, slice_bound. cbn [snd].
  destruct (Z.ltb_spec (Z.max 0 (- o)) 0); [lia|].
  destruct (Z.ltb_spec (Z.min (Z.of_nat n) (Z.of_nat n - o)) 0);
    destruct (Z.ltb_spec (Z.max 0 o) 0);
    destruct (Z.ltb_spec (Z.min (Z.of_nat n) (Z.of_nat n + o)) 0); lia.
Qed.

(** The plane computed when, on both axes, the two slices have the same
    length. *)
Lemma affinity_plane_equal_slices (seg : list (list Z)) (off : Z * Z)
    (t0 u0 l0 t1 u1 l1 : nat) :
  let h := fst (shape seg) in
  let w := snd (shape seg) in
  py_slice (Z.max 0 (- fst off))
    (Z.min (Z.of_nat h) (Z.of_nat h - fst off)) h = (t0, l0) ->
  py_slice (Z.max 0 (fst off))
    (Z.min (Z.of_nat h) (Z.of_nat h + fst off)) h = (u0, l0) ->
  py_slice (Z.max 0 (- snd off))
    (Z.min (Z.of_nat w) (Z.of_nat w - snd off)) w = (t1, l1) ->
  py_slice (Z.max 0 (snd off))
    (Z.min (Z.of_nat w) (Z.of_nat w + snd off)) w = (u1, l1) ->
  affinity_plane seg off
  = Ok (tabulate2 h w (fun i j =>
          if in_slice (t0, l0) i && in_slice (t1, l1) j
          then np_equal (pixel seg i j)
                 (pixel seg (u0 + (i - t0)) (u1 + (j - t1)))
               * np_positive (pixel seg i j)
               * np_positive (pixel seg (u0 + (i - t0)) (u1 + (j - t1)))
          else 0)).
Proof.
  intros h w E0 E0' E1 E1'. unfold affinity_plane.
  destruct (shape seg) as [h' w'] eqn:Es. cbn [fst snd] in *. subst h w.
  rewrite E0, E0', E1, E1'.
  pose proof (getslice2_represents seg t0 l0 t1 l1) as Ha.
  pose proof (getslice2_represents seg u0 l0 u1 l1) as Hb.
  destruct (broadcast2_represents np_equal _ _ _ _ _ _ Ha Hb) as (e & -> & He).
  cbn [bind].
  destruct (broadcast2_represents Z.mul _ _ _ _ _ _ He
              (nd_map_positive_represents _ _ _ _ Ha)) as (e1 & -> & He1).
  cbn [bind].
  destruct (broadcast2_represents Z.mul _ _ _ _ _ _ He1
              (nd_map_positive_represents _ _ _ _ Hb)) as (e2 & -> & He2).
  cbn [bind].
  rewrite (setslice2_represents h' w' _ (t0, l0) (t1, l1) e2 _ He2).
  f_equal. apply tabulate2_ext. intros i j Hi Hj.
  rewrite tabulate2_nth by assumption.
  unfold in_slice. cbn [fst snd].
  destruct (Nat.leb_spec t0 i), (Nat.ltb_spec i (t0 + l0)),
    (Nat.leb_spec t1 j), (Nat.ltb_spec j (t1 + l1)); cbn [andb];
    try reflexivity.
  replace (t0 + (i - t0))%nat with i by lia.
  replace (t1 + (j - t1))%nat with j by lia.
  reflexivity.
Qed.

Lemma affinity_spec_outside (seg : list (list Z)) (off : Z * Z) (i j : nat) :
  ~ (0 <= Z.of_nat i + fst off < Z.of_nat (fst (shape seg)) /\
     0 <= Z.of_nat j + snd off < Z.of_nat (snd (shape seg))) ->
  affinity_spec seg off i j = 0.
Proof.
  intros H. unfold affinity_spec.
  destruct (Z.leb_spec 0 (Z.of_nat i + fst off)),
    (Z.ltb_spec (Z.of_nat i + fst off) (Z.of_nat (fst (shape seg)))),
    (Z.leb_spec 0 (Z.of_nat j + snd off)),
    (Z.ltb_spec (Z.of_nat j + snd off) (Z.of_nat (snd (shape seg))));
    cbn [andb]; try reflexivity.
  exfalso. apply H. lia.
Qed.

(** On one axis: the slices of a aligned offset component. *)
Lemma aligned_slices (n : nat) (o : Z) :
  aligned n o ->
  exists t u l,
    py_slice (Z.max 0 (- o)) (Z.min (Z.of_nat n) (Z.of_nat n - o)) n = (t, l) /\
    py_slice (Z.max 0 o) (Z.min (Z.of_nat n) (Z.of_nat n + o)) n = (u, l) /\
    forall i, (i < n)%nat ->
      (in_slice (t, l) i = true <-> 0 <= Z.of_nat i + o < Z.of_nat n) /\
      (in_slice (t, l) i = true ->
       (u + (i - t))%nat = Z.to_nat (Z.of_nat i + o)).
Proof.
  intros [H|H].
  - do 3 eexists. split; [now apply py_slice_target|].
    split; [now apply py_slice_source|].
    intros i Hi. unfold in_slice. cbn [fst snd].
    rewrite andb_true_iff, Nat.leb_le, Nat.ltb_lt. lia.
  - destruct (py_slice_target_far n o H) as [E1 E2].
    destruct (py_slice _ _ n) as [t l] eqn:Et.
    destruct (py_slice (Z.max 0 o) _ n) as [u l'] eqn:Eu.
    cbn [snd] in *. subst l l'.
    exists t, u, 0%nat. split; [reflexivity|]. split; [reflexivity|].
    intros i Hi. unfold in_slice. cbn [fst snd].
    rewrite andb_true_iff, Nat.leb_le, Nat.ltb_lt. lia.
Qed.

Lemma affinity_plane_aligned (seg : list (list Z)) (off : Z * Z) :
  aligned (fst (shape seg)) (fst off) ->
  aligned (snd (shape seg)) (snd off) ->
  affinity_plane seg off
  = Ok (tabulate2 (fst (shape seg)) (snd (shape seg)) (affinity_spec seg off)).
Proof.
  intros H0 H1.
  destruct (aligned_slices _ _ H0) as (t0 & u0 & l0 & Et0 & Eu0 & Hs0).
  destruct (aligned_slices _ _ H1) as (t1 & u1 & l1 & Et1 & Eu1 & Hs1).
  rewrite (affinity_plane_equal_slices seg off t0 u0 l0 t1 u1 l1 Et0 Eu0 Et1 Eu1).
  f_equal. apply tabulate2_ext. intros i j Hi Hj.
  destruct (Hs0 i Hi) as [Hin0 Hu0]. destruct (Hs1 j Hj) as [Hin1 Hu1].
  destruct (in_slice (t0, l0) i) eqn:E0; cbn [andb].
  - destruct (in_slice (t1, l1) j) eqn:E1.
    + rewrite (Hu0 eq_refl), (Hu1 eq_refl).
      assert (0 <= Z.of_nat i + fst off < Z.of_nat (fst (shape seg)))
        as B0 by now apply Hin0.
      assert (0 <= Z.of_nat j + snd off < Z.of_nat (snd (shape seg)))
        as B1 by now apply Hin1.
      unfold affinity_spec.
      destruct (Z.leb_spec 0 (Z.of_nat i + fst off)); [|lia].
      destruct (Z.ltb_spec (Z.of_nat i + fst off)
                  (Z.of_nat (fst (shape seg)))); [|lia].
      destruct (Z.leb_spec 0 (Z.of_nat j + snd off)); [|lia].
      destruct (Z.ltb_spec (Z.of_nat j + snd off)
                  (Z.of_nat (snd (shape seg)))); [|lia].
      cbn [andb]. unfold np_equal, np_positive, Z_of_bool.
      destruct (_ =? _), (0 <? pixel seg i j), (0 <? _); reflexivity.
    + symmetry. apply affinity_spec_outside. intros [_ B1].
      apply Hin1 in B1. congruence.
  - symmetry. apply affinity_spec_outside. intros [B0 _].
    apply Hin0 in B0. congruence.
Qed.

Lemma tabulate2_pixel (r c : nat) (F : nat -> nat -> Z) (i j : nat) :
  (i < r)%nat -> (j < c)%nat -> pixel (tabulate2 r c F) i j = F i j.
Proof. apply tabulate2_nth. Qed.

Lemma tabulate2_shape (r c : nat) (F : nat -> nat -> Z) :
  length (tabulate2 r c F) = r /\
  Forall (fun row => length row = c) (tabulate2 r c F).
Proof.
  unfold tabulate2. split.
  - now rewrite length_map, length_seq.
  - apply Forall_forall. intros row Hrow. apply in_map_iff in Hrow.
    destruct Hrow as (i & <- & _). now rewrite length_map, length_seq.
Qed.

Lemma broadcast_chain (la lb r r1 r2 : nat) :
  broadcast_dim la lb = Ok r ->
  broadcast_dim r la = Ok r1 ->
  broadcast_dim r1 lb = Ok r2 ->
  ((r2 =? la)%nat || (r2 =? 1)%nat) = true ->
  la = lb \/ lb = 1%nat.
Proof.
  unfold broadcast_dim. intros H1 H2 H3 H4.
  apply orb_true_iff in H4. rewrite !Nat.eqb_eq in H4.
  destruct (Nat.eqb_spec la lb); [now left|].
  destruct (Nat.eqb_spec lb 1); [now right|].
  exfalso.
  destruct (Nat.eqb_spec la 1); [|discriminate].
  injection H1 as <-.
  destruct (Nat.eqb_spec lb la); [congruence|].
  rewrite (proj2 (Nat.eqb_neq lb 1)) in H2 by assumption.
  destruct (Nat.eqb_spec la 1); [|congruence].
  injection H2 as <-.
  rewrite Nat.eqb_refl in H3. injection H3 as <-. lia.
Qed.

Lemma broadcast_chain_ok (la lb : nat) :
  la = lb \/ lb = 1%nat ->
  broadcast_dim la lb = Ok la /\ broadcast_dim la la = Ok la.
Proof.
  unfold broadcast_dim. rewrite Nat.eqb_refl. intros [->| ->].
  - now rewrite Nat.eqb_refl.
  - destruct (Nat.eqb_spec la 1) as [->|]; [now split|]. now split.
Qed.

Lemma broadcast_dim_raises (a b : nat) (e : exn) :
  broadcast_dim a b = Raise e -> e = ValueError.
Proof.
  unfold broadcast_dim.
  destruct (_ =? _)%nat; [discriminate|].
  destruct (_ =? _)%nat; [discriminate|].
  destruct (_ =? _)%nat; [discriminate|]. congruence.
Qed.

Lemma broadcast2_inv (f : Z -> Z -> Z) (a b e : ndarray) :
  broadcast2 f a b = Ok e ->
  broadcast_dim (fst (nd_shape a)) (fst (nd_shape b)) = Ok (fst (nd_shape e)) /\
  broadcast_dim (snd (nd_shape a)) (snd (nd_shape b)) = Ok (snd (nd_shape e)).
Proof.
  unfold broadcast2.
  destruct (broadcast_dim (fst _) _) as [r|]; [|discriminate].
  destruct (broadcast_dim (snd _) _) as [c|]; [|discriminate].
  cbn [bind]. intros [= <-]. now split.
Qed.

Lemma broadcast2_raises (f : Z -> Z -> Z) (a b : ndarray) (x : exn) :
  broadcast2 f a b = Raise x -> x = ValueError.
Proof.
  unfold broadcast2.
  destruct (broadcast_dim (fst _) _) as [r|x0] eqn:E0.
  - destruct (broadcast_dim (snd _) _) as [c|x1] eqn:E1; [discriminate|].
    cbn [bind]. intros [= <-]. eapply broadcast_dim_raises; eassumption.
  - cbn [bind]. intros [= <-]. eapply broadcast_dim_raises; eassumption.
Qed.

Lemma affinity_plane_raises (seg : list (list Z)) (off : Z * Z) (x : exn) :
  affinity_plane seg off = Raise x -> x = ValueError.
Proof.
  unfold affinity_plane. destruct (shape seg) as [h w].
  destruct (broadcast2 np_equal _ _) as [e|x0] eqn:E;
    [|cbn [bind]; intros [= <-]; eapply broadcast2_raises; eassumption].
  cbn [bind].
  destruct (broadcast2 Z.mul e _) as [e1|x0] eqn:E1;
    [|cbn [bind]; intros [= <-]; eapply broadcast2_raises; eassumption].
  cbn [bind].
  destruct (broadcast2 Z.mul e1 _) as [e2|x0] eqn:E2;
    [|cbn [bind]; intros [= <-]; eapply broadcast2_raises; eassumption].
  cbn [bind]. unfold setslice2.
  destruct (_ && _); [discriminate|]. congruence.
Qed.

(** When a plane is computed, on each axis the two slices have the same
    length, or the source slice has length one. *)
Lemma affinity_plane_ok_inv (seg : list (list Z)) (off : Z * Z)
    (plane : list (list Z)) :
  affinity_plane seg off = Ok plane ->
  (target_length (fst (shape seg)) (fst off)
   = source_length (fst (shape seg)) (fst off) \/
   source_length (fst (shape seg)) (fst off) = 1%nat) /\
  (target_length (snd (shape seg)) (snd off)
   = source_length (snd (shape seg)) (snd off) \/
   source_length (snd (shape seg)) (snd off) = 1%nat).
Proof.
  unfold affinity_plane, target_length, source_length.
  destruct (shape seg) as [h w]. cbn [fst snd].
  destruct (broadcast2 np_equal _ _) as [e|] eqn:E; [|discriminate].
  cbn [bind].
  destruct (broadcast2 Z.mul e _) as [e1|] eqn:E1; [|discriminate].
  cbn [bind].
  destruct (broadcast2 Z.mul e1 _) as [e2|] eqn:E2; [|discriminate].
  cbn [bind]. unfold setslice2.
  destruct (_ && _) eqn:Eok; [|discriminate]. intros _.
  apply andb_true_iff in Eok. destruct Eok as [Ok0 Ok1].
  apply broadcast2_inv in E, E1, E2.
  unfold getslice2, nd_map in E, E1, E2. cbn [nd_shape fst snd] in E, E1, E2.
  destruct E as [Ea Eb], E1 as [E1a E1b], E2 as [E2a E2b].
  split; eapply broadcast_chain; eassumption.
Qed.

Lemma harmful_lengths (n : nat) (o : Z) :
  harmful n o ->
  target_length n o <> source_length n o /\ source_length n o <> 1%nat.
Proof.
  unfold harmful, target_length, source_length, py_slice, slice_bound.
  cbn [snd]. intros H.
  destruct (Z.ltb_spec (Z.max 0 (- o)) 0); [lia|].
  destruct (Z.ltb_spec (Z.max 0 o) 0); [lia|].
  destruct (Z.ltb_spec (Z.min (Z.of_nat n) (Z.of_nat n - o)) 0);
    destruct (Z.ltb_spec (Z.min (Z.of_nat n) (Z.of_nat n + o)) 0); lia.
Qed.

Lemma harmless_or_harmful (n : nat) (o : Z) :
  (harmless n o \/ harmful n o) /\ ~ (harmless n o /\ harmful n o).
Proof. unfold harmless, aligned, harmful. lia. Qed.

Lemma gap_lengths (n : nat) (o : Z) :
  ~ aligned n o -> o = 1 - 2 * Z.of_nat n ->
  target_length n o = 0%nat /\ source_length n o = 1%nat.
Proof.
  unfold aligned, target_length, source_length, py_slice, slice_bound.
  cbn [snd]. intros H ->.
  destruct (Z.ltb_spec (Z.max 0 (- (1 - 2 * Z.of_nat n))) 0); [lia|].
  destruct (Z.ltb_spec (Z.max 0 (1 - 2 * Z.of_nat n)) 0); [lia|].
  destruct (Z.ltb_spec (Z.min (Z.of_nat n)
              (Z.of_nat n - (1 - 2 * Z.of_nat n))) 0);
    destruct (Z.ltb_spec (Z.min (Z.of_nat n)
                (Z.of_nat n + (1 - 2 * Z.of_nat n))) 0); lia.
Qed.

Lemma aligned_lengths (n : nat) (o : Z) :
  aligned n o -> target_length n o = source_length n o.
Proof.
  intros H. destruct (aligned_slices n o H) as (t & u & l & Et & Eu & _).
  unfold target_length, source_length. now rewrite Et, Eu.
Qed.

Lemma harmless_lengths (n : nat) (o : Z) :
  harmless n o ->
  target_length n o = source_length n o \/ source_length n o = 1%nat.
Proof.
  intros [H|H].
  - left. now apply aligned_lengths.
  - destruct (ZArith_dec.Z_le_dec (Z.abs o) (Z.of_nat n)) as [Ha|Ha];
      [left; apply aligned_lengths; now left|].
    destruct (ZArith_dec.Z_le_dec (2 * Z.of_nat n) (Z.abs o)) as [Hb|Hb];
      [left; apply aligned_lengths; now right|].
    right. apply gap_lengths; [unfold aligned; lia | assumption].
Qed.

(** When the lengths of the slices are compatible, the plane is computed and
    is zero outside of the target slice. *)
Lemma affinity_plane_compatible (seg : list (list Z)) (off : Z * Z) :
  let h := fst (shape seg) in
  let w := snd (shape seg) in
  (target_length h (fst off) = source_length h (fst off) \/
   source_length h (fst off) = 1%nat) ->
  (target_length w (snd off) = source_length w (snd off) \/
   source_length w (snd off) = 1%nat) ->
  exists plane,
    affinity_plane seg off = Ok plane /\
    length plane = h /\ Forall (fun row => length row = w) plane /\
    forall i j, (i < h)%nat -> (j < w)%nat ->
      (target_length h (fst off) = 0%nat \/
       target_length w (snd off) = 0%nat) ->
      pixel plane i j = 0.
Proof.
  intros h w H0 H1. subst h w. unfold affinity_plane.
  unfold target_length, source_length in *.
  destruct (shape seg) as [h w]. cbn [fst snd] in *.
  destruct (py_slice (Z.max 0 (- fst off)) _ h) as [t0 la0].
  destruct (py_slice (Z.max 0 (fst off)) _ h) as [u0 lb0].
  destruct (py_slice (Z.max 0 (- snd off)) _ w) as [t1 la1].
  destruct (py_slice (Z.max 0 (snd off)) _ w) as [u1 lb1].
  cbn [snd] in H0, H1.
  destruct (broadcast_chain_ok _ _ H0) as [B0 B0'].
  destruct (broadcast_chain_ok _ _ H1) as [B1 B1'].
  unfold broadcast2, getslice2, nd_map. cbn [nd_shape fst snd bind].
  rewrite B0, B1. cbn [bind nd_shape fst snd].
  rewrite B0', B1'. cbn [bind nd_shape fst snd].
  rewrite B0, B1. cbn [bind nd_shape fst snd].
  unfold setslice2. cbn [nd_shape fst snd].
  rewrite !Nat.eqb_refl. cbn [orb andb].
  eexists. split; [reflexivity|].
  split; [apply tabulate2_shape|]. split; [apply tabulate2_shape|].
  intros i j Hi Hj Hz. rewrite tabulate2_pixel by assumption.
  unfold in_slice. cbn [fst snd].
  rewrite tabulate2_nth by assumption.
  destruct (Nat.leb_spec t0 i), (Nat.ltb_spec i (t0 + la0)),
    (Nat.leb_spec t1 j), (Nat.ltb_spec j (t1 + la1)); cbn [andb];
    try reflexivity.
  exfalso. lia.
Qed.

Lemma planes_ext (r c : nat) (p q : list (list Z)) :
  length p = r -> Forall (fun row => length row = c) p ->
  length q = r -> Forall (fun row => length row = c) q ->
  (forall i j, (i < r)%nat -> (j < c)%nat -> pixel p i j = pixel q i j) ->
  p = q.
Proof.
  intros Lp Fp Lq Fq H.
  apply (nth_ext p q [] []); [congruence|].
  intros i Hi. rewrite Forall_forall in Fp, Fq.
  assert (length (nth i p []) = c) as L1 by (apply Fp, nth_In; lia).
  assert (length (nth i q []) = c) as L2 by (apply Fq, nth_In; lia).
  apply (nth_ext _ _ 0 0); [congruence|].
  intros j Hj. apply H; lia.
Qed.

Lemma affinity_plane_harmless (seg : list (list Z)) (off : Z * Z) :
  harmless (fst (shape seg)) (fst off) ->
  harmless (snd (shape seg)) (snd off) ->
  affinity_plane seg off
  = Ok (tabulate2 (fst (shape seg)) (snd (shape seg)) (affinity_spec seg off)).
Proof.
  intros H0 H1.
  assert (aligned (fst (shape seg)) (fst off) /\
          aligned (snd (shape seg)) (snd off) \/
          (~ aligned (fst (shape seg)) (fst off) /\
           fst off = 1 - 2 * Z.of_nat (fst (shape seg))) \/
          (~ aligned (snd (shape seg)) (snd off) /\
           snd off = 1 - 2 * Z.of_nat (snd (shape seg)))) as Hcases.
  { unfold harmless, aligned in *. lia. }
  destruct Hcases as [[A0 A1] | Hgap];
    [now apply affinity_plane_aligned|].
  destruct (affinity_plane_compatible seg off
              (harmless_lengths _ _ H0) (harmless_lengths _ _ H1))
    as (plane & -> & Lp & Fp & Hz).
  f_equal.
  apply (planes_ext (fst (shape seg)) (snd (shape seg))); try assumption;
    try apply tabulate2_shape.
  intros i j Hi Hj. rewrite tabulate2_pixel by assumption.
  destruct Hgap as [[Hn E] | [Hn E]].
  - rewrite Hz; [|assumption|assumption|left; now apply gap_lengths].
    symmetry. apply affinity_spec_outside. lia.
  - rewrite Hz; [|assumption|assumption|right; now apply gap_lengths].
    symmetry. apply affinity_spec_outside. lia.
Qed.

Lemma for_each_plane_harmless (seg : list (list Z)) (nhood : list (Z * Z)) :
  Forall (fun off => harmless (fst (shape seg)) (fst off) /\
                     harmless (snd (shape seg)) (snd off)) nhood ->
  for_each (affinity_plane seg) nhood
  = Ok (map (fun off => tabulate2 (fst (shape seg)) (snd (shape seg))
                          (affinity_spec seg off)) nhood).
Proof.
  induction 1 as [|off l [H0 H1] _ IH]; [reflexivity|].
  cbn [for_each map].
  rewrite affinity_plane_harmless by assumption. cbn [bind].
  rewrite IH. reflexivity.
Qed.

Lemma for_each_plane_harmful (seg : list (list Z)) (nhood : list (Z * Z)) :
  Exists (fun off => harmful (fst (shape seg)) (fst off) \/
                     harmful (snd (shape seg)) (snd off)) nhood ->
  for_each (affinity_plane seg) nhood = Raise ValueError.
Proof.
  induction 1 as [off l H | off l _ IH]; cbn [for_each].
  - destruct (affinity_plane seg off) as [plane|x] eqn:E.
    + exfalso. apply affinity_plane_ok_inv in E. destruct E as [E0 E1].
      destruct H as [H|H]; apply harmful_lengths in H; tauto.
    + cbn [bind]. f_equal. eapply affinity_plane_raises; eassumption.
  - destruct (affinity_plane seg off) as [plane|x] eqn:E.
    + cbn [bind]. now rewrite IH.
    + cbn [bind]. f_equal. eapply affinity_plane_raises; eassumption.
Qed.

Lemma offsets_harmless_or_harmful (seg : list (list Z))
    (nhood : list (Z * Z)) :
  Forall (fun off => harmless (fst (shape seg)) (fst off) /\
                     harmless (snd (shape seg)) (snd off)) nhood \/
  Exists (fun off => harmful (fst (shape seg)) (fst off) \/
                     harmful (snd (shape seg)) (snd off)) nhood.
Proof.
  induction nhood as [|off l IH]; [left; constructor|].
  destruct IH as [IH|IH]; [|right; now apply Exists_cons_tl].
  destruct (proj1 (harmless_or_harmful (fst (shape seg)) (fst off)))
    as [H0|H0]; [|right; apply Exists_cons_hd; now left].
  destruct (proj1 (harmless_or_harmful (snd (shape seg)) (snd off)))
    as [H1|H1]; [|right; apply Exists_cons_hd; now right].
  left. constructor; [now split | assumption].
Qed.

(** X12. For a non-empty list of offsets each of whose components, on its
    axis of length [n], is at most [n] in absolute value, or at least [2
    n], or equal to [1 - 2 n], [compute_affinities] returns one plane
    for every offset, each of the shape of the image and with values
    zero and one only; the value at a pixel is one exactly when the
    pixel shifted by the offset is inside the image and both pixels
    carry the same label, which is not background. *)
Theorem X12_affinities_of_harmless_offsets
    (seg : list (list Z)) (nhood : list (Z * Z)) :
  nhood <> [] ->
  Forall (fun off => harmless (fst (shape seg)) (fst off) /\
                     harmless (snd (shape seg)) (snd off)) nhood ->
  exists affinity,
    compute_affinities seg nhood = Ok affinity /\
    length affinity = length nhood /\
    Forall (fun plane =>
              length plane = fst (shape seg) /\
              Forall (fun row => length row = snd (shape seg)) plane)
      affinity /\
    forall e i j,
      (e < length nhood)%nat ->
      (i < fst (shape seg))%nat -> (j < snd (shape seg))%nat ->
      let off := nth e nhood (0, 0) in
      let i' := Z.of_nat i + fst off in
      let j' := Z.of_nat j + snd off in
      let v := pixel (nth e affinity []) i j in
      (v = 0 \/ v = 1) /\
      (v = 1 <->
       0 <= i' < Z.of_nat (fst (shape seg)) /\
       0 <= j' < Z.of_nat (snd (shape seg)) /\
       pixel seg i j = pixel seg (Z.to_nat i') (Z.to_nat j') /\
       0 < pixel seg i j /\ 0 < pixel seg (Z.to_nat i') (Z.to_nat j')).
Proof.
  intros Hne Hall.
  exists (map (fun off => tabulate2 (fst (shape seg)) (snd (shape seg))
                            (affinity_spec seg off)) nhood).
  split.
  { unfold compute_affinities. destruct nhood; [congruence|].
    now apply for_each_plane_harmless. }
  split; [apply length_map|]. split.
  { apply Forall_forall. intros plane Hp. apply in_map_iff in Hp.
    destruct Hp as (off & <- & _). apply tabulate2_shape. }
  intros e i j He Hi Hj. cbv zeta.
  rewrite (nth_indep _ []
             (tabulate2 (fst (shape seg)) (snd (shape seg))
                (affinity_spec seg (0, 0))))
    by now rewrite length_map.
  rewrite (map_nth (fun off => tabulate2 (fst (shape seg)) (snd (shape seg))
                                 (affinity_spec seg off))).
  rewrite tabulate2_pixel by assumption.
  split.
  - unfold affinity_spec, Z_of_bool.
    destruct (_ && _); [|now left]. destruct (_ && _); [now right|now left].
  - apply affinity_spec_one.
Qed.

Lemma X12_witness :
  exists affinity,
    compute_affinities [[1; 1; 2]; [0; 2; 2]] [(0, 1); (-1, 0); (4, -5)]
    = Ok affinity /\
    affinity = [ [[1; 0; 0]; [0; 1; 0]];
                 [[0; 0; 0]; [0; 0; 1]];
                 [[0; 0; 0]; [0; 0; 0]] ].
Proof.
  destruct (X12_affinities_of_harmless_offsets
              [[1; 1; 2]; [0; 2; 2]] [(0, 1); (-1, 0); (4, -5)])
    as (affinity & E & _).
  - discriminate.
  - unfold harmless, aligned. cbn [shape fst snd length hd].
    repeat (apply Forall_cons; [cbn [fst snd]; lia|]). apply Forall_nil.
  - exists affinity. split; [exact E|].
    vm_compute in E. now injection E as <-.
Defined.

(** X13. Which exceptions [compute_affinities] raises. It raises [IndexError]
    exactly for the empty list of offsets, and [ValueError] exactly when
    some offset has a component [o], on an axis of length [n], with [n <
    o < 2 n] or [1 - 2 n < o < - n] (the two slices then have lengths
    that cannot be broadcast); for every other list of offsets it
    returns the affinities. *)
Theorem X13_compute_affinities_exceptions
    (seg : list (list Z)) (nhood : list (Z * Z)) :
  let bad off := harmful (fst (shape seg)) (fst off) \/
                 harmful (snd (shape seg)) (snd off) in
  (compute_affinities seg nhood = Raise IndexError <-> nhood = []) /\
  (compute_affinities seg nhood = Raise ValueError <->
   Exists bad nhood) /\
  ((exists affinity, compute_affinities seg nhood = Ok affinity) <->
   nhood <> [] /\ Forall (fun off => ~ bad off) nhood).
Proof.
  intros bad.
  assert (Forall (fun off => ~ bad off) nhood <->
          Forall (fun off => harmless (fst (shape seg)) (fst off) /\
                             harmless (snd (shape seg)) (snd off)) nhood)
    as Hiff.
  { rewrite !Forall_forall. subst bad.
    split; intros H off Hin; specialize (H off Hin); cbv beta in *;
      pose proof (harmless_or_harmful (fst (shape seg)) (fst off));
      pose proof (harmless_or_harmful (snd (shape seg)) (snd off)); tauto. }
  assert (Exists bad nhood -> ~ Forall (fun off => ~ bad off) nhood)
    as Hex.
  { intros He Hf. apply Exists_exists in He. destruct He as (off & Hin & Hb).
    rewrite Forall_forall in Hf. exact (Hf off Hin Hb). }
  destruct nhood as [|off l].
  - cbn [compute_affinities].
    split; [tauto|]. split.
    + split; [discriminate|]. intros H. inversion H.
    + split; [intros [? ?]; discriminate | tauto].
  - unfold compute_affinities.
    destruct (offsets_harmless_or_harmful seg (off :: l)) as [H|H].
    + rewrite for_each_plane_harmless by assumption.
      split; [split; discriminate|]. split.
      * split; [discriminate|]. intros He. apply Hex in He.
        exfalso. apply He. now apply Hiff.
      * split; [|intros _; eexists; reflexivity].
        intros _. split; [discriminate|]. now apply Hiff.
    + rewrite for_each_plane_harmful by assumption.
      split; [split; discriminate|]. split; [tauto|].
      split; [intros [? ?]; discriminate|].
      intros [_ Hf]. exfalso. exact (Hex H Hf).
Qed.

Lemma compute_affinities_ok (seg : list (list Z)) (nhood : list (Z * Z))
    (affinity : list (list (list Z))) :
  compute_affinities seg nhood = Ok affinity ->
  affinity = map (fun off => tabulate2 (fst (shape seg)) (snd (shape seg))
                               (affinity_spec seg off)) nhood.
Proof.
  unfold compute_affinities. destruct nhood as [|off l]; [discriminate|].
  destruct (offsets_harmless_or_harmful seg (off :: l)) as [H|H].
  - rewrite for_each_plane_harmless by assumption. congruence.
  - rewrite for_each_plane_harmful by assumption. discriminate.
Qed.

Lemma nth_planes (seg : list (list Z)) (nhood : list (Z * Z)) (e : nat) :
  (e < length nhood)%nat ->
  nth e (map (fun off => tabulate2 (fst (shape seg)) (snd (shape seg))
                           (affinity_spec seg off)) nhood) []
  = tabulate2 (fst (shape seg)) (snd (shape seg))
      (affinity_spec seg (nth e nhood (0, 0))).
Proof.
  intros He.
  rewrite (nth_indep _ []
             (tabulate2 (fst (shape seg)) (snd (shape seg))
                (affinity_spec seg (0, 0))))
    by now rewrite length_map.
  apply (map_nth (fun off => tabulate2 (fst (shape seg)) (snd (shape seg))
                               (affinity_spec seg off))).
Qed.

(** X14. The affinities of two opposite offsets agree: when the list holds an
    offset and its negation, the affinity of a pixel for the offset
    equals the affinity of the shifted pixel for the negated offset, for
    every pixel whose shifted pixel is inside the image. *)
Theorem X14_opposite_offsets_give_the_same_affinity
    (seg : list (list Z)) (nhood : list (Z * Z))
    (affinity : list (list (list Z))) (e1 e2 i j : nat) :
  let off := nth e1 nhood (0, 0) in
  let i' := Z.of_nat i + fst off in
  let j' := Z.of_nat j + snd off in
  compute_affinities seg nhood = Ok affinity ->
  (e1 < length nhood)%nat -> (e2 < length nhood)%nat ->
  nth e2 nhood (0, 0) = (- fst off, - snd off) ->
  (i < fst (shape seg))%nat -> (j < snd (shape seg))%nat ->
  0 <= i' < Z.of_nat (fst (shape seg)) ->
  0 <= j' < Z.of_nat (snd (shape seg)) ->
  pixel (nth e1 affinity []) i j
  = pixel (nth e2 affinity []) (Z.to_nat i') (Z.to_nat j').
Proof.
  intros off i' j' E He1 He2 Hopp Hi Hj Hi' Hj'.
  apply compute_affinities_ok in E. subst affinity.
  rewrite !nth_planes by assumption.
  rewrite !tabulate2_pixel by lia.
  rewrite Hopp. fold off. unfold affinity_spec. cbn [fst snd]. fold i' j'.
  replace (Z.of_nat (Z.to_nat i') + - fst off) with (Z.of_nat i) by lia.
  replace (Z.of_nat (Z.to_nat j') + - snd off) with (Z.of_nat j) by lia.
  rewrite !Nat2Z.id.
  destruct (Z.leb_spec 0 i'); [|lia].
  destruct (Z.ltb_spec i' (Z.of_nat (fst (shape seg)))); [|lia].
  destruct (Z.leb_spec 0 j'); [|lia].
  destruct (Z.ltb_spec j' (Z.of_nat (snd (shape seg)))); [|lia].
  destruct (Z.leb_spec 0 (Z.of_nat i)); [|lia].
  destruct (Z.ltb_spec (Z.of_nat i) (Z.of_nat (fst (shape seg)))); [|lia].
  destruct (Z.leb_spec 0 (Z.of_nat j)); [|lia].
  destruct (Z.ltb_spec (Z.of_nat j) (Z.of_nat (snd (shape seg)))); [|lia].
  cbn [andb]. rewrite (Z.eqb_sym (pixel seg i j)).
  destruct (_ =? _), (0 <? pixel seg i j), (0 <? _); reflexivity.
Qed.

Lemma X14_witness :
  pixel (nth 0 [ [[1; 0; 0]; [0; 1; 0]]; [[0; 1; 0]; [0; 0; 1]] ] []) 1 1
  = pixel (nth 1 [ [[1; 0; 0]; [0; 1; 0]]; [[0; 1; 0]; [0; 0; 1]] ] []) 1 2.
Proof.
  apply (X14_opposite_offsets_give_the_same_affinity
           [[1; 1; 2]; [0; 2; 2]] [(0, 1); (0, -1)] _ 0 1 1 1);
    cbn [nth fst snd shape length hd]; try lia; reflexivity.
Defined.

Lemma pixel_In (seg : list (list Z)) (i j : nat) :
  In (pixel seg i j) (flatten seg) \/ pixel seg i j = 0.
Proof.
  unfold pixel, flatten.
  destruct (nth_in_or_default i seg []) as [Hrow|Hrow].
  - destruct (nth_in_or_default j (nth i seg []) 0) as [Hx|Hx];
      [|now right].
    left. apply in_concat. eauto.
  - right. rewrite Hrow. now destruct j.
Qed.

Lemma pixel_relabel_image (f : Z -> Z) (seg : list (list Z)) (i j : nat) :
  f 0 = 0 -> pixel (relabel_image f seg) i j = f (pixel seg i j).
Proof.
  intros H0. unfold pixel, relabel_image.
  change (@nil Z) with (map f []) at 1. rewrite map_nth.
  rewrite <- H0 at 1. apply map_nth.
Qed.

Lemma shape_relabel_image (f : Z -> Z) (seg : list (list Z)) :
  shape (relabel_image f seg) = shape seg.
Proof.
  unfold shape, relabel_image. rewrite length_map.
  destruct seg as [|row seg]; [reflexivity|].
  cbn [map hd]. now rewrite length_map.
Qed.

Lemma affinity_spec_relabel (f : Z -> Z) (seg : list (list Z))
    (off : Z * Z) (i j : nat) :
  Forall (fun x => 0 <= x) (flatten seg) ->
  relabeling (flatten seg) f ->
  affinity_spec (relabel_image f seg) off i j = affinity_spec seg off i j.
Proof.
  intros Hnn Hf. unfold affinity_spec. rewrite shape_relabel_image.
  destruct (_ && _); [|reflexivity].
  assert (f 0 = 0) as H0 by (destruct Hf as [H0 _]; exact H0).
  rewrite !pixel_relabel_image by assumption.
  set (x := pixel seg i j). set (y := pixel seg _ _).
  assert (forall z, In z (flatten seg) \/ z = 0 ->
                    0 <= z /\ (0 < z -> In z (flatten seg) /\ 0 < f z) /\
                    (z = 0 -> f z = 0)) as Hval.
  { intros z [Hin| ->].
    - rewrite Forall_forall in Hnn. split; [now apply Hnn|].
      split; [|now intros ->]. intros Hz. split; [assumption|].
      now apply Hf.
    - split; [lia|]. split; [lia|]. auto. }
  destruct (Hval x (pixel_In seg _ _)) as (Hx & Hxp & Hxz).
  destruct (Hval y (pixel_In seg _ _)) as (Hy & Hyp & Hyz).
  f_equal.
  destruct (Z.ltb_spec 0 x) as [Px|Px].
  - destruct (Hxp Px) as [Ix Fx].
    destruct (Z.ltb_spec 0 (f x)); [|lia].
    destruct (Z.ltb_spec 0 y) as [Py|Py].
    + destruct (Hyp Py) as [Iy Fy].
      destruct (Z.ltb_spec 0 (f y)); [|lia].
      rewrite !andb_true_r.
      destruct (Z.eqb_spec x y) as [->|Hne]; [apply Z.eqb_refl|].
      apply Z.eqb_neq. intros E. apply Hne.
      destruct Hf as (_ & _ & Hinj). now apply Hinj.
    + rewrite Hyz by lia. cbn. now rewrite !andb_false_r.
  - rewrite Hxz by lia. cbn. now rewrite !andb_false_r.
Qed.

(** X15. The affinities depend only on the partition of the image into
    instances, not on the label values: renaming the instances of an
    image without negative labels (background kept, distinct instances
    kept distinct) gives the same result, be it the affinities or an
    exception. *)
Theorem X15_affinities_do_not_depend_on_the_label_values
    (f : Z -> Z) (seg : list (list Z)) (nhood : list (Z * Z)) :
  Forall (fun x => 0 <= x) (flatten seg) ->
  relabeling (flatten seg) f ->
  compute_affinities (relabel_image f seg) nhood
  = compute_affinities seg nhood.
Proof.
  intros Hnn Hf. unfold compute_affinities.
  destruct nhood as [|off l]; [reflexivity|].
  destruct (offsets_harmless_or_harmful seg (off :: l)) as [H|H].
  - rewrite (for_each_plane_harmless seg) by assumption.
    rewrite for_each_plane_harmless
      by (now rewrite shape_relabel_image).
    rewrite shape_relabel_image. f_equal.
    apply map_ext. intros o. apply tabulate2_ext. intros i j _ _.
    now apply affinity_spec_relabel.
  - rewrite (for_each_plane_harmful seg) by assumption.
    apply for_each_plane_harmful. now rewrite shape_relabel_image.
Qed.

Lemma X15_witness :
  compute_affinities [[7; 7; 3]; [0; 3; 3]] [(0, 1); (1, 0)]
  = compute_affinities [[1; 1; 2]; [0; 2; 2]] [(0, 1); (1, 0)].
Proof.
  apply (X15_affinities_do_not_depend_on_the_label_values
           (fun x => if x =? 1 then 7 else if x =? 2 then 3 else 0)
           [[1; 1; 2]; [0; 2; 2]]).
  - cbn. repeat (apply Forall_cons; [lia|]). apply Forall_nil.
  - unfold relabeling. cbn [flatten concat app].
    split; [reflexivity|]. split.
    + intros x Hin Hx. cbn in Hin.
      repeat (destruct Hin as [<-|Hin]; [cbn; lia|]). contradiction.
    + intros x y Hx Hy _ _. cbn in Hx, Hy.
      repeat (destruct Hx as [<-|Hx]);
        repeat (destruct Hy as [<-|Hy]);
        try contradiction; cbn; intros E; try reflexivity; discriminate.
Defined.

(** ** The training loop *)

Section TrainFacts.

Context {state batch : Type}.
Variable shapes_agree : state -> batch -> bool.
Variable optimizer_step : state -> batch -> state.

Lemma train_batch_ok (o : options) (n k : Z) (b : batch) (w : world state) :
  log_interval o <> 0 ->
  (tb_logger o = true -> log_image_interval o <> 0) ->
  shapes_agree (params w) b = true ->
  train_batch shapes_agree optimizer_step o n k b w
  = (mk_world (optimizer_step (params w) b) (log w ++ batch_events o n k),
     Ok (early_stop o && (5 <? k))).
Proof.
  intros Hli Hlii Hshape.
  unfold train_batch, batch_events, and_then, get_params, py_assert,
    set_params, lift, py_mod, when, emit, ret.
  rewrite Hshape. cbn [params log].
  destruct (Z.eqb_spec (log_interval o) 0) as [|_]; [contradiction|].
  destruct (tb_logger o) eqn:Etb.
  - destruct (Z.eqb_spec (log_image_interval o) 0) as [E|_];
      [now apply Hlii in E|].
    destruct (k mod log_interval o =? 0),
      ((epoch o * n + k) mod log_image_interval o =? 0),
      (early_stop o && (5 <? k)); cbn [params log app];
      rewrite <- ?app_assoc, ?app_nil_r; reflexivity.
  - destruct (k mod log_interval o =? 0),
      (early_stop o && (5 <? k)); cbn [params log app];
      rewrite <- ?app_assoc, ?app_nil_r; reflexivity.
Qed.

Lemma batch_events_stopping (o : options) (n k : Z) :
  In Stopping (batch_events o n k) <-> early_stop o && (5 <? k) = true.
Proof.
  unfold batch_events. rewrite !in_app_iff.
  destruct (k mod log_interval o =? 0), (tb_logger o),
    ((epoch o * n + k) mod log_image_interval o =? 0),
    (early_stop o && (5 <? k)); cbn;
    intuition (try discriminate; try congruence).
Qed.

Lemma batch_events_scalar (o : options) (n k st : Z) :
  In (Scalar st) (batch_events o n k) <->
  tb_logger o = true /\ st = epoch o * n + k.
Proof.
  unfold batch_events. rewrite !in_app_iff.
  destruct (k mod log_interval o =? 0), (tb_logger o),
    ((epoch o * n + k) mod log_image_interval o =? 0),
    (early_stop o && (5 <? k)); cbn;
    intuition (try discriminate; try congruence).
Qed.

Lemma batches_left_step (k : Z) :
  0 <= k -> (5 <? k) = false -> batches_left k = S (batches_left (k + 1)).
Proof. unfold batches_left. intros H0 H. apply Z.ltb_ge in H. lia. Qed.

Lemma batches_left_last (k : Z) : (5 <? k) = true -> batches_left k = 1%nat.
Proof. unfold batches_left. intros H. apply Z.ltb_lt in H. lia. Qed.

Lemma train_loop_ok (o : options) (n : Z) (batches : list batch) :
  log_interval o <> 0 ->
  (tb_logger o = true -> log_image_interval o <> 0) ->
  forall (k : Z) (w : world state), 0 <= k ->
  let processed :=
    if early_stop o then firstn (batches_left k) batches else batches in
  (forall s b, In b processed -> shapes_agree s b = true) ->
  exists evs,
    train_loop shapes_agree optimizer_step o n k batches w
    = (mk_world (fold_left optimizer_step processed (params w))
         (log w ++ evs), Ok tt) /\
    (In Stopping evs <->
     early_stop o = true /\ (batches_left k <= length batches)%nat) /\
    (forall st, In (Scalar st) evs <->
       tb_logger o = true /\
       epoch o * n + k <= st
       < epoch o * n + k + Z.of_nat (length processed)).
Proof.
  intros Hli Hlii. induction batches as [|b bs IH]; intros k w Hk processed Hsh.
  - exists []. cbn [train_loop ret]. subst processed. split.
    + destruct (early_stop o); rewrite ?firstn_nil, app_nil_r;
        now destruct w.
    + split.
      * split; [intros []|]. intros [_ H]. unfold batches_left in H.
        cbn [length] in H. lia.
      * intros st. split; [intros []|].
        destruct (early_stop o); rewrite ?firstn_nil; cbn [length]; lia.
  - assert (exists m, batches_left k = S m) as [m Em]
      by (unfold batches_left; exists (Nat.pred (Z.to_nat (Z.max 1 (7 - k))));
          lia).
    assert (shapes_agree (params w) b = true) as Hb.
    { apply Hsh. subst processed.
      destruct (early_stop o); [rewrite Em|]; now left. }
    cbn [train_loop]. unfold and_then.
    rewrite train_batch_ok by assumption.
    destruct (early_stop o && (5 <? k)) eqn:Estop.
    + apply andb_true_iff in Estop. destruct Estop as [Ee Ek].
      subst processed.
      rewrite Ee. rewrite (batches_left_last k Ek).
      exists (batch_events o n k). cbn [firstn fold_left ret length].
      split; [reflexivity|]. split.
      * rewrite batch_events_stopping, Ee, Ek. cbn [andb].
        split; [intros _; split; [reflexivity|lia] | reflexivity].
      * intros st. rewrite batch_events_scalar.
        change (Z.of_nat 1) with 1.
        split; intros [H1 H2]; (split; [exact H1 | lia]).
    + assert (early_stop o = true -> batches_left k = S (batches_left (k + 1)))
        as Hleft.
      { intros Ee. rewrite Ee in Estop. cbn [andb] in Estop.
        now apply batches_left_step. }
      assert (processed
              = b :: (if early_stop o
                      then firstn (batches_left (k + 1)) bs else bs))
        as Hproc.
      { subst processed. destruct (early_stop o); [|reflexivity].
        now rewrite Hleft. }
      destruct (IH (k + 1)
                  (mk_world (optimizer_step (params w) b)
                     (log w ++ batch_events o n k)))
        as (evs & -> & Hstop & Hsc);
        [lia | intros s b' Hin; apply Hsh; rewrite Hproc; now right |].
      cbn [params log] in *.
      exists (batch_events o n k ++ evs).
      rewrite Hproc.
      split; [|split].
      * rewrite app_assoc. reflexivity.
      * rewrite in_app_iff, batch_events_stopping, Estop, Hstop.
        cbn [length].
        split.
        -- intros [H|[Ee H]]; [discriminate|].
           split; [exact Ee|]. rewrite (Hleft Ee). lia.
        -- intros [Ee H]. right. split; [exact Ee|].
           rewrite (Hleft Ee) in H. lia.
      * intros st. rewrite in_app_iff, batch_events_scalar, Hsc.
        cbn [length]. rewrite Nat2Z.inj_succ.
        split.
        -- intros [[H1 H2]|[H1 H2]]; (split; [exact H1 | lia]).
        -- intros [H1 H2].
           destruct (Z.eq_dec st (epoch o * n + k)) as [E|E];
             [left | right]; (split; [exact H1 | lia]).
Qed.

Lemma train_loop_mismatch (o : options) (n : Z) (b : batch)
    (post pre : list batch) :
  log_interval o <> 0 ->
  (tb_logger o = true -> log_image_interval o <> 0) ->
  (forall s b', In b' pre -> shapes_agree s b' = true) ->
  forall (k : Z) (w : world state), 0 <= k ->
  (early_stop o = true -> k + Z.of_nat (length pre) <= 6) ->
  shapes_agree (fold_left optimizer_step pre (params w)) b = false ->
  exists evs,
    train_loop shapes_agree optimizer_step o n k (pre ++ b :: post) w
    = (mk_world (fold_left optimizer_step pre (params w)) (log w ++ evs),
       Raise AssertionError) /\
    ~ In Stopping evs.
Proof.
  intros Hli Hlii. induction pre as [|b0 pre IH]; intros Hsh k w Hk He Hb.
  - exists []. cbn [app train_loop fold_left] in *. unfold and_then.
    unfold train_batch, and_then, get_params, py_assert, raise.
    rewrite Hb. rewrite app_nil_r. split; [now destruct w | intros []].
  - cbn [app train_loop fold_left length] in *. unfold and_then.
    rewrite train_batch_ok; [|assumption|assumption|apply Hsh; now left].
    assert (early_stop o && (5 <? k) = false) as Estop.
    { destruct (early_stop o); [|reflexivity]. cbn [andb].
      apply Z.ltb_ge. specialize (He eq_refl). lia. }
    rewrite Estop.
    destruct (IH (fun s b' Hin => Hsh s b' (or_intror Hin)) (k + 1)
                (mk_world (optimizer_step (params w) b0)
                   (log w ++ batch_events o n k)))
      as (evs & -> & Hns); [lia | intros Ee; specialize (He Ee); lia
                           | exact Hb |].
    cbn [params log]. exists (batch_events o n k ++ evs).
    split; [now rewrite app_assoc|].
    rewrite in_app_iff, batch_events_stopping, Estop. intros [H|H];
      [discriminate | contradiction].
Qed.

End TrainFacts.

(** X16. When no exception arises ([log_interval] is not zero,
    [log_image_interval] is not zero if a logger is passed, and the
    shape assertion holds on the batches that are processed), [train]
    with [early_stop] trains on the first seven batches only, and
    without it on all of them: the state reached is that of one
    optimizer step for each of these batches, in order. The line
    "Stopping test early!" is printed exactly when [early_stop] is set
    and the loader has at least seven batches, and with a logger the
    scalars are logged at the consecutive steps that start at [epoch *
    len(loader)], one for every batch trained on. *)
Theorem X16_early_stop_trains_on_seven_batches
    {state batch : Type} (shapes_agree : state -> batch -> bool)
    (optimizer_step : state -> batch -> state)
    (o : options) (batches : list batch) (w : world state) :
  let processed := if early_stop o then firstn 7 batches else batches in
  let first_step := epoch o * Z.of_nat (length batches) in
  log_interval o <> 0 ->
  (tb_logger o = true -> log_image_interval o <> 0) ->
  (forall s b, In b processed -> shapes_agree s b = true) ->
  exists evs,
    train shapes_agree optimizer_step o batches w
    = (mk_world (fold_left optimizer_step processed (params w))
         (log w ++ evs), Ok tt) /\
    (In Stopping evs <->
     early_stop o = true /\ (7 <= length batches)%nat) /\
    (forall st, In (Scalar st) evs <->
       tb_logger o = true /\
       first_step <= st < first_step + Z.of_nat (length processed)).
Proof.
  intros processed first_step Hli Hlii Hsh.
  destruct (train_loop_ok shapes_agree optimizer_step o
              (Z.of_nat (length batches)) batches Hli Hlii 0 w (Z.le_refl 0)
              Hsh)
    as (evs & E & Hstop & Hsc).
  exists evs. split; [exact E|]. split; [exact Hstop|].
  intros st. rewrite Hsc. rewrite Z.add_0_r. reflexivity.
Qed.

Lemma X16_witness :
  let run := train (fun (_ : Z) (_ : unit) => true) (fun s _ => s + 1)
               (mk_options 2 100 20 true true) (repeat tt 10)
               (mk_world 0 []) in
  params (fst run) = 7 /\ In Stopping (log (fst run)) /\ snd run = Ok tt.
Proof.
  destruct (X16_early_stop_trains_on_seven_batches
              (fun (_ : Z) (_ : unit) => true) (fun s _ => s + 1)
              (mk_options 2 100 20 true true) (repeat tt 10) (mk_world 0 []))
    as (evs & E & Hstop & _).
  - cbn. discriminate.
  - cbn. discriminate.
  - reflexivity.
  - cbv zeta. rewrite E. cbn [fst snd params log app].
    split; [reflexivity|]. split; [|reflexivity].
    apply Hstop. split; [reflexivity | cbn; lia].
Defined.

(** X17. A zero interval makes [train] fail on the first batch only after the
    optimizer has made its step. With [log_interval = 0] it raises
    [ZeroDivisionError] with nothing printed or logged; with a logger
    and [log_image_interval = 0] it raises [ZeroDivisionError] after the
    progress line and the scalar of the first batch. In both cases the
    state is the one after one optimizer step. *)
Theorem X17_zero_interval_fails_after_the_first_update
    {state batch : Type} (shapes_agree : state -> batch -> bool)
    (optimizer_step : state -> batch -> state)
    (o : options) (b : batch) (rest : list batch) (w : world state) :
  shapes_agree (params w) b = true ->
  (log_interval o = 0 ->
   train shapes_agree optimizer_step o (b :: rest) w
   = (mk_world (optimizer_step (params w) b) (log w),
      Raise ZeroDivisionError)) /\
  (log_interval o <> 0 -> tb_logger o = true -> log_image_interval o = 0 ->
   train shapes_agree optimizer_step o (b :: rest) w
   = (mk_world (optimizer_step (params w) b)
        (log w ++ [Printed 0;
                   Scalar (epoch o * Z.of_nat (length (b :: rest)))]),
      Raise ZeroDivisionError)).
Proof.
  intros Hshape.
  unfold train. cbn [train_loop].
  unfold and_then at 1.
  unfold train_batch, and_then, get_params, py_assert, set_params, lift,
    py_mod, when, emit, ret.
  rewrite Hshape. cbn [params log]. split.
  - intros ->. reflexivity.
  - intros Hli Htb Hlii. rewrite Htb, Hlii.
    destruct (Z.eqb_spec (log_interval o) 0) as [|_]; [contradiction|].
    rewrite Z.mod_0_l by assumption. cbn [Z.eqb params log].
    rewrite Z.add_0_r, <- app_assoc. reflexivity.
Qed.

Lemma X17_witness :
  train (fun (_ : Z) (_ : unit) => true) (fun s _ => s + 1)
    (mk_options 0 0 20 false false) [tt; tt; tt] (mk_world 0 [])
  = (mk_world 1 [], Raise ZeroDivisionError).
Proof.
  apply (X17_zero_interval_fails_after_the_first_update
           (fun (_ : Z) (_ : unit) => true) (fun s _ => s + 1)
           (mk_options 0 0 20 false false) tt [tt; tt] (mk_world 0 []));
    reflexivity.
Defined.

(** X18. A batch for which the prediction and the target differ in shape ends
    [train] with [AssertionError]: the batches before it have been
    trained on, one optimizer step each, and this batch and the
    following ones have not. (With [early_stop] the batch must be among
    the first seven to be reached.) *)
Theorem X18_shape_mismatch_stops_training
    {state batch : Type} (shapes_agree : state -> batch -> bool)
    (optimizer_step : state -> batch -> state)
    (o : options) (pre : list batch) (b : batch) (post : list batch)
    (w : world state) :
  log_interval o <> 0 ->
  (tb_logger o = true -> log_image_interval o <> 0) ->
  (early_stop o = true -> (length pre <= 6)%nat) ->
  (forall s b', In b' pre -> shapes_agree s b' = true) ->
  shapes_agree (fold_left optimizer_step pre (params w)) b = false ->
  exists evs,
    train shapes_agree optimizer_step o (pre ++ b :: post) w
    = (mk_world (fold_left optimizer_step pre (params w)) (log w ++ evs),
       Raise AssertionError) /\
    ~ In Stopping evs.
Proof.
  intros Hli Hlii He Hsh Hb. unfold train.
  apply train_loop_mismatch; try assumption; [lia|].
  intros Ee. specialize (He Ee). lia.
Qed.

Lemma X18_witness :
  exists evs,
    train (fun (_ : Z) (ok : bool) => ok) (fun s _ => s + 1)
      (mk_options 0 100 20 false false) ([true; true] ++ false :: [true])
      (mk_world 0 [])
    = (mk_world 2 evs, Raise AssertionError) /\
    ~ In Stopping evs.
Proof.
  apply (X18_shape_mismatch_stops_training
           (fun (_ : Z) (ok : bool) => ok) (fun s _ => s + 1)
           (mk_options 0 100 20 false false) [true; true] false [true]
           (mk_world 0 [])).
  - cbn. discriminate.
  - cbn. discriminate.
  - cbn. discriminate.
  - intros s b' Hin. cbn in Hin.
    destruct Hin as [<-|[<-|[]]]; reflexivity.
  - reflexivity.
Defined.

(** ** The colour image of four affinity planes *)

Lemma half_bounds (x y : Z) :
  0 <= x <= 1 -> 0 <= y <= 1 ->
  (0 <= inject_Z (x + y) / 2 <= 1)%Q /\
  ((inject_Z (x + y) / 2 == 1)%Q <-> x = 1 /\ y = 1).
Proof.
  intros Hx Hy.
  assert (x = 0 \/ x = 1) as [-> | ->] by lia;
    assert (y = 0 \/ y = 1) as [-> | ->] by lia; cbn;
    (split; [split; unfold Qle; cbn; lia|]);
    (split; [intros H; unfold Qeq in H; cbn in H; lia
            |intros [? ?]; try lia; reflexivity]).
Qed.

(** X19. For a stack of four planes with values zero and one, such as the
    affinities of four offsets, the plot functions show an image of the
    same height and width with three components for every pixel: red and
    green are averages of two planes and lie between zero and one, being
    one exactly when both planes are one there; blue is zero or one, and
    one exactly when some plane is one at the pixel. *)
Theorem X19_colour_image_of_four_affinity_planes
    (a : list (list (list Z))) :
  length a = 4%nat ->
  (forall c i j, 0 <= px a c i j <= 1) ->
  exists rgb,
    intermediate_image a = inr rgb /\
    length rgb = fst (shape (hd [] a)) /\
    forall i j,
      (i < fst (shape (hd [] a)))%nat -> (j < snd (shape (hd [] a)))%nat ->
      length (nth i rgb []) = snd (shape (hd [] a)) /\
      exists red green blue,
        nth j (nth i rgb []) [] = [red; green; blue] /\
        (0 <= red <= 1)%Q /\ (0 <= green <= 1)%Q /\
        (blue = 0%Q \/ blue = 1%Q) /\
        (blue = 1%Q <-> exists c, (c < 4)%nat /\ px a c i j = 1) /\
        ((red == 1)%Q <-> px a 0 i j = 1 /\ px a 2 i j = 1) /\
        ((green == 1)%Q <-> px a 1 i j = 1 /\ px a 3 i j = 1).
Proof.
  intros Hlen Hval. unfold intermediate_image. rewrite Hlen.
  cbn [Nat.eqb]. eexists. split; [reflexivity|].
  unfold rgb_of_four. destruct (shape (hd [] a)) as [h w]. cbn [fst snd].
  split; [now rewrite length_map, length_seq|].
  intros i j Hi Hj.
  set (F := fun i0 : nat => map _ (seq 0 w)).
  rewrite (nth_indep _ [] (F 0%nat)) by now rewrite length_map, length_seq.
  rewrite (map_nth F), seq_nth by assumption. cbn [Nat.add]. subst F.
  cbv beta. split; [now rewrite length_map, length_seq|].
  set (F := fun j0 : nat => _).
  rewrite (nth_indep _ [] (F 0%nat)) by now rewrite length_map, length_seq.
  rewrite (map_nth F), seq_nth by assumption. cbn [Nat.add]. subst F.
  cbv beta.
  pose proof (Hval 0%nat i j) as H0. pose proof (Hval 1%nat i j) as H1.
  pose proof (Hval 2%nat i j) as H2. pose proof (Hval 3%nat i j) as H3.
  do 3 eexists. split; [reflexivity|].
  split; [apply half_bounds; assumption|].
  split; [apply half_bounds; assumption|].
  split; [destruct (0 <? _); [now right | now left]|].
  split; [|split; apply half_bounds; assumption].
  destruct (Z.ltb_spec 0 (px a 0 i j + px a 1 i j + px a 2 i j + px a 3 i j))
    as [Hs|Hs].
  - split; [intros _|reflexivity].
    destruct (Z.eq_dec (px a 0 i j) 1); [exists 0%nat; split; [lia|assumption]|].
    destruct (Z.eq_dec (px a 1 i j) 1); [exists 1%nat; split; [lia|assumption]|].
    destruct (Z.eq_dec (px a 2 i j) 1); [exists 2%nat; split; [lia|assumption]|].
    exists 3%nat. split; lia.
  - split; [discriminate|]. intros (c & Hc & E). exfalso.
    assert (c = 0 \/ c = 1 \/ c = 2 \/ c = 3)%nat as Hcases by lia.
    destruct Hcases as [-> | [-> | [-> | ->]]]; lia.
Qed.

Lemma X19_witness :
  exists rgb,
    intermediate_image
      [ [[1; 0]; [0; 0]]; [[0; 0]; [1; 0]]; [[1; 0]; [0; 0]];
        [[0; 0]; [0; 0]] ] = inr rgb /\
    (nth 0 (nth 0 (nth 0 rgb []) []) 0 == 1)%Q /\
    nth 2 (nth 0 (nth 0 rgb []) []) 0%Q = 1%Q.
Proof.
  destruct (X19_colour_image_of_four_affinity_planes
              [ [[1; 0]; [0; 0]]; [[0; 0]; [1; 0]]; [[1; 0]; [0; 0]];
                [[0; 0]; [0; 0]] ])
    as (rgb & E & _).
  - reflexivity.
  - intros c i j. unfold px, pixel.
    do 5 (destruct c as [|c]; cbn [nth];
          [do 3 (destruct i as [|i]; cbn [nth];
                 [do 3 (destruct j as [|j]; cbn [nth]; [lia|]);
                  destruct j; lia|]);
           destruct i, j; cbn; lia|]).
    destruct c, i, j; cbn; lia.
  - exists rgb. split; [exact E|].
    vm_compute in E. injection E as <-. split; reflexivity.
Defined.
